(** * Maze game core: generation, goal selection, collision and portal test

    A shallow embedding of the simulation core of [main.py]
    (classes [Maze] and [Camera]) together with the properties stated
    for it.

    Conventions of the embedding.
    - Python integers are [Z]; the numpy array [maze] is a list of rows
      of [Z] (cell value [1] is a wall, [0] is a path).
    - Indexing follows Python: a negative index wraps around once, an
      index outside [-len, len) raises [IndexError].
    - Exceptions are the [Raised] case of [outcome]; the [while] loop of
      [generate_maze] is run with fuel and [OutOfFuel] is the case where
      the fuel did not suffice.
    - [random.choice] reads the process-wide generator of the [random]
      module.  The generator is an explicit stream [rand : nat -> nat] of
      raw draws; the [k]-th call of [random.choice] on a list [l] returns
      the element of index [rand k mod len(l)].
    - Coordinates and angles of the camera are Python floats, that is
      IEEE 754 binary64 numbers.  A finite double is embedded as the
      rational [Q] it denotes, and every float operation rounds its exact
      result to the nearest double, ties to even ([round64]): [+], [-]
      and [*] are [fadd], [fsub] and [fmul], [x ** 2] is the rounded
      product [fmul x x], [np.sqrt] is the correctly rounded root
      [fsqrt], a decimal literal is the double nearest to it.  That
      [round64] returns a double and that no double is nearer is
      [round64_is_double] and [round64_nearest]; [fsqrt_near] is the
      like for the root.  Results beyond the largest double (overflow to
      infinity) and NaN are outside the model; an [int] that meets a
      float is converted exactly, which holds below [2^53]. *)

From Stdlib Require Import ZArith QArith Qround Qabs Qpower Lqa Lia.
From stdpp Require Import base tactics option numbers list.

Close Scope Q_scope.
Local Open Scope Z_scope.

(** ** Exceptions and outcomes *)

Inductive exn : Set := IndexError | ValueError.

Inductive outcome (A : Type) : Type :=
| Done (a : A)
| Raised (e : exn)
| OutOfFuel.
Arguments Done {A} a.
Arguments Raised {A} e.
Arguments OutOfFuel {A}.

#[global] Instance outcome_ret : MRet outcome := fun _ a => Done a.
#[global] Instance outcome_bind : MBind outcome := fun _ _ f c =>
  match c with
  | Done a => f a
  | Raised e => Raised e
  | OutOfFuel => OutOfFuel
  end.

(** ** Python indexing *)

Abbreviation cell := (Z * Z)%type.
Abbreviation grid := (list (list Z)).

Definition WALL : Z := 1.
Definition PATH : Z := 0.

(** [seq[i]] position: in range, wrapped once when negative, or IndexError. *)
Definition py_index (len : nat) (i : Z) : outcome nat :=
  if (0 <=? i) && (i <? Z.of_nat len) then Done (Z.to_nat i)
  else if (- Z.of_nat len <=? i) && (i <? 0) then Done (Z.to_nat (i + Z.of_nat len))
  else Raised IndexError.

Definition getitem {A : Type} (l : list A) (i : Z) : outcome A :=
  k ← py_index (length l) i;
  match l !! k with
  | Some a => Done a
  | None => Raised IndexError
  end.

(** [g[i][j]] and numpy's [g[i, j]] read. *)
Definition getitem2 (g : grid) (i j : Z) : outcome Z :=
  row ← getitem g i; getitem row j.

(** numpy's [g[i, j] = v]. *)
Definition setitem2 (g : grid) (i j : Z) (v : Z) : outcome grid :=
  ri ← py_index (length g) i;
  row ← getitem g i;
  cj ← py_index (length row) j;
  Done (<[ri := <[cj := v]> row]> g).

(** [np.ones((n, n), dtype=int)]: negative dimensions raise ValueError. *)
Definition np_ones (n : Z) : outcome grid :=
  if n <? 0 then Raised ValueError
  else Done (replicate (Z.to_nat n) (replicate (Z.to_nat n) WALL)).

(** ** Maze.generate_maze *)

(** State of the carving loop.  [stack] has the top of the Python list
    ([stack[-1]]) at its head.  [draws] counts the calls of
    [random.choice]; [cleared] logs the mid-point cells set to 0 by the
    carve steps, latest first (it is not read by the loop). *)
Record gen_state : Type := mk_gen_state {
  maze : grid;
  stack : list cell;
  draws : nat;
  cleared : list cell
}.

(** The steps [[(0, 2), (0, -2), (2, 0), (-2, 0)]]. *)
Definition directions : list (Z * Z) := [(0, 2); (0, -2); (2, 0); (-2, 0)].

(** [[(x + dx, y + dy) for dx, dy in [(0, 2), (0, -2), (2, 0), (-2, 0)]]] *)
Definition candidates (x y : Z) : list cell :=
  (fun d : Z * Z => (x + fst d, y + snd d)) <$> directions.

(** The filter
    [0 < nx < size - 1 and 0 < ny < size - 1 and maze[nx, ny] == 1];
    the array is read only when the two range tests passed. *)
Fixpoint filter_walls (size : Z) (m : grid) (l : list cell) : outcome (list cell) :=
  match l with
  | [] => Done []
  | (nx, ny) :: l' =>
      keep ← (if (0 <? nx) && (nx <? size - 1) && (0 <? ny) && (ny <? size - 1)
              then v ← getitem2 m nx ny; Done (v =? WALL)
              else Done false);
      rest ← filter_walls size m l';
      Done (if keep : bool then (nx, ny) :: rest else rest)
  end.

(** [random.choice(l)] at the [k]-th call, for a non-empty [l]. *)
Definition choice (rand : nat -> nat) (k : nat) (c0 : cell) (l : list cell) : cell :=
  nth (rand k mod length (c0 :: l))%nat (c0 :: l) c0.

(** One iteration of the [while stack:] body, the stack being
    [top :: rest]. *)
Definition gen_step (size : Z) (rand : nat -> nat) (st : gen_state)
    (top : cell) (rest : list cell) : outcome gen_state :=
  let '(x, y) := top in
  neighbors ← filter_walls size (maze st) (candidates x y);
  match neighbors with
  | c0 :: l =>
      let '(nx, ny) := choice rand (draws st) c0 l in
      let mid := ((x + nx) / 2, (y + ny) / 2) in
      m1 ← setitem2 (maze st) (fst mid) (snd mid) PATH;
      m2 ← setitem2 m1 nx ny PATH;
      Done {| maze := m2; stack := (nx, ny) :: top :: rest;
              draws := S (draws st); cleared := mid :: cleared st |}
  | [] =>
      Done {| maze := maze st; stack := rest;
              draws := draws st; cleared := cleared st |}
  end.

Fixpoint gen_loop (fuel : nat) (size : Z) (rand : nat -> nat) (st : gen_state)
    : outcome gen_state :=
  match stack st with
  | [] => Done st
  | top :: rest =>
      match fuel with
      | O => OutOfFuel
      | S fuel' => st' ← gen_step size rand st top rest; gen_loop fuel' size rand st'
      end
  end.

(** The whole of [generate_maze], with the final loop state. *)
Definition generate_maze_run (fuel : nat) (size : Z) (rand : nat -> nat)
    : outcome gen_state :=
  m0 ← np_ones size;
  m1 ← setitem2 m0 1 1 PATH;
  gen_loop fuel size rand {| maze := m1; stack := [(1, 1)]; draws := 0; cleared := [] |}.

Definition generate_maze (fuel : nat) (size : Z) (rand : nat -> nat) : outcome grid :=
  st ← generate_maze_run fuel size rand; Done (maze st).

(** Fuel that always suffices for a grid of side [size]. *)
Definition gen_fuel (size : Z) : nat := S (S (2 * Z.to_nat (size * size))).

(** ** Maze.find_valid_portal_position *)

(** [range(size - 1, 0, -1)] *)
Definition range_down (size : Z) : list Z := reverse (seqZ 1 (size - 1)).

Fixpoint scan_row (g : grid) (x : Z) (zs : list Z) : outcome (option cell) :=
  match zs with
  | [] => Done None
  | z :: zs' =>
      v ← getitem2 g x z;
      if v =? PATH then Done (Some (x, z)) else scan_row g x zs'
  end.

Fixpoint scan_rows (g : grid) (xs zs : list Z) : outcome (option cell) :=
  match xs with
  | [] => Done None
  | x :: xs' =>
      r ← scan_row g x zs;
      match r with
      | Some c => Done (Some c)
      | None => scan_rows g xs' zs
      end
  end.

(** The two nested [for] loops; [None] is the case where they fall
    through to the final [return (1, 1)]. *)
Definition portal_scan (size : Z) (g : grid) : outcome (option cell) :=
  scan_rows g (range_down size) (range_down size).

Definition find_valid_portal_position (size : Z) (g : grid) : outcome cell :=
  r ← portal_scan size g; Done (default (1, 1) r).

(** ** Maze.__init__ *)

Record Maze : Type := mk_Maze {
  maze_size : Z;
  maze_grid : grid;
  portal_pos : cell
}.

Definition Maze_init (fuel : nat) (size : Z) (rand : nat -> nat) : outcome Maze :=
  g ← generate_maze fuel size rand;
  p ← find_valid_portal_position size g;
  Done {| maze_size := size; maze_grid := g; portal_pos := p |}.

Definition MAZE_SIZE : Z := 14.

(** Sample random stream and a sample run, used in examples. *)
Definition rand0 : nat -> nat := fun _ => 0%nat.
Definition rand1 : nat -> nat := fun k => S k.

(** ** Double-precision arithmetic *)

Definition pow2 (e : Z) : Q := (2 ^ e)%Q.

(** The binary exponent of a positive rational:
    [2 ^ ilog2 q <= q < 2 ^ (ilog2 q + 1)]. *)
Definition ilog2 (q : Q) : Z :=
  let l := Z.log2 (Qnum q) - Z.log2 (Z.pos (Qden q)) in
  if Qle_bool (pow2 l) q then l else l - 1.

(** The integer nearest to [t], the even one of two that are equally near. *)
Definition rne (t : Q) : Z :=
  let f := Qfloor t in
  match (t - inject_Z f ?= 1 # 2)%Q with
  | Lt => f
  | Gt => f + 1
  | Eq => if Z.even f then f else f + 1
  end.

(** The spacing of the doubles around a positive [q]: 53 significant
    bits, and [2^-1074] in the subnormal range. *)
Definition quantum (q : Q) : Q := pow2 (Z.max (ilog2 q) (-1022) - 52).

Definition round_pos (q : Q) : Q := (inject_Z (rne (q / quantum q)) * quantum q)%Q.

(** The double nearest to [q]. *)
Definition round64 (q : Q) : Q :=
  let r := Qred q in
  match (r ?= 0)%Q with
  | Eq => 0%Q
  | Gt => Qred (round_pos r)
  | Lt => Qred (- round_pos (- r))
  end.

Definition fadd (a b : Q) : Q := round64 (a + b).
Definition fsub (a b : Q) : Q := round64 (a - b).
Definition fmul (a b : Q) : Q := round64 (a * b).

(** The integer nearest to the square root of [r], ties to even. *)
Definition rne_sqrt (r : Q) : Z :=
  let k := Z.sqrt (Qfloor r) in
  let h := (inject_Z k + (1 # 2))%Q in
  match (r ?= h * h)%Q with
  | Lt => k
  | Gt => k + 1
  | Eq => if Z.even k then k else k + 1
  end.

(** The spacing of the doubles around the root of a positive [r]. *)
Definition sqrt_quantum (r : Q) : Q := pow2 (ilog2 r / 2 - 52).

(** The double nearest to the square root of [s]; of a negative number
    the root is NaN, which the model does not have. *)
Definition fsqrt (s : Q) : Q :=
  let r := Qred s in
  match (r ?= 0)%Q with
  | Gt => Qred (inject_Z (rne_sqrt (r / (sqrt_quantum r * sqrt_quantum r))) * sqrt_quantum r)
  | _ => 0%Q
  end.

Definition Qlt_bool (a b : Q) : bool := negb (Qle_bool b a).

(** The values of the finite doubles: an integer below [2^53] in
    magnitude times a power of two from [2^-1074] on. *)
Definition is_double (f : Q) : Prop :=
  exists m e : Z, Z.abs m < 2 ^ 53 /\ -1074 <= e /\ (f == inject_Z m * pow2 e)%Q.

(** ** Camera *)

(** [PLAYER_RADIUS = 0.2]: the double nearest to 2/10. *)
Definition PLAYER_RADIUS : Q := round64 (2 # 10).

Record Camera : Type := mk_Camera {
  cam_x : Q;
  cam_y : Q;
  cam_z : Q;
  angle_yaw : Q
}.

(** [Camera.__init__]: the camera starts at (1.5, 0.5, 1.5), yaw 0. *)
Definition Camera_init : Camera :=
  {| cam_x := (15 # 10)%Q; cam_y := (5 # 10)%Q; cam_z := (15 # 10)%Q; angle_yaw := 0%Q |}.

(** [int(q)] of a float: truncation toward zero. *)
Definition py_int (q : Q) : Z := Z.quot (Qnum q) (Z.pos (Qden q)).

(** The nested [for dx ... for dz ...] loop of [can_move], over the
    points [(new_x + dx, new_z + dz)] in the order the loops visit them:
    [False] at the first wall, IndexError where the array raises. *)
Fixpoint corners_clear (g : grid) (pts : list (Q * Q)) : outcome bool :=
  match pts with
  | [] => Done true
  | (check_x, check_z) :: pts' =>
      v ← getitem2 g (py_int check_x) (py_int check_z);
      if v =? WALL then Done false else corners_clear g pts'
  end.

Definition corner_points (radius new_x new_z : Q) : list (Q * Q) :=
  dx ← [(- radius)%Q; radius];
  dz ← [(- radius)%Q; radius];
  [(fadd new_x dx, fadd new_z dz)].

(** The condition of the outer [if] of [can_move],
    [0 <= maze_x < len(grid) and 0 <= maze_z < len(grid[0])
     and grid[maze_x][maze_z] == 0], evaluated left to right. *)
Definition centre_is_path (g : grid) (new_x new_z : Q) : outcome bool :=
  let maze_x := py_int new_x in
  let maze_z := py_int new_z in
  if (0 <=? maze_x) && (maze_x <? Z.of_nat (length g)) then
    row0 ← getitem g 0;
    if (0 <=? maze_z) && (maze_z <? Z.of_nat (length row0)) then
      v ← getitem2 g maze_x maze_z; Done (v =? PATH)
    else Done false
  else Done false.

(** [can_move], the radius being a parameter. *)
Definition can_move_with (radius : Q) (g : grid) (new_x new_z : Q) : outcome bool :=
  centre ← centre_is_path g new_x new_z;
  if centre : bool then corners_clear g (corner_points radius new_x new_z)
  else Done false.

Definition can_move : grid -> Q -> Q -> outcome bool := can_move_with PLAYER_RADIUS.

Definition set_x (c : Camera) (v : Q) : Camera :=
  {| cam_x := v; cam_y := cam_y c; cam_z := cam_z c; angle_yaw := angle_yaw c |}.
Definition set_z (c : Camera) (v : Q) : Camera :=
  {| cam_x := cam_x c; cam_y := cam_y c; cam_z := v; angle_yaw := angle_yaw c |}.

(** [move], the radius being a parameter. *)
Definition move_with (radius : Q) (g : grid) (c : Camera) (dx dz : Q) : outcome Camera :=
  let new_x := fadd (cam_x c) dx in
  let new_z := fadd (cam_z c) dz in
  ok_x ← can_move_with radius g new_x (cam_z c);
  let c1 := if ok_x : bool then set_x c new_x else c in
  ok_z ← can_move_with radius g (cam_x c1) new_z;
  Done (if ok_z : bool then set_z c1 new_z else c1).

Definition move : grid -> Camera -> Q -> Q -> outcome Camera := move_with PLAYER_RADIUS.

Definition rotate (c : Camera) (angle : Q) : Camera :=
  {| cam_x := cam_x c; cam_y := cam_y c; cam_z := cam_z c;
     angle_yaw := fadd (angle_yaw c) angle |}.

(** A finite sequence of [move] calls. *)
Fixpoint moves_with (radius : Q) (g : grid) (c : Camera) (l : list (Q * Q))
    : outcome Camera :=
  match l with
  | [] => Done c
  | (dx, dz) :: l' => c' ← move_with radius g c dx dz; moves_with radius g c' l'
  end.

(** [check_portal_collision]:
    [np.sqrt((x - portal_x) ** 2 + (z - portal_z) ** 2) < 0.5].
    [portal_sum] is the argument of [np.sqrt]. *)
Definition portal_sum (c : Camera) (portal : cell) : Q :=
  let dx := fsub (cam_x c) (inject_Z (fst portal)) in
  let dz := fsub (cam_z c) (inject_Z (snd portal)) in
  fadd (fmul dx dx) (fmul dz dz).

Definition check_portal_collision (c : Camera) (portal : cell) : bool :=
  let distance := fsqrt (portal_sum c portal) in
  Qlt_bool distance (1 # 2).

(** ** The calls the game loop makes on the core *)

Inductive call : Type :=
| CallMove (dx dz : Q)
| CallRotate (angle : Q).

Fixpoint run_calls (g : grid) (c : Camera) (l : list call) : outcome Camera :=
  match l with
  | [] => Done c
  | CallMove dx dz :: l' => c' ← move g c dx dz; run_calls g c' l'
  | CallRotate a :: l' => run_calls g (rotate c a) l'
  end.

(** [Maze(size)], [Camera(maze)], then the calls. *)
Definition simulate (fuel : nat) (size : Z) (rand : nat -> nat) (l : list call)
    : outcome (Maze * Camera) :=
  m ← Maze_init fuel size rand;
  c ← run_calls (maze_grid m) Camera_init l;
  Done (m, c).

(** * Vocabulary of the properties *)

(** ** Cells of a grid *)

(** The value of cell [c], without wrap-around: [None] outside the grid. *)
Definition grid_at (g : grid) (c : cell) : option Z :=
  if (0 <=? fst c) && (0 <=? snd c)
  then row ← g !! Z.to_nat (fst c); row !! Z.to_nat (snd c)
  else None.

Definition is_path (g : grid) (c : cell) : Prop := grid_at g c = Some PATH.
Definition is_wall (g : grid) (c : cell) : Prop := grid_at g c = Some WALL.

Definition square_grid (n : Z) (g : grid) : Prop :=
  Z.of_nat (length g) = n /\ Forall (fun row => Z.of_nat (length row) = n) g.

Definition in_bounds (n : Z) (c : cell) : Prop :=
  0 <= fst c < n /\ 0 <= snd c < n.

(** The open interior: everything but the outer ring. *)
Definition inner (n : Z) (c : cell) : Prop :=
  0 < fst c < n - 1 /\ 0 < snd c < n - 1.

(** The pure form of [g[i, j] = v] for a cell in range. *)
Definition update (g : grid) (c : cell) (v : Z) : grid :=
  alter (fun row => <[Z.to_nat (snd c) := v]> row) (Z.to_nat (fst c)) g.

(** Number of PATH cells of a grid. *)
Definition count_row (row : list Z) : nat :=
  length (filter (fun v => v = PATH) row).
Definition count_path (g : grid) : nat := sum_list (count_row <$> g).

(** 4-adjacency of cells. *)
Definition adj4 (c d : cell) : Prop :=
  Z.abs (fst c - fst d) + Z.abs (snd c - snd d) = 1.

(** [g] is a grid that [generate_maze] returns for [size] and [rand]. *)
Definition generated (size : Z) (rand : nat -> nat) (g : grid) : Prop :=
  exists fuel, generate_maze fuel size rand = Done g.

(** ** Paths and trees in a graph *)

Section Graph.
Context {V : Type}.
Variable adj : V -> V -> Prop.

(** [walk P a b l]: [l] lists the vertices of a walk from [a] to [b]
    that stays inside [P], both ends included. *)
Inductive walk (P : V -> Prop) : V -> V -> list V -> Prop :=
| walk_one a : P a -> walk P a a [a]
| walk_step a b c l : P a -> adj a b -> walk P b c l -> walk P a c (a :: l).

Definition simple_path (P : V -> Prop) (a b : V) (l : list V) : Prop :=
  walk P a b l /\ NoDup l.

Definition connected_from (P : V -> Prop) (r : V) : Prop :=
  forall a, P a -> exists l, walk P r a l.

(** Exactly one simple path between any two vertices of [P]. *)
Definition is_tree (P : V -> Prop) : Prop :=
  forall a b, P a -> P b ->
    exists l, simple_path P a b l /\ forall l', simple_path P a b l' -> l' = l.
End Graph.

(** ** The collision square *)

(** The point [(px, pz)] lies in the square of half-width [radius]
    centred at [(x, z)]. *)
Definition in_square (radius x z px pz : Q) : Prop :=
  (x - radius <= px)%Q /\ (px <= x + radius)%Q /\
  (z - radius <= pz)%Q /\ (pz <= z + radius)%Q.

(** The cell that contains a point. *)
Definition cell_of (px pz : Q) : cell := (Qfloor px, Qfloor pz).

(** The square overlaps only in-bounds PATH cells. *)
Definition wall_free (radius : Q) (g : grid) (x z : Q) : Prop :=
  forall px pz, in_square radius x z px pz -> is_path g (cell_of px pz).

(** The square overlaps a WALL cell. *)
Definition overlaps_wall (radius : Q) (g : grid) (x z : Q) : Prop :=
  exists px pz, in_square radius x z px pz /\ is_wall g (cell_of px pz).

(** The five cells that contain the centre and the four corners of the
    square. *)
Definition probe_cells (radius x z : Q) : list cell :=
  cell_of x z ::
  [cell_of (x - radius) (z - radius); cell_of (x - radius) (z + radius);
   cell_of (x + radius) (z - radius); cell_of (x + radius) (z + radius)]%Q.

(** The five cells [can_move] reads: that of the centre and those of the
    corner coordinates as the float additions give them. *)
Definition read_cells (radius x z : Q) : list cell :=
  (py_int x, py_int z) ::
  ((fun p => (py_int (fst p), py_int (snd p))) <$> corner_points radius x z).

(** A bound on the rounding error of a float addition whose result is
    below [2^32] in magnitude: [2^-20]. *)
Definition rounding_margin : Q := (1 # 1048576)%Q.

(** The position of [c] is that of [c0], or one at which the disc query
    answers [True]. *)
Definition kept_or_tested (radius : Q) (g : grid) (c0 c : Camera) : Prop :=
  (cam_x c = cam_x c0 /\ cam_z c = cam_z c0) \/
  can_move_with radius g (cam_x c) (cam_z c) = Done true.

(** [a] is within [2^-50] of [b]. *)
Definition approx (a b : Q) : Prop :=
  (b - (1 # 1125899906842624) <= a)%Q /\ (a <= b + (1 # 1125899906842624))%Q.

(** ** State of the carving loop *)

Definition oddz (x : Z) : Prop := x mod 2 = 1.
Definition evenz (x : Z) : Prop := x mod 2 = 0.

(** Shape of the PATH cells while carving: rooms sit on odd-odd cells,
    a cleared mid-point joins two rooms that are both PATH. *)
Record carved (size : Z) (g : grid) : Prop := mk_carved {
  carved_square : square_grid size g;
  carved_values : forall c v, grid_at g c = Some v -> v = PATH \/ v = WALL;
  carved_start : is_path g (1, 1);
  carved_inner : forall c, is_path g c -> c = (1, 1) \/ inner size c;
  carved_parity : forall c, is_path g c -> oddz (fst c) \/ oddz (snd c);
  carved_mid_x : forall x y, is_path g (x, y) -> evenz x ->
                   is_path g (x - 1, y) /\ is_path g (x + 1, y);
  carved_mid_y : forall x y, is_path g (x, y) -> evenz y ->
                   is_path g (x, y - 1) /\ is_path g (x, y + 1)
}.

Record gen_inv (size : Z) (st : gen_state) : Prop := mk_gen_inv {
  inv_carved : carved size (maze st);
  inv_stack : Forall (fun c => is_path (maze st) c /\ oddz (fst c) /\ oddz (snd c)) (stack st);
  inv_tree : is_tree adj4 (is_path (maze st));
  inv_count : count_path (maze st) = (2 * length (cleared st) + 1)%nat;
  inv_draws : draws st = length (cleared st)
}.

(** What is left to do: twice the cells that are not PATH, plus the stack. *)
Definition gen_measure (size : Z) (st : gen_state) : nat :=
  (2 * (Z.to_nat (size * size) - count_path (maze st)) + length (stack st))%nat.


(** ** Carve steps *)

(** Effect of a carve step on the array. *)
Definition carve (g : grid) (top nb : cell) : grid :=
  update (update g ((fst top + fst nb) / 2, (snd top + snd nb) / 2) PATH) nb PATH.

(** ** Sample data *)

(** The maze of side 5 obtained when every draw is 0. *)
Definition grid5 : grid :=
  [[1;1;1;1;1]; [1;0;0;0;1]; [1;1;1;0;1]; [1;0;0;0;1]; [1;1;1;1;1]].

(** A grid with cell (2,2) PATH, cell (2,3) WALL and cell (3,2) PATH. *)
Definition slide_grid : grid :=
  [[1;1;1;1;1]; [1;1;1;1;1]; [1;1;0;1;1]; [1;1;0;1;1]; [1;1;1;1;1]].

(** A camera at [(x, z)], at the height and yaw of [Camera.__init__]. *)
Definition camera_at (x z : Q) : Camera :=
  {| cam_x := x; cam_y := (5 # 10)%Q; cam_z := z; angle_yaw := 0%Q |}.

(** The squared planar distance, exact. *)
Definition portal_distance2 (c : Camera) (portal : cell) : Q :=
  ((cam_x c - inject_Z (fst portal)) * (cam_x c - inject_Z (fst portal)) +
   (cam_z c - inject_Z (snd portal)) * (cam_z c - inject_Z (snd portal)))%Q.

(** * Further parts of the program *)

(** ** Maze.draw_textured_cube and Maze.draw *)

(** The OpenGL calls of the drawing functions, in the order they are
    made; a texture is named by its number.  What the calls made before
    an exception leave behind is not kept. *)
Inductive gl_call : Type :=
| glBindTexture (texture : Z)
| glBegin_QUADS
| glEnd
| glTexCoord2fv (t : Z * Z)
| glVertex3fv (v : Z * Z * Z).

Definition cube_vertices (x y z : Z) : list (Z * Z * Z) :=
  let size := 1 in
  [(x, y, z); (x + size, y, z); (x + size, y, z + size); (x, y, z + size);
   (x, y + size, z); (x + size, y + size, z); (x + size, y + size, z + size);
   (x, y + size, z + size)].

Definition cube_faces : list (list Z) :=
  [[0; 1; 2; 3]; [4; 5; 6; 7]; [0; 1; 5; 4];
   [2; 3; 7; 6]; [0; 3; 7; 4]; [1; 2; 6; 5]].

Definition tex_coords : list (Z * Z) := [(0, 0); (1, 0); (1, 1); (0, 1)].

(** [for i, vertex in enumerate(face)], from index [i] on. *)
Fixpoint face_calls (vertices : list (Z * Z * Z)) (i : Z) (face : list Z)
    : outcome (list gl_call) :=
  match face with
  | [] => Done []
  | vertex :: face' =>
      t ← getitem tex_coords (i mod 4);
      v ← getitem vertices vertex;
      rest ← face_calls vertices (i + 1) face';
      Done (glTexCoord2fv t :: glVertex3fv v :: rest)
  end.

Fixpoint faces_calls (vertices : list (Z * Z * Z)) (faces : list (list Z))
    : outcome (list gl_call) :=
  match faces with
  | [] => Done []
  | face :: faces' =>
      calls ← face_calls vertices 0 face;
      rest ← faces_calls vertices faces';
      Done (calls ++ rest)
  end.

Definition draw_textured_cube (x y z : Z) : outcome (list gl_call) :=
  calls ← faces_calls (cube_vertices x y z) cube_faces;
  Done (glBegin_QUADS :: calls ++ [glEnd]).

(** The inner [for y in range(self.size)] of [draw], over the columns
    [ys] still to visit. *)
Fixpoint draw_row (g : grid) (x : Z) (ys : list Z) : outcome (list gl_call) :=
  match ys with
  | [] => Done []
  | y :: ys' =>
      v ← getitem2 g x y;
      cube ← (if v =? WALL then draw_textured_cube x 0 y else Done []);
      rest ← draw_row g x ys';
      Done (cube ++ rest)
  end.

Fixpoint draw_rows (g : grid) (xs ys : list Z) : outcome (list gl_call) :=
  match xs with
  | [] => Done []
  | x :: xs' =>
      row ← draw_row g x ys;
      rest ← draw_rows g xs' ys;
      Done (row ++ rest)
  end.

(** [Maze.draw]; [range(self.size)] is [seqZ 0 size]. *)
Definition draw (size : Z) (g : grid) (wall_texture : Z) : outcome (list gl_call) :=
  calls ← draw_rows g (seqZ 0 size) (seqZ 0 size);
  Done (glBindTexture wall_texture :: calls).

(** ** handle_events *)

(** [MOUSE_SENSITIVITY = 0.12]: the double nearest to 12/100. *)
Definition MOUSE_SENSITIVITY : Q := round64 (12 # 100).

(** An event of the queue: [QUIT], [MOUSEMOTION] with its [rel], or any
    other type. *)
Inductive event : Type :=
| EvQuit
| EvMouseMotion (rel_x rel_y : Z)
| EvOther.

(** [handle_events(camera)] on the events [pygame.event.get()] returned;
    [escape] is [pygame.key.get_pressed()[K_ESCAPE]], which does not
    change while the queue is walked.  The result is the returned flag
    and the camera as the call leaves it. *)
Fixpoint handle_events (escape : bool) (camera : Camera) (events : list event)
    : bool * Camera :=
  match events with
  | [] => (true, camera)
  | ev :: events' =>
      if (match ev with EvQuit => true | _ => false end) || escape
      then (false, camera)
      else
        match ev with
        | EvMouseMotion x y =>
            handle_events escape (rotate camera (fmul (inject_Z x) MOUSE_SENSITIVITY)) events'
        | _ => handle_events escape camera events'
        end
  end.

(** ** The key handling of main *)

(** [PLAYER_SPEED = 0.1]: the double nearest to 1/10. *)
Definition PLAYER_SPEED : Q := round64 (1 # 10).

(** [keys[K_w]], [keys[K_s]], [keys[K_a]], [keys[K_d]]. *)
Record keys : Type := mk_keys {
  K_w : bool;
  K_s : bool;
  K_a : bool;
  K_d : bool
}.

(** The arguments of the [camera.move] calls of one pass through the
    loop of [main], in order.  [cos_yaw] and [sin_yaw] stand for
    [np.cos(np.radians(camera.angle_yaw))] and
    [np.sin(np.radians(camera.angle_yaw))], which no [move] changes. *)
Definition key_moves (k : keys) (cos_yaw sin_yaw : Q) : list (Q * Q) :=
  (if K_w k then [(fmul PLAYER_SPEED cos_yaw, fmul PLAYER_SPEED sin_yaw)] else []) ++
  (if K_s k then [(fmul (- PLAYER_SPEED) cos_yaw, fmul (- PLAYER_SPEED) sin_yaw)] else []) ++
  (if K_a k then [(fmul PLAYER_SPEED sin_yaw, fmul (- PLAYER_SPEED) cos_yaw)] else []) ++
  (if K_d k then [(fmul (- PLAYER_SPEED) sin_yaw, fmul PLAYER_SPEED cos_yaw)] else []).

(** * Vocabulary of the further properties *)

(** The room farthest from the start: the largest odd index below
    [size - 1], on both axes. *)
Definition far_room (size : Z) : cell :=
  let r := if Z.odd size then size - 2 else size - 3 in (r, r).

(** Every PATH room that has left the stack has all its inner
    neighbouring rooms PATH. *)
Definition rooms_closed (size : Z) (st : gen_state) : Prop :=
  forall c, is_path (maze st) c -> oddz (fst c) -> oddz (snd c) ->
    c ∈ stack st \/
    forall d, d ∈ directions -> inner size (fst c + fst d, snd c + snd d) ->
              is_path (maze st) (fst c + fst d, snd c + snd d).

(** [x] lies on the segment between [a] and [b]. *)
Definition between (a b x : Q) : Prop :=
  ((a <= x)%Q /\ (x <= b)%Q) \/ ((b <= x)%Q /\ (x <= a)%Q).

(** All the legs of a list of moves keep the square of half-width
    [safe] on PATH cells: for each move in turn, the x-leg and then the
    z-leg it travels. *)
Fixpoint legs_safe (radius safe : Q) (g : grid) (c : Camera) (l : list (Q * Q)) : Prop :=
  match l with
  | [] => True
  | (dx, dz) :: l' =>
      exists c', move_with radius g c dx dz = Done c' /\
        (forall x, between (cam_x c) (cam_x c') x -> wall_free safe g x (cam_z c)) /\
        (forall z, between (cam_z c) (cam_z c') z -> wall_free safe g (cam_x c') z) /\
        legs_safe radius safe g c' l'
  end.

Definition set_yaw (c : Camera) (a : Q) : Camera :=
  {| cam_x := cam_x c; cam_y := cam_y c; cam_z := cam_z c; angle_yaw := a |}.

(** The moves and the rotations of a list of calls. *)
Definition moves_of (l : list call) : list (Q * Q) :=
  l ≫= fun c => match c with CallMove dx dz => [(dx, dz)] | CallRotate _ => [] end.
Definition angles_of (l : list call) : list Q :=
  l ≫= fun c => match c with CallMove _ _ => [] | CallRotate a => [a] end.

(** The wall cells of a grid in the order [draw] visits them. *)
Definition wall_cells (size : Z) (g : grid) : list cell :=
  x ← seqZ 0 size;
  y ← filter (fun y => grid_at g (x, y) = Some WALL) (seqZ 0 size);
  [(x, y)].

(** The calls of one cube. *)
Definition cube_calls (x y z : Z) : list gl_call :=
  match draw_textured_cube x y z with
  | Done calls => calls
  | _ => []
  end.

(** The vertices of a list of calls, and the quads they form in the
    [GL_QUADS] mode: four consecutive vertices each. *)
Definition call_vertices (calls : list gl_call) : list (Z * Z * Z) :=
  calls ≫= fun c => match c with glVertex3fv v => [v] | _ => [] end.

Fixpoint quads (vs : list (Z * Z * Z)) : list (list (Z * Z * Z)) :=
  match vs with
  | a :: b :: c :: d :: vs' => [a; b; c; d] :: quads vs'
  | _ => []
  end.

(** Two vertices one unit apart along one axis. *)
Definition cube_edge (a b : Z * Z * Z) : Prop :=
  Z.abs (fst (fst a) - fst (fst b)) + Z.abs (snd (fst a) - snd (fst b)) +
  Z.abs (snd a - snd b) = 1.

(** The four vertices of a quad go round a square of unit edges. *)
Definition quad_loop (q : list (Z * Z * Z)) : Prop :=
  match q with
  | [a; b; c; d] => cube_edge a b /\ cube_edge b c /\ cube_edge c d /\ cube_edge d a
  | _ => False
  end.

(** Coordinate number [axis] (0, 1 or 2) of a vertex, and the quads
    that lie in the plane where it has a given value. *)
Definition coordinate (axis : nat) (v : Z * Z * Z) : Z :=
  match axis with
  | O => fst (fst v)
  | S O => snd (fst v)
  | _ => snd v
  end.

Definition quad_in_plane (axis : nat) (value : Z) (q : list (Z * Z * Z)) : Prop :=
  Forall (fun v => coordinate axis v = value) q.

(** The motion events of a queue, with the horizontal amounts. *)
Definition motions_of (events : list event) : list Z :=
  events ≫= fun ev => match ev with EvMouseMotion x _ => [x] | _ => [] end.

(** * Proofs *)

(** ** Tactics *)

Ltac unfold_bind := unfold mbind, outcome_bind, mret, outcome_ret in *.

(** Linear arithmetic with division and remainder by constants. *)
Ltac dlia := Z.to_euclidean_division_equations; lia.

(** Linear arithmetic over the rationals. *)
Ltac qlra := Lqa.lra.

Example generate_5 :
  generate_maze 30 5 rand0 =
  Done [[1;1;1;1;1]; [1;0;0;0;1]; [1;1;1;0;1]; [1;0;0;0;1]; [1;1;1;1;1]].
Proof. reflexivity. Qed.

Example corner_points_order :
  corner_points (1 # 4) 0 0 =
  [((-1 # 4)%Q, (-1 # 4)%Q); ((-1 # 4)%Q, (1 # 4)%Q);
   ((1 # 4)%Q, (-1 # 4)%Q); ((1 # 4)%Q, (1 # 4)%Q)].
Proof. vm_compute. reflexivity. Qed.

(** ** Trees grow by leaves *)

Section GraphFacts.
Context {V : Type}.
Variable adj : V -> V -> Prop.
Hypothesis adj_sym : forall a b, adj a b -> adj b a.
Hypothesis V_dec : forall a b : V, {a = b} + {a <> b}.

Lemma walk_head P a b l : walk adj P a b l -> exists l', l = a :: l'.
Proof. destruct 1; eauto. Qed.

Lemma walk_in_first P a b l : walk adj P a b l -> In a l.
Proof. destruct 1; simpl; auto. Qed.

Lemma walk_in_last P a b l : walk adj P a b l -> In b l.
Proof. induction 1; simpl; auto. Qed.

Lemma walk_inside P a b l : walk adj P a b l -> forall c, In c l -> P c.
Proof.
  induction 1; simpl; intros d Hd.
  - destruct Hd as [<- | []]; assumption.
  - destruct Hd as [<- | Hd]; auto.
Qed.

Lemma walk_weaken (P Q : V -> Prop) a b l :
  (forall c, In c l -> P c -> Q c) -> walk adj P a b l -> walk adj Q a b l.
Proof.
  intros HPQ Hw. induction Hw.
  - constructor. apply HPQ; simpl; auto.
  - econstructor; eauto.
    + apply HPQ; simpl; auto.
    + apply IHHw. intros d Hd. apply HPQ. simpl; auto.
Qed.

Lemma walk_snoc P a b c l :
  walk adj P a b l -> adj b c -> P c -> walk adj P a c (l ++ [c]).
Proof.
  induction 1; intros Hbc Hc; simpl.
  - econstructor; eauto. constructor; assumption.
  - econstructor; eauto.
Qed.

Lemma walk_rev P a b l : walk adj P a b l -> walk adj P b a (rev l).
Proof.
  induction 1; simpl.
  - constructor; assumption.
  - destruct (walk_head _ _ _ _ H1) as [l' ->].
    eapply walk_snoc; eauto.
Qed.

Lemma simple_path_rev P a b l :
  simple_path adj P a b l -> simple_path adj P b a (rev l).
Proof.
  intros [Hw Hn]. split; [apply walk_rev; assumption|].
  apply NoDup_ListNoDup. apply List.NoDup_rev. apply NoDup_ListNoDup. assumption.
Qed.

(** A simple path from a vertex to itself is the one-vertex path. *)
Lemma simple_path_loop P a l : simple_path adj P a a l -> l = [a].
Proof.
  intros [Hw Hn]. inversion Hw; subst; [reflexivity|].
  exfalso. apply NoDup_cons in Hn as [Hn _]. apply Hn.
  apply list_elem_of_In. eapply walk_in_last; eauto.
Qed.

Lemma is_tree_ext (P Q : V -> Prop) :
  (forall c, P c <-> Q c) -> is_tree adj P -> is_tree adj Q.
Proof.
  intros HPQ HT a b Ha Hb.
  destruct (HT a b) as (l & [Hw Hn] & Hu); [apply HPQ; auto ..|].
  exists l. split.
  - split; [|assumption]. eapply walk_weaken; [|exact Hw]. intros; apply HPQ; auto.
  - intros l' [Hw' Hn']. apply Hu. split; [|assumption].
    eapply walk_weaken; [|exact Hw']. intros; apply HPQ; auto.
Qed.

Lemma is_tree_single (P : V -> Prop) r :
  P r -> (forall c, P c -> c = r) -> is_tree adj P.
Proof.
  intros Hr Hone a b Ha Hb.
  rewrite (Hone a Ha), (Hone b Hb).
  exists [r]. split.
  - split; [constructor; assumption | apply NoDup_singleton].
  - intros l'. apply simple_path_loop.
Qed.

Lemma is_tree_connected (P : V -> Prop) r :
  P r -> is_tree adj P -> connected_from adj P r.
Proof.
  intros Hr HT a Ha. destruct (HT r a Hr Ha) as (l & [Hw _] & _). eauto.
Qed.

Section Leaf.
Variable P : V -> Prop.
Variables v u : V.
Hypothesis v_fresh : ~ P v.
Hypothesis u_old : P u.
Hypothesis v_u : adj v u.
Hypothesis v_only : forall w, P w -> adj v w -> w = u.

Let P' : V -> Prop := fun c => P c \/ c = v.

(** The new leaf cannot sit strictly inside a simple path. *)
Lemma leaf_not_inside a b l :
  walk adj P' a b l -> NoDup l -> a <> v -> b <> v -> ~ In v l.
Proof.
  induction 1 as [a Ha | a b c l Ha Hab Hw IH]; intros Hn Hav Hbv Hin.
  - destruct Hin as [<- | []]. congruence.
  - apply NoDup_cons in Hn as [Hna Hn].
    destruct Hin as [<- | Hin]; [congruence|].
    destruct (V_dec b v) as [-> | Hne]; [|exact (IH Hn Hne Hbv Hin)].
    inversion Hw as [? ? | ? b' ? l2 Hv Hvb' Hw2]; subst; [congruence|].
    apply NoDup_cons in Hn as [Hnv Hn2].
    assert (Ha' : a = u).
    { apply v_only; [|apply adj_sym; assumption].
      destruct Ha as [Ha | Ha]; [assumption | congruence]. }
    assert (Hb' : b' = u).
    { apply v_only; [|assumption].
      assert (Hb'in : In b' l2) by (eapply walk_in_first; eauto).
      destruct (walk_inside _ _ _ _ Hw2 b' Hb'in) as [Hp | ->]; [assumption|].
      exfalso. apply Hnv. apply list_elem_of_In. assumption. }
    subst. apply Hna. apply list_elem_of_In. right.
    eapply walk_in_first; eauto.
Qed.

Lemma walk_without_leaf a b l :
  walk adj P' a b l -> ~ In v l -> walk adj P a b l.
Proof.
  intros Hw Hin. eapply walk_weaken; [|exact Hw].
  intros c Hc [Hp | ->]; [assumption | contradiction].
Qed.

Lemma walk_with_leaf a b l : walk adj P a b l -> walk adj P' a b l.
Proof. apply walk_weaken. intros; left; assumption. Qed.

(** Paths that start at the leaf. *)
Lemma leaf_paths_from b :
  P' b -> is_tree adj P ->
  exists l, simple_path adj P' v b l /\
            forall l', simple_path adj P' v b l' -> l' = l.
Proof.
  intros Hb HT. destruct (V_dec b v) as [-> | Hbv].
  - exists [v]. split.
    + split; [constructor; right; reflexivity | apply NoDup_singleton].
    + intros l'. apply simple_path_loop.
  - assert (HPb : P b) by (destruct Hb; [assumption | congruence]).
    destruct (HT u b u_old HPb) as (q & [Hwq Hnq] & Huq).
    exists (v :: q). split.
    + split.
      * econstructor; [right; reflexivity | exact v_u | apply walk_with_leaf; assumption].
      * apply NoDup_cons. split; [|assumption].
        intros Hin. apply v_fresh. eapply walk_inside; eauto.
        apply list_elem_of_In. assumption.
    + intros l' [Hw' Hn'].
      inversion Hw' as [? ? | ? b' ? q' Hv Hvb' Hw2]; subst; [congruence|].
      apply NoDup_cons in Hn' as [Hnv Hn2].
      assert (Hnv' : ~ In v q') by (rewrite <- list_elem_of_In; assumption).
      pose proof (walk_without_leaf _ _ _ Hw2 Hnv') as Hw3.
      assert (Hb' : b' = u).
      { apply v_only; [|assumption].
        eapply walk_inside; [exact Hw3|]. eapply walk_in_first; eauto. }
      subst b'. f_equal. apply Huq. split; assumption.
Qed.

(** Adding a leaf to a tree gives a tree. *)
Lemma is_tree_leaf : is_tree adj P -> is_tree adj P'.
Proof.
  intros HT a b Ha Hb.
  destruct (V_dec a v) as [-> | Hav]; [apply leaf_paths_from; assumption|].
  destruct (V_dec b v) as [-> | Hbv].
  - destruct (leaf_paths_from a Ha HT) as (l & Hl & Hu).
    exists (rev l). split; [apply simple_path_rev; assumption|].
    intros l' Hl'. apply simple_path_rev in Hl'. apply Hu in Hl'.
    rewrite <- Hl'. symmetry. apply rev_involutive.
  - assert (HPa : P a) by (destruct Ha; [assumption | congruence]).
    assert (HPb : P b) by (destruct Hb; [assumption | congruence]).
    destruct (HT a b HPa HPb) as (l & [Hw Hn] & Hu).
    exists l. split.
    + split; [apply walk_with_leaf; assumption | assumption].
    + intros l' [Hw' Hn']. apply Hu. split; [|assumption].
      apply walk_without_leaf; [assumption|].
      eapply leaf_not_inside; eauto.
Qed.
End Leaf.
End GraphFacts.

(** ** Indexing *)

Lemma py_index_range len i :
  0 <= i < Z.of_nat len -> py_index len i = Done (Z.to_nat i).
Proof.
  intros H. unfold py_index.
  destruct (Z.leb_spec 0 i); [|lia]. destruct (Z.ltb_spec i (Z.of_nat len)); [|lia].
  reflexivity.
Qed.

Lemma getitem_lookup {A} (l : list A) i a :
  0 <= i -> l !! Z.to_nat i = Some a -> getitem l i = Done a.
Proof.
  intros Hi Hl. unfold getitem.
  rewrite py_index_range by (apply lookup_lt_Some in Hl; lia).
  unfold_bind. rewrite Hl. reflexivity.
Qed.

Lemma grid_at_Some g c v :
  grid_at g c = Some v <->
  0 <= fst c /\ 0 <= snd c /\
  exists row, g !! Z.to_nat (fst c) = Some row /\ row !! Z.to_nat (snd c) = Some v.
Proof.
  unfold grid_at.
  destruct (Z.leb_spec 0 (fst c)), (Z.leb_spec 0 (snd c)); simpl;
    try (split; [discriminate | lia]).
  split.
  - intros Hg. split; [assumption|]. split; [assumption|].
    destruct (g !! Z.to_nat (fst c)) as [row|]; simpl in Hg; [eauto | discriminate].
  - intros (_ & _ & row & -> & Hr). exact Hr.
Qed.

Lemma getitem2_grid_at g c v :
  grid_at g c = Some v -> getitem2 g (fst c) (snd c) = Done v.
Proof.
  intros (H1 & H2 & row & Hrow & Hv)%grid_at_Some. unfold getitem2.
  rewrite (getitem_lookup g (fst c) row) by assumption.
  unfold_bind. apply getitem_lookup; assumption.
Qed.

Lemma square_grid_row n g i row :
  square_grid n g -> g !! i = Some row -> Z.of_nat (length row) = n.
Proof.
  intros [_ Hrows] Hi. rewrite Forall_lookup in Hrows. exact (Hrows i row Hi).
Qed.

Lemma grid_at_in_bounds n g c :
  square_grid n g -> in_bounds n c -> exists v, grid_at g c = Some v.
Proof.
  intros Hsq [Hx Hy].
  destruct (lookup_lt_is_Some_2 g (Z.to_nat (fst c))) as [row Hrow];
    [destruct Hsq; lia|].
  pose proof (square_grid_row _ _ _ _ Hsq Hrow) as Hlen.
  destruct (lookup_lt_is_Some_2 row (Z.to_nat (snd c))) as [v Hv]; [lia|].
  exists v. apply grid_at_Some. split; [lia|]. split; [lia|]. eauto.
Qed.

Lemma grid_at_bounds n g c v :
  square_grid n g -> grid_at g c = Some v -> in_bounds n c.
Proof.
  intros Hsq (H1 & H2 & row & Hrow & Hv)%grid_at_Some.
  pose proof (square_grid_row _ _ _ _ Hsq Hrow) as Hlen.
  apply lookup_lt_Some in Hrow, Hv. destruct Hsq as [Hlg _].
  unfold in_bounds. lia.
Qed.

Lemma setitem2_update n g c v :
  square_grid n g -> in_bounds n c ->
  setitem2 g (fst c) (snd c) v = Done (update g c v).
Proof.
  intros Hsq Hc. pose proof Hc as [Hx Hy].
  destruct (grid_at_in_bounds _ _ _ Hsq Hc) as [w Hw].
  apply grid_at_Some in Hw as (_ & _ & row & Hrow & Hw).
  pose proof (square_grid_row _ _ _ _ Hsq Hrow) as Hlen.
  unfold setitem2. rewrite py_index_range by (destruct Hsq; lia).
  unfold_bind. rewrite (getitem_lookup g (fst c) row) by (assumption || lia).
  rewrite py_index_range by lia. unfold update.
  f_equal. apply list_eq. intros k.
  destruct (decide (k = Z.to_nat (fst c))) as [-> | Hk].
  - rewrite list_lookup_insert_eq by (apply lookup_lt_Some in Hrow; assumption).
    rewrite list_lookup_alter_eq, Hrow. reflexivity.
  - rewrite list_lookup_insert_ne by congruence.
    rewrite list_lookup_alter_ne by congruence. reflexivity.
Qed.

Lemma square_grid_update n g c v :
  square_grid n g -> square_grid n (update g c v).
Proof.
  intros [Hl Hrows]. unfold update. split.
  - rewrite length_alter. assumption.
  - apply Forall_alter; [assumption|]. intros row _ Hr.
    rewrite length_insert. assumption.
Qed.

Lemma grid_at_update n g c v d :
  square_grid n g -> in_bounds n c ->
  grid_at (update g c v) d = if decide (d = c) then Some v else grid_at g d.
Proof.
  intros Hsq Hc. pose proof Hc as [Hx Hy].
  destruct (grid_at_in_bounds _ _ _ Hsq Hc) as [w Hw].
  apply grid_at_Some in Hw as (_ & _ & row & Hrow & Hw).
  pose proof (square_grid_row _ _ _ _ Hsq Hrow) as Hlen.
  destruct c as [cx cy], d as [dx dy]; simpl in *.
  unfold grid_at, update; simpl.
  destruct (Z.leb_spec 0 dx), (Z.leb_spec 0 dy); simpl;
    try (case_decide; [exfalso; simplify_eq; lia | reflexivity]).
  destruct (decide (Z.to_nat dx = Z.to_nat cx)) as [Hex | Hnx].
  - rewrite Hex, list_lookup_alter_eq, Hrow. simpl.
    destruct (decide (Z.to_nat dy = Z.to_nat cy)) as [Hey | Hny].
    + rewrite Hey, list_lookup_insert_eq by lia.
      rewrite decide_True; [reflexivity|]. f_equal; lia.
    + rewrite list_lookup_insert_ne by congruence.
      rewrite decide_False; [reflexivity|]. intros [= -> ->]. congruence.
  - rewrite list_lookup_alter_ne by congruence.
    rewrite decide_False; [reflexivity|]. intros [= -> ->]. congruence.
Qed.

(** ** Counting PATH cells *)

Lemma count_row_le row : (count_row row <= length row)%nat.
Proof. unfold count_row. apply length_filter. Qed.

Lemma count_row_insert row j :
  row !! j = Some WALL -> count_row (<[j := PATH]> row) = S (count_row row).
Proof.
  unfold count_row. revert j. induction row as [|a row IH]; intros [|j] Hj;
    simpl in *; try discriminate.
  - injection Hj as ->. rewrite !filter_cons.
    repeat case_decide; simpl; first [reflexivity | unfold WALL, PATH in *; lia].
  - specialize (IH j Hj). rewrite !filter_cons.
    destruct (decide (a = PATH)); simpl; rewrite IH; reflexivity.
Qed.

Lemma count_path_update g c :
  is_wall g c -> count_path (update g c PATH) = S (count_path g).
Proof.
  intros (_ & _ & row & Hrow & Hv)%grid_at_Some. unfold count_path, update.
  generalize dependent (Z.to_nat (fst c)). intros i. revert i.
  induction g as [|r g IH]; intros [|i] Hi; simpl in *; try discriminate.
  - injection Hi as ->. rewrite (count_row_insert _ _ Hv). reflexivity.
  - specialize (IH i Hi). unfold alter, fmap in IH. rewrite IH. lia.
Qed.

Lemma count_path_le n g :
  square_grid n g -> (count_path g <= Z.to_nat (n * n))%nat.
Proof.
  intros [Hl Hrows]. unfold count_path.
  assert (H : (sum_list (count_row <$> g) <= length g * Z.to_nat n)%nat).
  { clear Hl. induction Hrows as [|r g Hr _ IH]; [simpl; lia|].
    rewrite fmap_cons. pose proof (count_row_le r).
    change (sum_list (count_row r :: (count_row <$> g)))
      with (count_row r + sum_list (count_row <$> g))%nat.
    change (length (r :: g)) with (S (length g)). nia. }
  rewrite Z2Nat.inj_mul by lia. nia.
Qed.

(** ** One iteration of the carving loop *)

Lemma elem_of_candidates x y c :
  c ∈ candidates x y <-> exists d, d ∈ directions /\ c = (x + fst d, y + snd d).
Proof.
  unfold candidates. rewrite list_elem_of_fmap. split.
  - intros (d & -> & Hd). eauto.
  - intros (d & Hd & ->). eauto.
Qed.

Lemma inner_in_bounds n c : inner n c -> in_bounds n c.
Proof. unfold inner, in_bounds. lia. Qed.

Lemma filter_walls_spec size g l :
  square_grid size g ->
  exists l', filter_walls size g l = Done l' /\
             forall c, c ∈ l' <-> c ∈ l /\ inner size c /\ is_wall g c.
Proof.
  intros Hsq. induction l as [|[nx ny] l (l' & IH & Hl')].
  - exists []. split; [reflexivity|]. intros c. rewrite elem_of_nil. tauto.
  - simpl.
    destruct (Z.ltb_spec 0 nx), (Z.ltb_spec nx (size - 1)),
      (Z.ltb_spec 0 ny), (Z.ltb_spec ny (size - 1)); simpl;
      try (rewrite IH; unfold_bind; exists l'; split; [reflexivity|];
           intros c; rewrite elem_of_cons, Hl'; unfold inner;
           split; [tauto | intros [[-> | ?] ?]; simpl in *; [lia | tauto]]).
    destruct (grid_at_in_bounds size g (nx, ny) Hsq) as [v Hv];
      [unfold in_bounds; simpl; lia|].
    pose proof (getitem2_grid_at g (nx, ny) v Hv) as Hget. simpl in Hget.
    rewrite Hget, IH. unfold_bind.
    destruct (Z.eqb_spec v WALL) as [-> | Hne].
    + exists ((nx, ny) :: l'). split; [reflexivity|].
      intros c. rewrite !elem_of_cons, Hl'. unfold inner.
      split; [intros [-> | ?]; simpl; [|tauto] | tauto].
      split; [auto|]. split; [lia | exact Hv].
    + exists l'. split; [reflexivity|].
      intros c. rewrite elem_of_cons, Hl'.
      split; [tauto | intros [[-> | ?] (? & Hw)]; [|tauto]].
      unfold is_wall in Hw. congruence.
Qed.

Lemma choice_elem rand k c0 l : choice rand k c0 l ∈ c0 :: l.
Proof.
  unfold choice. apply list_elem_of_In. apply nth_In.
  apply Nat.mod_upper_bound. simpl. lia.
Qed.

Lemma gen_step_spec size rand st top rest :
  square_grid size (maze st) ->
  exists st', gen_step size rand st top rest = Done st' /\
    ((maze st' = maze st /\ stack st' = rest /\
      draws st' = draws st /\ cleared st' = cleared st) \/
     (exists d nb, d ∈ directions /\
        nb = (fst top + fst d, snd top + snd d) /\
        inner size nb /\ is_wall (maze st) nb /\
        maze st' = carve (maze st) top nb /\
        stack st' = nb :: top :: rest /\
        draws st' = S (draws st) /\
        cleared st' = ((fst top + fst nb) / 2, (snd top + snd nb) / 2) :: cleared st)).
Proof.
  intros Hsq. destruct top as [x y]. unfold gen_step.
  destruct (filter_walls_spec size (maze st) (candidates x y) Hsq) as (nbs & -> & Hnbs).
  unfold_bind. destruct nbs as [|c0 l].
  - eexists. split; [reflexivity|]. left. simpl. auto.
  - pose proof (choice_elem rand (draws st) c0 l) as Hch.
    apply Hnbs in Hch as (Hcand & Hinner & Hwall).
    apply elem_of_candidates in Hcand as (d & Hd & Heq).
    destruct (choice rand (draws st) c0 l) as [nx ny]. injection Heq as -> ->.
    assert (Hmid : in_bounds size ((x + (x + fst d)) / 2, (y + (y + snd d)) / 2)).
    { unfold directions in Hd. unfold inner, in_bounds in *. simpl in *.
      repeat (apply elem_of_cons in Hd as [-> | Hd]); simpl in *;
        [dlia .. | apply elem_of_nil in Hd; contradiction]. }
    pose proof (setitem2_update size (maze st) (_, _) PATH Hsq Hmid) as E1.
    pose proof (square_grid_update size _ ((x + (x + fst d)) / 2, (y + (y + snd d)) / 2)
                  PATH Hsq) as Hsq1.
    pose proof (setitem2_update size _ (x + fst d, y + snd d) PATH Hsq1
                  (inner_in_bounds _ _ Hinner)) as E2.
    cbn [fst snd] in *. rewrite E1, E2.
    eexists. split; [reflexivity|]. right. exists d, (x + fst d, y + snd d).
    simpl. auto 10.
Qed.

(** ** A carve step keeps the shape, the tree and the count *)

Lemma is_wall_not_path g c : is_wall g c -> ~ is_path g c.
Proof. unfold is_wall, is_path, WALL, PATH. intros -> [=]. Qed.

(** A PATH cell next to a room lies on a cleared mid-point of that room,
    so the room is PATH as well. *)
Lemma room_next_to_path size g w n :
  carved size g -> is_path g w -> adj4 w n ->
  oddz (fst n) -> oddz (snd n) -> is_path g n.
Proof.
  intros Hg Hw Hadj Hn1 Hn2. destruct w as [w1 w2], n as [n1 n2].
  unfold adj4, oddz in *. simpl in *.
  assert (Hc : (w1 = n1 + 1 /\ w2 = n2) \/ (w1 = n1 - 1 /\ w2 = n2) \/
               (w1 = n1 /\ w2 = n2 + 1) \/ (w1 = n1 /\ w2 = n2 - 1)) by lia.
  destruct Hc as [[-> ->] | [[-> ->] | [[-> ->] | [-> ->]]]].
  - destruct (carved_mid_x _ _ Hg _ _ Hw) as [H _]; [unfold evenz; dlia|].
    replace (n1 + 1 - 1) with n1 in H by lia. exact H.
  - destruct (carved_mid_x _ _ Hg _ _ Hw) as [_ H]; [unfold evenz; dlia|].
    replace (n1 - 1 + 1) with n1 in H by lia. exact H.
  - destruct (carved_mid_y _ _ Hg _ _ Hw) as [H _]; [unfold evenz; dlia|].
    replace (n2 + 1 - 1) with n2 in H by lia. exact H.
  - destruct (carved_mid_y _ _ Hg _ _ Hw) as [_ H]; [unfold evenz; dlia|].
    replace (n2 - 1 + 1) with n2 in H by lia. exact H.
Qed.

Lemma adj4_sym a b : adj4 a b -> adj4 b a.
Proof. unfold adj4. lia. Qed.

Lemma cell_eq_dec (a b : cell) : {a = b} + {a <> b}.
Proof. apply (decide (a = b)). Qed.

Section CarveStep.
Variables (size : Z) (g : grid) (tx ty : Z) (mid nb : cell).
Hypothesis Hg : carved size g.
Hypothesis Htop : is_path g (tx, ty).
Hypothesis Hox : oddz tx.
Hypothesis Hoy : oddz ty.
Hypothesis Hgeom :
  (mid = (tx, ty + 1) /\ nb = (tx, ty + 2)) \/
  (mid = (tx, ty - 1) /\ nb = (tx, ty - 2)) \/
  (mid = (tx + 1, ty) /\ nb = (tx + 2, ty)) \/
  (mid = (tx - 1, ty) /\ nb = (tx - 2, ty)).
Hypothesis Hnb_inner : inner size nb.
Hypothesis Hnb_wall : is_wall g nb.

Let g2 : grid := update (update g mid PATH) nb PATH.

Lemma carve_nb_odd : oddz (fst nb) /\ oddz (snd nb).
Proof.
  unfold oddz in *.
  destruct Hgeom as [[_ ->] | [[_ ->] | [[_ ->] | [_ ->]]]]; simpl; split; dlia.
Qed.

Lemma carve_mid_adj : adj4 mid (tx, ty) /\ adj4 nb mid /\ mid <> nb.
Proof.
  unfold adj4.
  destruct Hgeom as [[-> ->] | [[-> ->] | [[-> ->] | [-> ->]]]]; simpl;
    (split; [lia|]; split; [lia|]; intros [=]; lia).
Qed.

Lemma carve_top_inner : inner size (tx, ty).
Proof.
  destruct (carved_inner _ _ Hg _ Htop) as [[= -> ->] | H]; [|exact H].
  unfold inner in *.
  destruct Hgeom as [[_ ->] | [[_ ->] | [[_ ->] | [_ ->]]]]; simpl in *; lia.
Qed.

Lemma carve_mid_inner : inner size mid.
Proof.
  pose proof carve_top_inner as Ht. unfold inner in *.
  destruct Hgeom as [[-> ->] | [[-> ->] | [[-> ->] | [-> ->]]]]; simpl in *; lia.
Qed.

Lemma carve_mid_wall : is_wall g mid.
Proof.
  destruct (grid_at_in_bounds size g mid) as [v Hv];
    [apply Hg | apply inner_in_bounds, carve_mid_inner|].
  destruct (carved_values _ _ Hg _ _ Hv) as [-> | ->]; [|exact Hv].
  exfalso. apply (is_wall_not_path _ _ Hnb_wall).
  destruct carve_nb_odd. destruct carve_mid_adj as (_ & Hadj & _).
  apply (room_next_to_path size g mid nb); auto.
  unfold adj4 in *. lia.
Qed.

Lemma grid_at_carve c :
  grid_at g2 c =
  if decide (c = nb) then Some PATH
  else if decide (c = mid) then Some PATH else grid_at g c.
Proof.
  unfold g2.
  rewrite (grid_at_update size) by
    (first [apply square_grid_update, Hg | apply inner_in_bounds, Hnb_inner]).
  case_decide; [reflexivity|].
  apply (grid_at_update size); [apply Hg | apply inner_in_bounds, carve_mid_inner].
Qed.

Lemma path_carve c : is_path g2 c <-> is_path g c \/ c = mid \/ c = nb.
Proof.
  unfold is_path at 1. rewrite grid_at_carve.
  pose proof (is_wall_not_path _ _ Hnb_wall).
  pose proof (is_wall_not_path _ _ carve_mid_wall).
  repeat case_decide; subst; unfold is_path in *; intuition congruence.
Qed.

Lemma carved_carve : carved size g2.
Proof.
  pose proof carve_mid_inner as Hmi. pose proof carve_nb_odd as [Hn1 Hn2].
  split.
  - unfold g2. do 2 apply square_grid_update. apply Hg.
  - intros c v. rewrite grid_at_carve.
    repeat case_decide; [intros [= <-]; auto .. | apply Hg].
  - apply path_carve. left. apply Hg.
  - intros c [Hc | [-> | ->]]%path_carve; [apply Hg; exact Hc | auto ..].
  - intros c [Hc | [-> | ->]]%path_carve; [apply Hg; exact Hc | | auto].
    unfold oddz in *.
    destruct Hgeom as [[-> _] | [[-> _] | [[-> _] | [-> _]]]]; simpl; auto.
  - intros x y [Hc | [Hc | Hc]]%path_carve Hev.
    + destruct (carved_mid_x _ _ Hg x y Hc Hev).
      split; apply path_carve; auto.
    + unfold evenz, oddz in *.
      destruct Hgeom as [[Hm Hn] | [[Hm Hn] | [[Hm Hn] | [Hm Hn]]]];
        rewrite Hm in Hc; injection Hc as -> ->; try (exfalso; dlia);
        split; apply path_carve.
      * left. replace (tx + 1 - 1) with tx by lia. exact Htop.
      * right; right. rewrite Hn. f_equal; lia.
      * right; right. rewrite Hn. f_equal; lia.
      * left. replace (tx - 1 + 1) with tx by lia. exact Htop.
    + exfalso. rewrite <- Hc in Hn1. unfold evenz, oddz in *. simpl in *. dlia.
  - intros x y [Hc | [Hc | Hc]]%path_carve Hev.
    + destruct (carved_mid_y _ _ Hg x y Hc Hev).
      split; apply path_carve; auto.
    + unfold evenz, oddz in *.
      destruct Hgeom as [[Hm Hn] | [[Hm Hn] | [[Hm Hn] | [Hm Hn]]]];
        rewrite Hm in Hc; injection Hc as -> ->; try (exfalso; dlia);
        split; apply path_carve.
      * left. replace (ty + 1 - 1) with ty by lia. exact Htop.
      * right; right. rewrite Hn. f_equal; lia.
      * right; right. rewrite Hn. f_equal; lia.
      * left. replace (ty - 1 + 1) with ty by lia. exact Htop.
    + exfalso. rewrite <- Hc in Hn2. unfold evenz, oddz in *. simpl in *. dlia.
Qed.

Lemma count_carve : count_path g2 = S (S (count_path g)).
Proof.
  unfold g2. rewrite count_path_update.
  - rewrite (count_path_update g mid carve_mid_wall). reflexivity.
  - unfold is_wall.
    rewrite (grid_at_update size) by
      (first [apply Hg | apply inner_in_bounds, carve_mid_inner]).
    destruct carve_mid_adj as (_ & _ & Hne).
    rewrite decide_False by congruence. exact Hnb_wall.
Qed.
Lemma tree_carve : is_tree adj4 (is_path g) -> is_tree adj4 (is_path g2).
Proof.
  intros HT.
  pose proof (is_wall_not_path _ _ Hnb_wall) as Hnbp.
  pose proof (is_wall_not_path _ _ carve_mid_wall) as Hmidp.
  destruct carve_mid_adj as (Hmt & Hnm & Hne).
  destruct carve_nb_odd as [Hn1 Hn2].
  apply (is_tree_ext adj4 (fun c => (is_path g c \/ c = mid) \/ c = nb));
    [intros c; rewrite path_carve; tauto|].
  apply (is_tree_leaf adj4 adj4_sym cell_eq_dec) with (u := mid).
  - intros [H | H]; [contradiction | congruence].
  - right; reflexivity.
  - exact Hnm.
  - intros w [Hw | Hw] Hadj; [|exact Hw].
    exfalso. apply Hnbp.
    apply (room_next_to_path size g w nb); auto using adj4_sym.
  - apply (is_tree_leaf adj4 adj4_sym cell_eq_dec) with (u := (tx, ty)); auto.
    intros [w1 w2] Hw Hadj.
    pose proof (carved_parity _ _ Hg _ Hw) as Hpar.
    assert (Hnn : ~ (w1 = fst nb /\ w2 = snd nb)).
    { intros [-> ->]. apply Hnbp. destruct nb; exact Hw. }
    unfold adj4, oddz in *.
    destruct Hgeom as [[Hm Hn] | [[Hm Hn] | [[Hm Hn] | [Hm Hn]]]];
      rewrite Hm in Hadj; rewrite Hn in Hnn; simpl in *; f_equal; dlia.
Qed.
End CarveStep.

(** ** The loop invariant *)

Lemma square_grid_ones n :
  0 <= n -> square_grid n (replicate (Z.to_nat n) (replicate (Z.to_nat n) WALL)).
Proof.
  intros Hn. split.
  - rewrite length_replicate. lia.
  - apply Forall_replicate. rewrite length_replicate. lia.
Qed.

Lemma grid_at_ones n m c v :
  grid_at (replicate n (replicate m WALL)) c = Some v -> v = WALL.
Proof.
  intros (_ & _ & row & Hrow & Hv)%grid_at_Some.
  apply lookup_replicate in Hrow as [-> _].
  apply lookup_replicate in Hv as [-> _]. reflexivity.
Qed.

Lemma count_path_ones n m : count_path (replicate n (replicate m WALL)) = 0%nat.
Proof.
  unfold count_path.
  assert (Hrow : count_row (replicate m WALL) = 0%nat).
  { unfold count_row. induction m as [|m IH]; [reflexivity|]. simpl.
    rewrite filter_cons, decide_False by (unfold WALL, PATH; lia). exact IH. }
  induction n as [|n IH]; [reflexivity|].
  simpl replicate. rewrite fmap_cons.
  change (sum_list (?a :: ?l)) with (a + sum_list l)%nat. rewrite Hrow, IH. reflexivity.
Qed.

Lemma gen_inv_init size :
  2 <= size ->
  exists m0, np_ones size = Done m0 /\
    setitem2 m0 1 1 PATH = Done (update m0 (1, 1) PATH) /\
    gen_inv size {| maze := update m0 (1, 1) PATH; stack := [(1, 1)];
                    draws := 0; cleared := [] |}.
Proof.
  intros Hsize. unfold np_ones.
  destruct (Z.ltb_spec size 0); [lia|].
  set (m0 := replicate (Z.to_nat size) (replicate (Z.to_nat size) WALL)).
  assert (Hsq : square_grid size m0) by (apply square_grid_ones; lia).
  assert (Hin : in_bounds size (1, 1)) by (unfold in_bounds; simpl; lia).
  assert (Hat : forall c, grid_at (update m0 (1, 1) PATH) c =
                          if decide (c = (1, 1)) then Some PATH else grid_at m0 c)
    by (intros c; apply (grid_at_update size); assumption).
  assert (Hpath : forall c, is_path (update m0 (1, 1) PATH) c <-> c = (1, 1)).
  { intros c. unfold is_path. rewrite Hat. case_decide; [tauto|].
    split; [|tauto]. intros Hc. apply grid_at_ones in Hc. discriminate Hc. }
  exists m0. split; [reflexivity|].
  split; [apply (setitem2_update size m0 (1, 1)); assumption|].
  split; simpl.
  - split.
    + apply square_grid_update, Hsq.
    + intros c v. rewrite Hat. case_decide.
      * intros [= <-]. auto.
      * intros Hv. apply grid_at_ones in Hv. auto.
    + apply Hpath. reflexivity.
    + intros c Hc%Hpath. auto.
    + intros c ->%Hpath. left. reflexivity.
    + intros x y [= -> ->]%Hpath Hev. discriminate Hev.
    + intros x y [= -> ->]%Hpath Hev. discriminate Hev.
  - apply Forall_cons. split; [|apply Forall_nil_2].
    split; [apply Hpath; reflexivity|]. split; reflexivity.
  - apply (is_tree_single adj4 _ (1, 1)); [apply Hpath; reflexivity|].
    intros c Hc%Hpath. exact Hc.
  - rewrite count_path_update; [unfold m0; rewrite count_path_ones; reflexivity|].
    destruct (grid_at_in_bounds size m0 (1, 1) Hsq Hin) as [v Hv].
    unfold is_wall. rewrite Hv. f_equal. eapply grid_at_ones, Hv.
  - reflexivity.
Qed.

Lemma gen_step_inv size rand st top rest :
  gen_inv size st -> stack st = top :: rest ->
  exists st', gen_step size rand st top rest = Done st' /\
    gen_inv size st' /\ (gen_measure size st' < gen_measure size st)%nat /\
    (draws st' = draws st \/ draws st' = S (draws st)).
Proof.
  intros [Hg Hstack HT Hcount Hdraws] Hst.
  destruct (gen_step_spec size rand st top rest (carved_square _ _ Hg))
    as (st' & Hstep & Heff).
  exists st'. split; [exact Hstep|].
  rewrite Hst in Hstack. apply Forall_cons in Hstack as [(Htop & Hox & Hoy) Hrest].
  destruct Heff as [(Hm & Hs & Hd & Hc) |
                    (d & nb & Hd & Hnb & Hin & Hwall & Hm & Hs & Hdr & Hc)].
  - split; [|split; [|auto]].
    + split; rewrite ?Hm, ?Hs, ?Hd, ?Hc; assumption.
    + unfold gen_measure. rewrite Hm, Hs, Hst. simpl. lia.
  - destruct top as [tx ty]. cbn [fst snd] in *.
    set (mid := ((tx + fst nb) / 2, (ty + snd nb) / 2)) in *.
    assert (Hgeom : (mid = (tx, ty + 1) /\ nb = (tx, ty + 2)) \/
                    (mid = (tx, ty - 1) /\ nb = (tx, ty - 2)) \/
                    (mid = (tx + 1, ty) /\ nb = (tx + 2, ty)) \/
                    (mid = (tx - 1, ty) /\ nb = (tx - 2, ty))).
    { unfold mid, directions in *. rewrite Hnb.
      repeat (apply elem_of_cons in Hd as [-> | Hd]); simpl;
        [ left | right; left | right; right; left | right; right; right
        | apply elem_of_nil in Hd; contradiction ];
        (split; f_equal; dlia). }
    unfold carve in Hm. cbn [fst snd] in Hm. fold mid in Hm. clear Hnb.
    pose proof (carved_carve size _ tx ty mid nb Hg Htop Hox Hoy Hgeom Hin Hwall) as Hg2.
    pose proof (path_carve size _ tx ty mid nb Hg Htop Hox Hoy Hgeom Hin Hwall) as Hp2.
    pose proof (count_carve size _ tx ty mid nb Hg Htop Hox Hoy Hgeom Hin Hwall) as Hc2.
    pose proof (tree_carve size _ tx ty mid nb Hg Htop Hox Hoy Hgeom Hin Hwall HT) as HT2.
    pose proof (carve_nb_odd size _ tx ty mid nb Hox Hoy Hgeom Hin Hwall) as [Hn1 Hn2].
    rewrite <- Hm in Hg2, Hp2, Hc2, HT2.
    split; [|split; [|auto]].
    + split; rewrite ?Hs, ?Hdr, ?Hc; try assumption.
      * repeat (apply Forall_cons; split).
        -- split; [apply Hp2; auto | auto].
        -- split; [apply Hp2; auto | auto].
        -- eapply Forall_impl; [exact Hrest|].
           intros c (Hcp & ? & ?). split; [apply Hp2; auto | auto].
      * rewrite Hc2, Hcount. simpl. lia.
      * simpl. congruence.
    + unfold gen_measure. rewrite Hs, Hst, Hc2. simpl.
      pose proof (count_path_le size _ (carved_square _ _ Hg2)) as Hle.
      rewrite Hc2 in Hle. lia.
Qed.

Lemma gen_loop_inv size rand fuel st :
  gen_inv size st -> (gen_measure size st < fuel)%nat ->
  exists st', gen_loop fuel size rand st = Done st' /\
              gen_inv size st' /\ stack st' = [].
Proof.
  revert st. induction fuel as [|fuel IH]; intros st Hinv Hm; [lia|].
  simpl. destruct (stack st) as [|top rest] eqn:Hst; [eauto|].
  destruct (gen_step_inv size rand st top rest Hinv Hst) as (st1 & -> & Hinv1 & Hm1 & _).
  unfold_bind. apply IH; [assumption | lia].
Qed.

Lemma gen_loop_fuel_mono size rand fuel fuel' st r :
  gen_loop fuel size rand st = Done r -> (fuel <= fuel')%nat ->
  gen_loop fuel' size rand st = Done r.
Proof.
  revert fuel' st. induction fuel as [|fuel IH]; intros fuel' st Hrun Hle.
  - destruct fuel'; simpl in *; destruct (stack st); congruence.
  - destruct fuel' as [|fuel']; [lia|]. simpl in *.
    destruct (stack st) as [|top rest]; [assumption|].
    destruct (gen_step size rand st top rest) as [st1| |]; unfold_bind;
      try discriminate.
    apply IH; [assumption | lia].
Qed.

(** ** The whole of [generate_maze] *)

Lemma generate_maze_run_ok size rand fuel :
  2 <= size -> (gen_fuel size <= fuel)%nat ->
  exists st, generate_maze_run fuel size rand = Done st /\
             gen_inv size st /\ stack st = [].
Proof.
  intros Hsize Hfuel. unfold generate_maze_run.
  destruct (gen_inv_init size Hsize) as (m0 & E0 & E1 & Hinv).
  rewrite E0. unfold_bind. rewrite E1.
  apply gen_loop_inv; [exact Hinv|].
  unfold gen_measure, gen_fuel in *. simpl. lia.
Qed.

Lemma generate_maze_small size rand fuel :
  size < 2 ->
  generate_maze fuel size rand =
  Raised (if size <? 0 then ValueError else IndexError).
Proof.
  intros Hsize. unfold generate_maze, generate_maze_run, np_ones.
  destruct (Z.ltb_spec size 0); [reflexivity|].
  assert (Hs : size = 0 \/ size = 1) by lia.
  destruct Hs as [-> | ->]; reflexivity.
Qed.

Lemma generate_maze_run_agree size rand fuel1 fuel2 st1 st2 :
  generate_maze_run fuel1 size rand = Done st1 ->
  generate_maze_run fuel2 size rand = Done st2 -> st1 = st2.
Proof.
  unfold generate_maze_run. intros H1 H2.
  destruct (np_ones size) as [m0| |]; unfold_bind; try discriminate.
  destruct (setitem2 m0 1 1 PATH) as [m1| |]; try discriminate.
  apply (gen_loop_fuel_mono _ _ _ (max fuel1 fuel2)) in H1, H2; [|lia ..].
  congruence.
Qed.

Lemma generated_inv size rand g :
  generated size rand g ->
  2 <= size /\
  exists st, gen_inv size st /\ stack st = [] /\ maze st = g /\
             forall fuel, (gen_fuel size <= fuel)%nat ->
                          generate_maze_run fuel size rand = Done st.
Proof.
  intros [fuel Hgen].
  destruct (Z.lt_ge_cases size 2) as [Hlt | Hge].
  { rewrite generate_maze_small in Hgen by assumption. discriminate. }
  split; [assumption|].
  destruct (generate_maze_run_ok size rand (gen_fuel size) Hge)
    as (st & Hrun & Hinv & Hstack); [lia|].
  exists st. split; [assumption|]. split; [assumption|]. split.
  - unfold generate_maze in Hgen.
    destruct (generate_maze_run fuel size rand) as [st0| |] eqn:Hrun0;
      unfold_bind; try discriminate.
    injection Hgen as <-. f_equal.
    eapply generate_maze_run_agree; eassumption.
  - intros fuel' Hf.
    destruct (generate_maze_run_ok size rand fuel' Hge Hf) as (st2 & Hrun2 & _).
    rewrite Hrun2. f_equal. eapply generate_maze_run_agree; eassumption.
Qed.

(** ** Truncation, floor and the cells of a square *)

Lemma py_int_nonneg q : (0 <= q)%Q -> py_int q = Qfloor q.
Proof.
  destruct q as [n d]. unfold py_int, Qfloor, Qle. simpl. intros Hn.
  apply Z.quot_div_nonneg; lia.
Qed.

Lemma py_int_neg q : (q < 0)%Q -> py_int q <= 0.
Proof.
  destruct q as [n d]. unfold py_int, Qlt. simpl. intros Hn.
  assert (H : 0 <= Z.quot (- n) (Z.pos d)) by (apply Z.quot_pos; lia).
  rewrite Z.quot_opp_l in H by lia. lia.
Qed.

Lemma Qfloor_ge k q : (inject_Z k <= q)%Q -> k <= Qfloor q.
Proof. intros H. rewrite <- (Qfloor_Z k). apply Qfloor_resp_le. exact H. Qed.

Lemma Qfloor_lt k q : (q < inject_Z k)%Q -> Qfloor q < k.
Proof.
  intros H. rewrite Zlt_Qlt.
  eapply Qle_lt_trans; [apply Qfloor_le | exact H].
Qed.

Lemma Qfloor_bounds q :
  (inject_Z (Qfloor q) <= q)%Q /\ (q < inject_Z (Qfloor q) + 1)%Q.
Proof.
  split; [apply Qfloor_le|].
  pose proof (Qlt_floor q) as H. rewrite inject_Z_plus in H. exact H.
Qed.

(** A square of side below 1 meets at most two columns (rows) of cells:
    those of its two edges. *)
Lemma Qfloor_span (lo hi p : Q) :
  (lo <= p)%Q -> (p <= hi)%Q -> (hi < lo + 1)%Q ->
  Qfloor p = Qfloor lo \/ Qfloor p = Qfloor hi.
Proof.
  intros H1 H2 H3.
  pose proof (Qfloor_resp_le _ _ H1). pose proof (Qfloor_resp_le _ _ H2).
  assert (Qfloor hi < Qfloor lo + 2).
  { apply Qfloor_lt. destruct (Qfloor_bounds lo) as [_ Hlo].
    rewrite inject_Z_plus. change (inject_Z 2) with 2%Q. qlra. }
  lia.
Qed.

Lemma corner_points_eq radius x z :
  corner_points radius x z =
  [(fadd x (- radius), fadd z (- radius)); (fadd x (- radius), fadd z radius);
   (fadd x radius, fadd z (- radius)); (fadd x radius, fadd z radius)].
Proof. reflexivity. Qed.

Lemma read_cells_eq radius x z :
  read_cells radius x z =
  [(py_int x, py_int z);
   (py_int (fadd x (- radius)), py_int (fadd z (- radius)));
   (py_int (fadd x (- radius)), py_int (fadd z radius));
   (py_int (fadd x radius), py_int (fadd z (- radius)));
   (py_int (fadd x radius), py_int (fadd z radius))].
Proof. reflexivity. Qed.

(** ** Double-precision arithmetic *)

(** *** Powers of two *)

Lemma pow2_pos e : (0 < pow2 e)%Q.
Proof. apply Qpower_0_lt. reflexivity. Qed.

Lemma pow2_add a b : (pow2 (a + b) == pow2 a * pow2 b)%Q.
Proof. apply Qpower_plus. discriminate. Qed.

Lemma pow2_le a b : a <= b -> (pow2 a <= pow2 b)%Q.
Proof. intros H. apply Qpower_le_compat_l; [exact H | discriminate]. Qed.

Lemma pow2_lt a b : a < b -> (pow2 a < pow2 b)%Q.
Proof. intros H. apply Qpower_lt_compat_l; [exact H | reflexivity]. Qed.

Lemma pow2_lt_inv a b : (pow2 a < pow2 b)%Q -> a < b.
Proof. intros H. apply (Qpower_lt_compat_l_inv 2); [exact H | reflexivity]. Qed.

Lemma pow2_inject e : 0 <= e -> (pow2 e == inject_Z (2 ^ e))%Q.
Proof. intros H. unfold pow2. rewrite Zpower_Qpower by exact H. reflexivity. Qed.

(** [pow2 a] is an integer multiple of [pow2 b] when [b <= a]. *)
Lemma pow2_multiple a b : b <= a -> (pow2 a == inject_Z (2 ^ (a - b)) * pow2 b)%Q.
Proof.
  intros H. rewrite <- pow2_inject by lia. rewrite <- pow2_add. f_equiv. lia.
Qed.

(** *** The binary exponent of a positive rational *)

Lemma log2_bounds n : 0 < n ->
  (pow2 (Z.log2 n) <= inject_Z n)%Q /\ (inject_Z n < pow2 (Z.log2 n + 1))%Q.
Proof.
  intros Hn. pose proof (Z.log2_spec n Hn) as [H1 H2].
  pose proof (Z.log2_nonneg n).
  rewrite !pow2_inject by lia. rewrite <- Zle_Qle, <- Zlt_Qlt.
  replace (Z.log2 n + 1) with (Z.succ (Z.log2 n)) by lia. split; assumption.
Qed.

Lemma ilog2_spec q : (0 < q)%Q ->
  (pow2 (ilog2 q) <= q)%Q /\ (q < pow2 (ilog2 q + 1))%Q.
Proof.
  intros Hq. destruct q as [n d].
  assert (Hn : 0 < n) by (unfold Qlt in Hq; simpl in Hq; lia).
  unfold ilog2. cbn [Qnum Qden].
  set (l := Z.log2 n - Z.log2 (Z.pos d)).
  destruct (log2_bounds n Hn) as [Hn1 Hn2].
  destruct (log2_bounds (Z.pos d) (Pos2Z.is_pos d)) as [Hd1 Hd2].
  assert (Hd : (0 < inject_Z (Z.pos d))%Q) by reflexivity.
  assert (E : (n # d == inject_Z n / inject_Z (Z.pos d))%Q) by apply Qmake_Qdiv.
  assert (Elo : (pow2 (Z.log2 n) == pow2 (l - 1) * pow2 (Z.log2 (Z.pos d) + 1))%Q).
  { rewrite <- pow2_add. f_equiv. unfold l. lia. }
  assert (Ehi : (pow2 (Z.log2 n + 1) == pow2 (l + 1) * pow2 (Z.log2 (Z.pos d)))%Q).
  { rewrite <- pow2_add. f_equiv. unfold l. lia. }
  assert (Hlow : (pow2 (l - 1) <= n # d)%Q).
  { rewrite E. apply Qle_shift_div_l; [exact Hd|].
    pose proof (pow2_pos (l - 1)).
    assert (pow2 (l - 1) * inject_Z (Z.pos d) <=
            pow2 (l - 1) * pow2 (Z.log2 (Z.pos d) + 1))%Q
      by (apply Qmult_le_l; [assumption | qlra]).
    qlra. }
  assert (Hhigh : (n # d < pow2 (l + 1))%Q).
  { rewrite E. apply Qlt_shift_div_r; [exact Hd|].
    pose proof (pow2_pos (l + 1)).
    assert (pow2 (l + 1) * pow2 (Z.log2 (Z.pos d)) <=
            pow2 (l + 1) * inject_Z (Z.pos d))%Q
      by (apply Qmult_le_l; [assumption | qlra]).
    qlra. }
  destruct (Qle_bool (pow2 l) (n # d)) eqn:Hb.
  - apply Qle_bool_iff in Hb. split; assumption.
  - assert (Hlt : (n # d < pow2 l)%Q).
    { apply Qnot_le_lt. intros Hle. apply Qle_bool_iff in Hle. congruence. }
    replace (l - 1 + 1) with l by lia. split; assumption.
Qed.

Lemma ilog2_ge q k : (0 < q)%Q -> (pow2 k <= q)%Q -> k <= ilog2 q.
Proof.
  intros Hq Hk. destruct (ilog2_spec q Hq) as [_ Hhi].
  assert (k < ilog2 q + 1) by (apply pow2_lt_inv; qlra). lia.
Qed.

Lemma ilog2_lt q k : (0 < q)%Q -> (q < pow2 k)%Q -> ilog2 q < k.
Proof.
  intros Hq Hk. destruct (ilog2_spec q Hq) as [Hlo _].
  apply pow2_lt_inv. qlra.
Qed.

(** *** Rounding to the nearest integer, ties to even *)

Lemma rne_cases t : rne t = Qfloor t \/ rne t = Qfloor t + 1.
Proof.
  unfold rne. destruct (_ ?= _)%Q; [destruct (Z.even _)| |]; auto.
Qed.

Lemma rne_near t :
  (t - (1 # 2) <= inject_Z (rne t))%Q /\ (inject_Z (rne t) <= t + (1 # 2))%Q.
Proof.
  destruct (Qfloor_bounds t) as [H1 H2]. unfold rne.
  destruct (Qcompare_spec (t - inject_Z (Qfloor t)) (1 # 2)) as [E | E | E];
    [destruct (Z.even _)| |];
    rewrite ?inject_Z_plus; change (inject_Z 1) with 1%Q; split; qlra.
Qed.

Lemma rne_ge t m : (inject_Z m <= t)%Q -> m <= rne t.
Proof.
  intros H. assert (m <= Qfloor t).
  { rewrite <- (Qfloor_Z m). apply Qfloor_resp_le. exact H. }
  destruct (rne_cases t); lia.
Qed.

Lemma rne_le t m : (t <= inject_Z m)%Q -> rne t <= m.
Proof.
  intros H. destruct (Qfloor_bounds t) as [H1 H2].
  assert (Hf : Qfloor t <= m).
  { rewrite Zle_Qle. qlra. }
  destruct (Z.eq_dec (Qfloor t) m) as [E | E].
  - unfold rne. rewrite E in *.
    destruct (Qcompare_spec (t - inject_Z m) (1 # 2)) as [E1 | E1 | E1];
      [exfalso; qlra | lia | exfalso; qlra].
  - destruct (rne_cases t); lia.
Qed.

(** *** Rounding a positive rational to a double *)

Lemma quantum_pos q : (0 < quantum q)%Q.
Proof. apply pow2_pos. Qed.

Lemma round_pos_near q :
  (q - quantum q * (1 # 2) <= round_pos q)%Q /\
  (round_pos q <= q + quantum q * (1 # 2))%Q.
Proof.
  pose proof (quantum_pos q) as Hu. unfold round_pos.
  destruct (rne_near (q / quantum q)) as [H1 H2].
  assert (E : (q / quantum q * quantum q == q)%Q) by (field; qlra).
  apply (Qmult_le_compat_r _ _ (quantum q)) in H1; [|qlra].
  apply (Qmult_le_compat_r _ _ (quantum q)) in H2; [|qlra].
  assert (E1 : ((q / quantum q - (1 # 2)) * quantum q ==
                q / quantum q * quantum q - quantum q * (1 # 2))%Q) by ring.
  assert (E2 : ((q / quantum q + (1 # 2)) * quantum q ==
                q / quantum q * quantum q + quantum q * (1 # 2))%Q) by ring.
  set (a := (inject_Z (rne (q / quantum q)) * quantum q)%Q) in *.
  set (b := ((q / quantum q - (1 # 2)) * quantum q)%Q) in *.
  set (c := ((q / quantum q + (1 # 2)) * quantum q)%Q) in *.
  set (d := (q / quantum q * quantum q)%Q) in *.
  split; qlra.
Qed.

(** Rounding does not cross a multiple of the quantum. *)
Lemma round_pos_ge_multiple q m :
  (inject_Z m * quantum q <= q)%Q -> (inject_Z m * quantum q <= round_pos q)%Q.
Proof.
  intros H. pose proof (quantum_pos q) as Hu. unfold round_pos.
  apply Qmult_le_compat_r; [|qlra]. rewrite <- Zle_Qle. apply rne_ge.
  apply Qle_shift_div_l; assumption.
Qed.

Lemma round_pos_le_multiple q m :
  (q <= inject_Z m * quantum q)%Q -> (round_pos q <= inject_Z m * quantum q)%Q.
Proof.
  intros H. pose proof (quantum_pos q) as Hu. unfold round_pos.
  apply Qmult_le_compat_r; [|qlra]. rewrite <- Zle_Qle. apply rne_le.
  apply Qle_shift_div_r; assumption.
Qed.

Lemma quantum_le q : (0 < q)%Q ->
  (quantum q <= q * pow2 (-52) \/ quantum q == pow2 (-1074))%Q.
Proof.
  intros Hq. destruct (ilog2_spec q Hq) as [Hlo _]. unfold quantum.
  destruct (Z.max_spec (ilog2 q) (-1022)) as [[_ ->] | [_ ->]].
  - right. reflexivity.
  - left. replace (ilog2 q - 52) with (ilog2 q + -52) by lia. rewrite pow2_add.
    apply Qmult_le_compat_r; [exact Hlo|]. pose proof (pow2_pos (-52)). qlra.
Qed.

(** The powers of two from 2^-1074 on are not crossed. *)
Lemma round_pos_ge_pow2 q k :
  (0 < q)%Q -> -1074 <= k -> (pow2 k <= q)%Q -> (pow2 k <= round_pos q)%Q.
Proof.
  intros Hq Hk Hle.
  pose proof (ilog2_ge q k Hq Hle) as He.
  destruct (ilog2_spec q Hq) as [Hlo _].
  set (fe := Z.max (ilog2 q) (-1022) - 52).
  assert (Hfe : quantum q = pow2 fe) by reflexivity.
  destruct (Z.le_gt_cases fe k) as [Hc | Hc].
  - rewrite (pow2_multiple k fe Hc) in *. rewrite <- Hfe in *.
    apply round_pos_ge_multiple. exact Hle.
  - assert (Hfe' : fe <= ilog2 q) by lia.
    assert (Hm : (pow2 (ilog2 q) <= round_pos q)%Q).
    { rewrite (pow2_multiple (ilog2 q) fe Hfe') in *. rewrite <- Hfe in *.
      apply round_pos_ge_multiple. exact Hlo. }
    pose proof (pow2_le k (ilog2 q) He). qlra.
Qed.

Lemma round_pos_le_pow2 q k :
  (0 < q)%Q -> -1074 <= k -> (q <= pow2 k)%Q -> (round_pos q <= pow2 k)%Q.
Proof.
  intros Hq Hk Hle.
  destruct (ilog2_spec q Hq) as [Hlo _].
  assert (He : ilog2 q <= k).
  { assert (ilog2 q < k + 1) by (apply pow2_lt_inv; pose proof (pow2_lt k (k + 1)); 
      assert (pow2 k < pow2 (k + 1))%Q by (apply pow2_lt; lia); qlra). lia. }
  set (fe := Z.max (ilog2 q) (-1022) - 52).
  assert (Hfe : quantum q = pow2 fe) by reflexivity.
  assert (Hc : fe <= k) by lia.
  rewrite (pow2_multiple k fe Hc) in *. rewrite <- Hfe in *.
  apply round_pos_le_multiple. exact Hle.
Qed.

Lemma round_pos_nonneg q : (0 < q)%Q -> (0 <= round_pos q)%Q.
Proof.
  intros Hq. assert (H : (inject_Z 0 * quantum q <= round_pos q)%Q).
  { apply round_pos_ge_multiple. rewrite Qmult_0_l. qlra. }
  rewrite Qmult_0_l in H. exact H.
Qed.

(** *** Rounding to a double *)

Lemma round64_comp p q : (p == q)%Q -> round64 p = round64 q.
Proof. intros H. unfold round64. rewrite (Qred_complete _ _ H). reflexivity. Qed.

Lemma round64_zero q : (q == 0)%Q -> round64 q = 0%Q.
Proof. intros H. rewrite (round64_comp _ _ H). reflexivity. Qed.

Lemma round64_pos q : (0 < q)%Q ->
  exists r, (r == q)%Q /\ (round64 q == round_pos r)%Q.
Proof.
  intros Hq. exists (Qred q). split; [apply Qred_correct|].
  unfold round64.
  destruct (Qcompare_spec (Qred q) 0) as [E | E | E];
    rewrite Qred_correct in E; [exfalso; qlra | exfalso; qlra|].
  apply Qred_correct.
Qed.

Lemma round64_neg q : (q < 0)%Q ->
  exists r, (r == - q)%Q /\ (round64 q == - round_pos r)%Q.
Proof.
  intros Hq. exists (- Qred q)%Q. split; [rewrite Qred_correct; reflexivity|].
  unfold round64.
  destruct (Qcompare_spec (Qred q) 0) as [E | E | E];
    rewrite Qred_correct in E; [exfalso; qlra | | exfalso; qlra].
  apply Qred_correct.
Qed.

Lemma Qopp_opp_eq (x : Q) : (- - x)%Q = x.
Proof. destruct x as [n d]. unfold Qopp. simpl. rewrite Z.opp_involutive. reflexivity. Qed.

Lemma round64_opp q : (round64 (- q) == - round64 q)%Q.
Proof.
  unfold round64. rewrite Qred_opp.
  destruct (Qcompare_spec (Qred q) 0) as [E | E | E];
    destruct (Qcompare_spec (- Qred q) 0) as [E' | E' | E']; try (exfalso; qlra);
    rewrite ?Qopp_opp_eq.
  - ring.
  - rewrite (Qred_correct (round_pos _)), (Qred_correct (- round_pos _)). ring.
  - rewrite (Qred_correct (round_pos _)), (Qred_correct (- round_pos _)). ring.
Qed.

Lemma round64_nonneg q : (0 <= q)%Q -> (0 <= round64 q)%Q.
Proof.
  intros Hq. destruct (Qlt_le_dec 0 q) as [Hp | Hz].
  - destruct (round64_pos q Hp) as (r & Er & ->). apply round_pos_nonneg. qlra.
  - rewrite round64_zero by qlra. qlra.
Qed.

Lemma round64_nonpos q : (q <= 0)%Q -> (round64 q <= 0)%Q.
Proof.
  intros Hq. pose proof (round64_nonneg (- q)) as H. rewrite round64_opp in H.
  assert (0 <= - q)%Q by qlra. specialize (H H0). qlra.
Qed.

Lemma round64_ge_pow2 q k :
  -1074 <= k -> (pow2 k <= q)%Q -> (pow2 k <= round64 q)%Q.
Proof.
  intros Hk Hle. pose proof (pow2_pos k).
  destruct (round64_pos q) as (r & Er & ->); [qlra|].
  apply round_pos_ge_pow2; [qlra | exact Hk | qlra].
Qed.

Lemma round64_le_pow2 q k :
  -1074 <= k -> (q <= pow2 k)%Q -> (round64 q <= pow2 k)%Q.
Proof.
  intros Hk Hle. pose proof (pow2_pos k).
  destruct (Qlt_le_dec 0 q) as [Hp | Hz].
  - destruct (round64_pos q Hp) as (r & Er & ->).
    apply round_pos_le_pow2; [qlra | exact Hk | qlra].
  - pose proof (round64_nonpos q Hz). qlra.
Qed.

Lemma round64_le_neg_pow2 q k :
  -1074 <= k -> (q <= - pow2 k)%Q -> (round64 q <= - pow2 k)%Q.
Proof.
  intros Hk Hle.
  pose proof (round64_ge_pow2 (- q) k Hk) as H. rewrite round64_opp in H.
  assert (pow2 k <= - q)%Q by qlra. specialize (H H0). qlra.
Qed.

(** The rounding error: half a quantum, which is at most [2^-53] of the
    magnitude, or [2^-1075] for a subnormal result. *)
Lemma round_pos_error q b : (0 < q)%Q -> (q <= b)%Q ->
  (q - (b * (1 # 9007199254740992) + (1 # 1152921504606846976)) <= round_pos q)%Q /\
  (round_pos q <= q + (b * (1 # 9007199254740992) + (1 # 1152921504606846976)))%Q.
Proof.
  intros Hq Hb. destruct (round_pos_near q) as [H1 H2].
  assert (Hu : (quantum q * (1 # 2) <=
                b * (1 # 9007199254740992) + (1 # 1152921504606846976))%Q).
  { destruct (quantum_le q Hq) as [Hu | Hu].
    - assert (E : (pow2 (-52) == 1 # 4503599627370496)%Q) by reflexivity.
      rewrite E in Hu. qlra.
    - assert (E : (pow2 (-1074) <= 1 # 1152921504606846976)%Q)
        by (vm_compute; discriminate).
      qlra. }
  split; qlra.
Qed.

Lemma round64_error q b : (- b <= q)%Q -> (q <= b)%Q ->
  (q - (b * (1 # 9007199254740992) + (1 # 1152921504606846976)) <= round64 q)%Q /\
  (round64 q <= q + (b * (1 # 9007199254740992) + (1 # 1152921504606846976)))%Q.
Proof.
  intros H1 H2.
  destruct (Qlt_le_dec 0 q) as [Hp | Hz].
  - destruct (round64_pos q Hp) as (r & Er & ->).
    destruct (round_pos_error r b) as [E1 E2]; [qlra | qlra|]. split; qlra.
  - destruct (Qlt_le_dec q 0) as [Hn | Hn].
    + destruct (round64_neg q Hn) as (r & Er & ->).
      destruct (round_pos_error r b) as [E1 E2]; [qlra | qlra|]. split; qlra.
    + rewrite round64_zero by qlra. split; qlra.
Qed.

(** Below a quarter the doubles end at [1/4 - 2^-55]. *)
Lemma round64_below_quarter q :
  (round64 q < 1 # 4)%Q -> (round64 q <= (1 # 4) - (1 # 36028797018963968))%Q.
Proof.
  intros Hlt.
  destruct (Qlt_le_dec 0 q) as [Hp | Hz];
    [|pose proof (round64_nonpos q Hz); qlra].
  assert (E4 : (pow2 (-2) == 1 # 4)%Q) by reflexivity.
  destruct (Qlt_le_dec q (1 # 4)) as [Hq | Hq];
    [|pose proof (round64_ge_pow2 q (-2)); exfalso; 
      assert (pow2 (-2) <= round64 q)%Q by (apply round64_ge_pow2; [lia | qlra]); qlra].
  destruct (round64_pos q Hp) as (r & Er & Eq). rewrite Eq in *.
  assert (Hr : (0 < r)%Q) by qlra.
  assert (He : ilog2 r < -2) by (apply ilog2_lt; [exact Hr | qlra]).
  destruct (ilog2_spec r Hr) as [_ Hhi].
  destruct (Z.eq_dec (ilog2 r) (-3)) as [E3 | E3].
  - assert (Hu : quantum r = pow2 (-55)) by (unfold quantum; rewrite E3; reflexivity).
    unfold round_pos in *. rewrite Hu in *.
    change (pow2 (-55)) with (1 # 36028797018963968)%Q in *.
    set (m := rne (r / (1 # 36028797018963968))) in *.
    assert (Hm : m < 9007199254740992).
    { rewrite Zlt_Qlt.
      apply (Qmult_lt_r _ _ (1 # 36028797018963968)); [reflexivity|].
      assert (inject_Z 9007199254740992 * (1 # 36028797018963968) == 1 # 4)%Q as ->
        by reflexivity.
      exact Hlt. }
    assert (Hm' : (inject_Z m <= inject_Z 9007199254740991)%Q)
      by (rewrite <- Zle_Qle; lia).
    apply (Qmult_le_compat_r _ _ (1 # 36028797018963968)) in Hm'; [|discriminate].
    assert (inject_Z 9007199254740991 * (1 # 36028797018963968) ==
            (1 # 4) - (1 # 36028797018963968))%Q as E by reflexivity.
    rewrite E in Hm'. exact Hm'.
  - assert (Hle : (round_pos r <= pow2 (-3))%Q).
    { apply round_pos_le_pow2; [exact Hr | lia|].
      pose proof (pow2_le (ilog2 r + 1) (-3)). assert (ilog2 r + 1 <= -3) by lia.
      specialize (H H0). qlra. }
    assert (E8 : (pow2 (-3) == 1 # 8)%Q) by reflexivity. rewrite E8 in Hle. qlra.
Qed.

(** *** The rounded square root *)

Lemma rne_sqrt_cases r :
  rne_sqrt r = Z.sqrt (Qfloor r) \/ rne_sqrt r = Z.sqrt (Qfloor r) + 1.
Proof.
  unfold rne_sqrt. destruct (_ ?= _)%Q; [destruct (Z.even _)| |]; auto.
Qed.

Lemma rne_sqrt_ge r n : 0 <= n -> (inject_Z (n * n) <= r)%Q -> n <= rne_sqrt r.
Proof.
  intros Hn Hr.
  assert (Hf : n * n <= Qfloor r).
  { rewrite <- (Qfloor_Z (n * n)). apply Qfloor_resp_le. exact Hr. }
  apply Z.sqrt_le_mono in Hf. rewrite Z.sqrt_square in Hf by exact Hn.
  destruct (rne_sqrt_cases r); lia.
Qed.

Lemma inject_Z_pred n : (inject_Z (n - 1) == inject_Z n - 1)%Q.
Proof. replace (n - 1) with (n + -1) by lia. rewrite inject_Z_plus. reflexivity. Qed.

Lemma rne_sqrt_lt r n : 1 <= n -> (0 <= r)%Q ->
  (r < (inject_Z n - (1 # 2)) * (inject_Z n - (1 # 2)))%Q -> rne_sqrt r < n.
Proof.
  intros Hn Hr0 Hr.
  assert (Hf0 : 0 <= Qfloor r).
  { rewrite <- (Qfloor_Z 0). apply Qfloor_resp_le. exact Hr0. }
  pose proof (Z.sqrt_spec (Qfloor r) Hf0) as [Hk1 _]. cbv zeta in Hk1.
  pose proof (Z.sqrt_nonneg (Qfloor r)) as Hk0.
  pose proof (Qfloor_le r) as Hfl.
  assert (HN : (inject_Z 1 <= inject_Z n)%Q) by (rewrite <- Zle_Qle; exact Hn).
  change (inject_Z 1) with 1%Q in HN.
  assert (Esq : ((inject_Z n - (1 # 2)) * (inject_Z n - (1 # 2)) ==
                 inject_Z (n * n) - inject_Z n + (1 # 4))%Q)
    by (rewrite inject_Z_mult; ring).
  assert (Hk : Z.sqrt (Qfloor r) <= n - 1).
  { destruct (Z.le_gt_cases (Z.sqrt (Qfloor r)) (n - 1)) as [H | H]; [exact H | exfalso].
    assert (n * n <= Qfloor r) by nia.
    assert (inject_Z (n * n) <= inject_Z (Qfloor r))%Q by (rewrite <- Zle_Qle; assumption).
    qlra. }
  destruct (Z.eq_dec (Z.sqrt (Qfloor r)) (n - 1)) as [E | E].
  - unfold rne_sqrt. cbv zeta. rewrite E.
    assert (Hlt : (r < (inject_Z (n - 1) + (1 # 2)) * (inject_Z (n - 1) + (1 # 2)))%Q).
    { assert (((inject_Z (n - 1) + (1 # 2)) * (inject_Z (n - 1) + (1 # 2))) ==
              (inject_Z n - (1 # 2)) * (inject_Z n - (1 # 2)))%Q as ->; [|exact Hr].
      rewrite inject_Z_pred. ring. }
    destruct (Qcompare_spec r ((inject_Z (n - 1) + (1 # 2)) * (inject_Z (n - 1) + (1 # 2))))
      as [C | C | C]; [exfalso; qlra | lia | exfalso; qlra].
  - destruct (rne_sqrt_cases r); lia.
Qed.

Lemma sqrt_quantum_pos r : (0 < sqrt_quantum r)%Q.
Proof. apply pow2_pos. Qed.

Lemma fsqrt_nonpos s : (s <= 0)%Q -> fsqrt s = 0%Q.
Proof.
  intros Hs. unfold fsqrt.
  destruct (Qcompare_spec (Qred s) 0) as [E | E | E]; try reflexivity.
  rewrite Qred_correct in E. exfalso. qlra.
Qed.

Lemma fsqrt_pos s : (0 < s)%Q ->
  exists r, (r == s)%Q /\
    (fsqrt s ==
     inject_Z (rne_sqrt (r / (sqrt_quantum r * sqrt_quantum r))) * sqrt_quantum r)%Q.
Proof.
  intros Hs. exists (Qred s). split; [apply Qred_correct|]. unfold fsqrt.
  destruct (Qcompare_spec (Qred s) 0) as [E | E | E];
    rewrite Qred_correct in E; [exfalso; qlra | exfalso; qlra|].
  apply Qred_correct.
Qed.

(** The root of a quarter or more is a half or more. *)
Lemma fsqrt_ge_half s : (1 # 4 <= s)%Q -> (1 # 2 <= fsqrt s)%Q.
Proof.
  intros Hs. destruct (fsqrt_pos s) as (r & Er & ->); [qlra|].
  assert (Hr : (0 < r)%Q) by qlra.
  assert (E4 : (pow2 (-2) == 1 # 4)%Q) by reflexivity.
  assert (He : -2 <= ilog2 r) by (apply ilog2_ge; [exact Hr | qlra]).
  destruct (ilog2_spec r Hr) as [Hlo _].
  unfold sqrt_quantum. set (h := ilog2 r / 2).
  assert (Hh : -1 <= h /\ 2 * h <= ilog2 r) by (unfold h; dlia).
  set (u := pow2 (h - 52)). pose proof (pow2_pos (h - 52)) as Hu. fold u in Hu.
  assert (Huu : (0 < u * u)%Q) by (apply Qmult_lt_0_compat; exact Hu).
  assert (Hn : 4503599627370496 <= rne_sqrt (r / (u * u))).
  { apply rne_sqrt_ge; [lia|]. apply Qle_shift_div_l; [exact Huu|].
    assert (E : (inject_Z (4503599627370496 * 4503599627370496) * (u * u) == pow2 (2 * h))%Q).
    { change (inject_Z (4503599627370496 * 4503599627370496)) with (pow2 104).
      unfold u. rewrite <- !pow2_add. f_equiv. lia. }
    rewrite E. pose proof (pow2_le (2 * h) (ilog2 r) (proj2 Hh)). qlra. }
  assert (Hm : (inject_Z 4503599627370496 * u <=
                inject_Z (rne_sqrt (r / (u * u))) * u)%Q).
  { apply Qmult_le_compat_r; [|qlra]. rewrite <- Zle_Qle. exact Hn. }
  assert (E : (inject_Z 4503599627370496 * u == pow2 h)%Q).
  { change (inject_Z 4503599627370496) with (pow2 52).
    unfold u. rewrite <- pow2_add. f_equiv. lia. }
  pose proof (pow2_le (-1) h (proj1 Hh)) as Hp.
  change (pow2 (-1)) with (1 # 2)%Q in Hp.
  rewrite E in Hm. qlra.
Qed.

(** The root of a double below a quarter is below a half. *)
Lemma fsqrt_lt_half s :
  (s <= (1 # 4) - (1 # 36028797018963968))%Q -> (fsqrt s < 1 # 2)%Q.
Proof.
  intros Hs. destruct (Qlt_le_dec 0 s) as [Hp | Hz];
    [|rewrite fsqrt_nonpos by exact Hz; reflexivity].
  destruct (fsqrt_pos s Hp) as (r & Er & ->).
  assert (Hr : (0 < r)%Q) by qlra.
  assert (E4 : (pow2 (-2) == 1 # 4)%Q) by reflexivity.
  assert (He : ilog2 r < -2) by (apply ilog2_lt; [exact Hr | qlra]).
  unfold sqrt_quantum. set (h := ilog2 r / 2).
  assert (Hh : h <= -2) by (unfold h; dlia).
  set (u := pow2 (h - 52)). pose proof (pow2_pos (h - 52)) as Hu. fold u in Hu.
  assert (Huu : (0 < u * u)%Q) by (apply Qmult_lt_0_compat; exact Hu).
  assert (Hu54 : (u <= 1 # 18014398509481984)%Q).
  { pose proof (pow2_le (h - 52) (-54)) as H. 
    change (pow2 (-54)) with (1 # 18014398509481984)%Q in H. apply H. lia. }
  set (n := 2 ^ (51 - h)).
  assert (En : (inject_Z n == pow2 (51 - h))%Q)
    by (unfold n; symmetry; apply pow2_inject; lia).
  assert (Enu : (inject_Z n * u == 1 # 2)%Q).
  { rewrite En. unfold u. rewrite <- pow2_add.
    replace (51 - h + (h - 52)) with (-1) by lia. reflexivity. }
  assert (Hn1 : 1 <= n) by (unfold n; apply Z.lt_pred_le, Z.pow_pos_nonneg; lia).
  assert (Hlt : rne_sqrt (r / (u * u)) < n).
  { apply rne_sqrt_lt; [exact Hn1 | |].
    - apply Qle_shift_div_l; [exact Huu|]. rewrite Qmult_0_l. qlra.
    - apply Qlt_shift_div_r; [exact Huu|].
      assert (E : ((inject_Z n - (1 # 2)) * (inject_Z n - (1 # 2)) * (u * u) ==
                   (inject_Z n * u) * (inject_Z n * u) - (inject_Z n * u) * u
                   + (1 # 4) * (u * u))%Q) by ring.
      rewrite E, Enu. set (uu := (u * u)%Q) in *. qlra. }
  assert (Hle : (inject_Z (rne_sqrt (r / (u * u))) <= inject_Z (n - 1))%Q)
    by (rewrite <- Zle_Qle; lia).
  apply (Qmult_le_compat_r _ _ u) in Hle; [|qlra].
  assert (E : (inject_Z (n - 1) * u == (1 # 2) - u)%Q).
  { rewrite inject_Z_pred.
    assert ((inject_Z n - 1) * u == inject_Z n * u - u)%Q as -> by ring.
    rewrite Enu. reflexivity. }
  rewrite E in Hle. qlra.
Qed.

(** *** round64 gives a nearest double *)

Lemma Qabs_le_of a b :
  ((a <= b)%Q /\ (- a <= b)%Q) \/ ((a <= - b)%Q /\ (- a <= - b)%Q) ->
  (Qabs a <= Qabs b)%Q.
Proof.
  intros H. pose proof (Qle_Qabs b) as Hb1.
  pose proof (Qle_Qabs (- b)) as Hb2. rewrite Qabs_opp in Hb2.
  apply Qabs_case; intros _; destruct H as [[H1 H2] | [H1 H2]]; qlra.
Qed.

Lemma rne_nearest t k : (Qabs (inject_Z (rne t) - t) <= Qabs (inject_Z k - t))%Q.
Proof.
  destruct (Qfloor_bounds t) as [H1 H2]. apply Qabs_le_of.
  destruct (Z.le_gt_cases k (Qfloor t)) as [Hk | Hk].
  - right.
    assert (Hk' : (inject_Z k <= inject_Z (Qfloor t))%Q) by (rewrite <- Zle_Qle; exact Hk).
    unfold rne.
    destruct (Qcompare_spec (t - inject_Z (Qfloor t)) (1 # 2)) as [E | E | E];
      [destruct (Z.even _)| |];
      rewrite ?inject_Z_plus; change (inject_Z 1) with 1%Q; split; qlra.
  - left.
    assert (Hk' : (inject_Z (Qfloor t) + 1 <= inject_Z k)%Q).
    { change 1%Q with (inject_Z 1). rewrite <- inject_Z_plus, <- Zle_Qle. lia. }
    unfold rne.
    destruct (Qcompare_spec (t - inject_Z (Qfloor t)) (1 # 2)) as [E | E | E];
      [destruct (Z.even _)| |];
      rewrite ?inject_Z_plus; change (inject_Z 1) with 1%Q; split; qlra.
Qed.

(** Among the multiples of the quantum the rounded value is a nearest
    one. *)
Lemma round_pos_nearest_multiple q k :
  (Qabs (round_pos q - q) <= Qabs (inject_Z k * quantum q - q))%Q.
Proof.
  pose proof (quantum_pos q) as Hu. unfold round_pos.
  pose proof (rne_nearest (q / quantum q) k) as H.
  apply (Qmult_le_compat_r _ _ (quantum q)) in H; [|qlra].
  assert (Eu : (Qabs (quantum q) == quantum q)%Q) by (apply Qabs_pos; qlra).
  assert (E1 : (inject_Z (rne (q / quantum q)) * quantum q - q ==
                (inject_Z (rne (q / quantum q)) - q / quantum q) * quantum q)%Q)
    by (field; qlra).
  assert (E2 : (inject_Z k * quantum q - q ==
                (inject_Z k - q / quantum q) * quantum q)%Q) by (field; qlra).
  rewrite E1, E2, !Qabs_Qmult, Eu. exact H.
Qed.

Lemma round_pos_nearest q f :
  (0 < q)%Q -> is_double f -> (Qabs (round_pos q - q) <= Qabs (f - q))%Q.
Proof.
  intros Hq (m & e & Hm & He & Ef).
  destruct (ilog2_spec q Hq) as [Hlo _].
  set (fe := Z.max (ilog2 q) (-1022) - 52).
  assert (Hfe : quantum q = pow2 fe) by reflexivity.
  destruct (Z.le_gt_cases m 0) as [Hm0 | Hm0].
  - (* a double that is not positive *)
    eapply Qle_trans; [apply (round_pos_nearest_multiple q 0)|].
    assert (Hf : (f <= 0)%Q).
    { rewrite Ef. pose proof (pow2_pos e).
      assert (inject_Z m <= inject_Z 0)%Q by (rewrite <- Zle_Qle; exact Hm0).
      change (inject_Z 0) with 0%Q in *.
      assert (inject_Z m * pow2 e <= 0 * pow2 e)%Q by (apply Qmult_le_compat_r; qlra).
      qlra. }
    apply Qabs_le_of. right. rewrite Qmult_0_l. split; qlra.
  - destruct (Z.le_gt_cases fe e) as [Hc | Hc].
    + (* a multiple of the quantum *)
      assert (E : (f == inject_Z (m * 2 ^ (e - fe)) * quantum q)%Q).
      { rewrite Ef, inject_Z_mult, Hfe, (pow2_multiple e fe Hc). ring. }
      rewrite E. apply round_pos_nearest_multiple.
    + (* a double below the binade of [q] *)
      assert (Hn : fe = ilog2 q - 52) by lia.
      assert (Hf : (f <= pow2 (ilog2 q))%Q).
      { rewrite Ef.
        assert (Hm' : (inject_Z m <= inject_Z (2 ^ 53))%Q) by (rewrite <- Zle_Qle; lia).
        rewrite <- pow2_inject in Hm' by lia.
        pose proof (pow2_pos e).
        assert (inject_Z m * pow2 e <= pow2 53 * pow2 e)%Q
          by (apply Qmult_le_compat_r; qlra).
        rewrite <- pow2_add in H0.
        pose proof (pow2_le (53 + e) (ilog2 q)). assert (53 + e <= ilog2 q) by lia.
        specialize (H1 H2). qlra. }
      eapply Qle_trans; [apply (round_pos_nearest_multiple q (2 ^ 52))|].
      assert (E : (inject_Z (2 ^ 52) * quantum q == pow2 (ilog2 q))%Q).
      { rewrite Hfe, <- pow2_inject by lia. rewrite <- pow2_add. f_equiv. lia. }
      rewrite E. apply Qabs_le_of. right. split; qlra.
Qed.

Lemma is_double_opp f : is_double f -> is_double (- f).
Proof.
  intros (m & e & Hm & He & Ef). exists (- m), e.
  split; [rewrite Z.abs_opp; exact Hm|]. split; [exact He|].
  rewrite Ef, inject_Z_opp. ring.
Qed.

(** No double is nearer to [q] than [round64 q]. *)
Lemma round64_nearest q f :
  is_double f -> (Qabs (round64 q - q) <= Qabs (f - q))%Q.
Proof.
  intros Hf.
  destruct (Qlt_le_dec 0 q) as [Hp | Hz].
  - destruct (round64_pos q Hp) as (r & Er & ->).
    rewrite <- Er. apply round_pos_nearest; [qlra | exact Hf].
  - destruct (Qlt_le_dec q 0) as [Hn | Hn].
    + destruct (round64_neg q Hn) as (r & Er & ->).
      pose proof (round_pos_nearest r (- f)) as H.
      assert (E1 : (- round_pos r - q == - (round_pos r - r))%Q) by qlra.
      assert (E2 : (f - q == - (- f - r))%Q) by qlra.
      rewrite E1, E2, !Qabs_opp. apply H; [qlra | apply is_double_opp, Hf].
    + rewrite round64_zero by qlra.
      assert (E : (0 - q == 0)%Q) by qlra. rewrite E. apply Qabs_nonneg.
Qed.

(** [round64 q] is a double. *)
Lemma round_pos_is_double q : (0 < q)%Q -> is_double (round_pos q).
Proof.
  intros Hq. destruct (ilog2_spec q Hq) as [Hlo Hhi].
  set (fe := Z.max (ilog2 q) (-1022) - 52).
  assert (Hfe : quantum q = pow2 fe) by reflexivity.
  pose proof (quantum_pos q) as Hu.
  set (M := rne (q / quantum q)).
  assert (HM0 : 0 <= M).
  { apply rne_ge. apply Qle_shift_div_l; [exact Hu|]. rewrite Qmult_0_l. qlra. }
  assert (HM1 : M <= 2 ^ 53).
  { apply rne_le. apply Qle_shift_div_r; [exact Hu|].
    rewrite Hfe, <- pow2_inject by lia. rewrite <- pow2_add.
    pose proof (pow2_le (ilog2 q + 1) (53 + fe)). assert (ilog2 q + 1 <= 53 + fe) by lia.
    specialize (H H0). qlra. }
  unfold round_pos. fold M. rewrite Hfe.
  destruct (Z.eq_dec M (2 ^ 53)) as [E | E].
  - exists (2 ^ 52), (fe + 1). split; [simpl; lia|]. split; [lia|].
    rewrite E, <- !pow2_inject by lia. rewrite <- !pow2_add. f_equiv. lia.
  - exists M, fe. split; [lia|]. split; [lia|]. reflexivity.
Qed.

Lemma round64_is_double q : is_double (round64 q).
Proof.
  destruct (Qlt_le_dec 0 q) as [Hp | Hz].
  - destruct (round64_pos q Hp) as (r & Er & E).
    destruct (round_pos_is_double r) as (m & e & H1 & H2 & H3); [qlra|].
    exists m, e. split; [exact H1|]. split; [exact H2|]. rewrite E. exact H3.
  - destruct (Qlt_le_dec q 0) as [Hn | Hn].
    + destruct (round64_neg q Hn) as (r & Er & E).
      destruct (round_pos_is_double r) as (m & e & H1 & H2 & H3); [qlra|].
      exists (- m), e. split; [rewrite Z.abs_opp; exact H1|]. split; [exact H2|].
      rewrite E, H3, inject_Z_opp. ring.
    + rewrite round64_zero by qlra. exists 0, 0. split; [simpl; lia|]. split; [lia|].
      reflexivity.
Qed.

(** *** fsqrt gives a nearest double to the root *)

Lemma rne_sqrt_near r : (1 <= r)%Q ->
  1 <= rne_sqrt r /\
  ((inject_Z (rne_sqrt r) - (1 # 2)) * (inject_Z (rne_sqrt r) - (1 # 2)) <= r)%Q /\
  (r <= (inject_Z (rne_sqrt r) + (1 # 2)) * (inject_Z (rne_sqrt r) + (1 # 2)))%Q.
Proof.
  intros Hr.
  assert (Hf1 : 1 <= Qfloor r).
  { rewrite <- (Qfloor_Z 1). apply Qfloor_resp_le. exact Hr. }
  pose proof (Z.sqrt_spec (Qfloor r) ltac:(lia)) as [Hk1 Hk2]. cbv zeta in Hk1, Hk2.
  assert (Hk : 1 <= Z.sqrt (Qfloor r)).
  { change 1 with (Z.sqrt 1) at 1. apply Z.sqrt_le_mono. exact Hf1. }
  destruct (Qfloor_bounds r) as [Hlo Hhi].
  set (k := Z.sqrt (Qfloor r)) in *.
  assert (HK : (1 <= inject_Z k)%Q)
    by (change 1%Q with (inject_Z 1); rewrite <- Zle_Qle; exact Hk).
  assert (H1 : (inject_Z k * inject_Z k <= r)%Q).
  { rewrite <- inject_Z_mult.
    assert (inject_Z (k * k) <= inject_Z (Qfloor r))%Q by (rewrite <- Zle_Qle; exact Hk1).
    qlra. }
  assert (H2 : (r < (inject_Z k + 1) * (inject_Z k + 1))%Q).
  { assert (E : ((inject_Z k + 1) * (inject_Z k + 1) == inject_Z (Z.succ k * Z.succ k))%Q).
    { rewrite inject_Z_mult. unfold Z.succ. rewrite inject_Z_plus. reflexivity. }
    rewrite E.
    assert (inject_Z (Qfloor r) + 1 <= inject_Z (Z.succ k * Z.succ k))%Q.
    { change 1%Q with (inject_Z 1). rewrite <- inject_Z_plus, <- Zle_Qle. lia. }
    qlra. }
  assert (Ek : (inject_Z (k + 1) == inject_Z k + 1)%Q) by (rewrite inject_Z_plus; reflexivity).
  unfold rne_sqrt. cbv zeta. fold k.
  destruct (Qcompare_spec r ((inject_Z k + (1 # 2)) * (inject_Z k + (1 # 2))))
    as [C | C | C]; [destruct (Z.even k)| |];
    (split; [lia|]); rewrite ?Ek; split; Lqa.nra.
Qed.

(** The root of [s] lies in the binade of [2^h]; [fsqrt s] is a multiple
    of the spacing [2^(h-52)] of the doubles there and is within half a
    spacing of the root. *)
Lemma fsqrt_near s : (0 < s)%Q ->
  exists (h m : Z),
    (pow2 (2 * h) <= s)%Q /\ (s < pow2 (2 * h + 2))%Q /\
    (fsqrt s == inject_Z m * pow2 (h - 52))%Q /\
    ((fsqrt s - pow2 (h - 53)) * (fsqrt s - pow2 (h - 53)) <= s)%Q /\
    (s <= (fsqrt s + pow2 (h - 53)) * (fsqrt s + pow2 (h - 53)))%Q.
Proof.
  intros Hs. destruct (fsqrt_pos s Hs) as (r & Er & EF).
  assert (Hr : (0 < r)%Q) by qlra.
  destruct (ilog2_spec r Hr) as [Hlo Hhi].
  unfold sqrt_quantum in EF. set (h := ilog2 r / 2) in *.
  assert (Hh : 2 * h <= ilog2 r /\ ilog2 r + 1 <= 2 * h + 2) by (unfold h; dlia).
  set (u := pow2 (h - 52)) in *. pose proof (pow2_pos (h - 52)) as Hu. fold u in Hu.
  assert (Huu : (0 < u * u)%Q) by (apply Qmult_lt_0_compat; exact Hu).
  pose proof (pow2_le _ _ (proj1 Hh)) as P1. pose proof (pow2_le _ _ (proj2 Hh)) as P2.
  set (M := rne_sqrt (r / (u * u))) in *.
  assert (Harg : (1 <= r / (u * u))%Q).
  { apply Qle_shift_div_l; [exact Huu|].
    assert (E : (pow2 104 * (u * u) == pow2 (2 * h))%Q).
    { unfold u. rewrite <- !pow2_add. f_equiv. lia. }
    assert (H1 : (1 * (u * u) <= pow2 104 * (u * u))%Q).
    { apply Qmult_le_compat_r; [vm_compute; discriminate | qlra]. }
    qlra. }
  destruct (rne_sqrt_near _ Harg) as (HM & N1 & N2). fold M in HM, N1, N2.
  assert (Eh : (pow2 (h - 53) == u * (1 # 2))%Q).
  { unfold u. change (1 # 2)%Q with (pow2 (-1)). rewrite <- pow2_add. f_equiv. lia. }
  assert (Ea : (r / (u * u) * (u * u) == r)%Q) by (field; qlra).
  exists h, M. split; [qlra|]. split; [qlra|]. split; [exact EF|].
  rewrite EF, Eh.
  apply (Qmult_le_compat_r _ _ (u * u)) in N1; [|qlra].
  apply (Qmult_le_compat_r _ _ (u * u)) in N2; [|qlra].
  assert (E1 : ((inject_Z M * u - u * (1 # 2)) * (inject_Z M * u - u * (1 # 2)) ==
                (inject_Z M - (1 # 2)) * (inject_Z M - (1 # 2)) * (u * u))%Q) by ring.
  assert (E2 : ((inject_Z M * u + u * (1 # 2)) * (inject_Z M * u + u * (1 # 2)) ==
                (inject_Z M + (1 # 2)) * (inject_Z M + (1 # 2)) * (u * u))%Q) by ring.
  rewrite E1, E2. split; qlra.
Qed.

(** *** Sample values *)

(** 0.1 + 0.2 is 0.30000000000000004, not the double 0.3; 1.5 - 0.3 is
    the double 1.2; ties go to the even neighbour; below [2^-1074] the
    quantum stays [2^-1074]; the root of 2. *)
Example round64_samples :
  fadd (round64 (1 # 10)) (round64 (2 # 10)) = (1351079888211149 # 4503599627370496)%Q /\
  round64 (3 # 10) = (5404319552844595 # 18014398509481984)%Q /\
  fsub (3 # 2) (round64 (3 # 10)) = round64 (12 # 10) /\
  round64 (inject_Z (2 ^ 53 + 1)) = inject_Z (2 ^ 53) /\
  round64 (inject_Z (2 ^ 53 + 3)) = inject_Z (2 ^ 53 + 4) /\
  round64 (pow2 (-1075)) = 0%Q /\
  (round64 (3 * pow2 (-1075)) == pow2 (-1073))%Q /\
  fsqrt 2 = (6369051672525773 # 4503599627370496)%Q /\
  fsqrt (1 # 4) = (1 # 2)%Q.
Proof. repeat split; vm_compute; reflexivity. Qed.

(** *** The constants of the game and the rounding margin *)

Lemma PLAYER_RADIUS_value :
  PLAYER_RADIUS = (3602879701896397 # 18014398509481984)%Q.
Proof. vm_compute. reflexivity. Qed.

Lemma PLAYER_SPEED_value :
  PLAYER_SPEED = (3602879701896397 # 36028797018963968)%Q.
Proof. vm_compute. reflexivity. Qed.

Lemma PLAYER_RADIUS_range :
  (rounding_margin < PLAYER_RADIUS)%Q /\ (PLAYER_RADIUS < (1 # 2) - rounding_margin)%Q.
Proof. rewrite PLAYER_RADIUS_value. split; reflexivity. Qed.

Lemma round64_margin q :
  (- (4294967296) <= q)%Q -> (q <= 4294967296)%Q ->
  (q - rounding_margin <= round64 q)%Q /\ (round64 q <= q + rounding_margin)%Q.
Proof.
  intros H1 H2. destruct (round64_error q 4294967296 H1 H2) as [E1 E2].
  unfold rounding_margin. split; qlra.
Qed.

(** ** The disc query *)

Lemma probe_wall_free g radius x z :
  (radius < 1 # 2)%Q ->
  Forall (is_path g) (probe_cells radius x z) -> wall_free radius g x z.
Proof.
  intros Hr1. unfold probe_cells. rewrite !Forall_cons.
  intros (_ & H1 & H2 & H3 & H4 & _) px pz (Hx1 & Hx2 & Hz1 & Hz2).
  unfold cell_of in *.
  destruct (Qfloor_span (x - radius) (x + radius) px) as [-> | ->];
    [assumption | assumption | qlra | |];
    (destruct (Qfloor_span (z - radius) (z + radius) pz) as [-> | ->];
      [assumption | assumption | qlra | assumption | assumption]).
Qed.

Lemma wall_free_probe g radius x z :
  (0 <= radius)%Q ->
  wall_free radius g x z -> Forall (is_path g) (probe_cells radius x z).
Proof.
  intros Hr0 Hw. unfold probe_cells.
  repeat (apply Forall_cons; split); [..|apply Forall_nil_2];
    apply Hw; unfold in_square; repeat split; qlra.
Qed.

(** A smaller square lies inside a larger one. *)
Lemma wall_free_shrink g radius radius' x z :
  (radius' <= radius)%Q -> wall_free radius g x z -> wall_free radius' g x z.
Proof.
  intros Hle Hw px pz (H1 & H2 & H3 & H4). apply Hw.
  unfold in_square. repeat split; qlra.
Qed.

Section DiscQuery.
Variables (size : Z) (g : grid).
Hypothesis Hg : carved size g.
Hypothesis Hsize : 3 <= size.

Lemma path_is_inner c : is_path g c -> inner size c.
Proof.
  intros Hc. destruct (carved_inner _ _ Hg c Hc) as [-> | H]; [|exact H].
  unfold inner. simpl. lia.
Qed.

Lemma path_cell_int_floor qx qz :
  is_path g (py_int qx, py_int qz) <-> is_path g (Qfloor qx, Qfloor qz).
Proof.
  split; intros Hp; pose proof (path_is_inner _ Hp) as [Hx Hz]; cbn [fst snd] in *.
  - destruct (Qlt_le_dec qx 0) as [Hn | Hn]; [apply py_int_neg in Hn; exfalso; lia|].
    destruct (Qlt_le_dec qz 0) as [Hm | Hm]; [apply py_int_neg in Hm; exfalso; lia|].
    rewrite <- !py_int_nonneg by assumption. exact Hp.
  - assert (0 <= qx)%Q.
    { destruct (Qfloor_bounds qx) as [Hb _].
      assert (inject_Z 0 <= inject_Z (Qfloor qx))%Q by (rewrite <- Zle_Qle; lia).
      change (inject_Z 0) with 0%Q in *. qlra. }
    assert (0 <= qz)%Q.
    { destruct (Qfloor_bounds qz) as [Hb _].
      assert (inject_Z 0 <= inject_Z (Qfloor qz))%Q by (rewrite <- Zle_Qle; lia).
      change (inject_Z 0) with 0%Q in *. qlra. }
    rewrite !py_int_nonneg by assumption. exact Hp.
Qed.

Lemma centre_is_path_spec x z :
  exists b, centre_is_path g x z = Done b /\
            (b = true <-> is_path g (py_int x, py_int z)).
Proof.
  pose proof (carved_square _ _ Hg) as Hsq. pose proof Hsq as [Hlen _].
  unfold centre_is_path. rewrite Hlen.
  destruct (Z.leb_spec 0 (py_int x)), (Z.ltb_spec (py_int x) size); simpl;
    try (exists false; split; [reflexivity|]; split; [discriminate|];
         intros Hp%(grid_at_bounds size); [unfold in_bounds in Hp; simpl in Hp; lia
                                           | assumption]).
  destruct (grid_at_in_bounds size g (0, 0) Hsq) as [v0 Hv0];
    [unfold in_bounds; simpl; lia|].
  apply grid_at_Some in Hv0 as (_ & _ & row0 & Hrow0 & _). simpl in Hrow0.
  rewrite (getitem_lookup g 0 row0) by (assumption || lia). unfold_bind.
  rewrite (square_grid_row _ _ _ _ Hsq Hrow0).
  destruct (Z.leb_spec 0 (py_int z)), (Z.ltb_spec (py_int z) size); simpl;
    try (exists false; split; [reflexivity|]; split; [discriminate|];
         intros Hp%(grid_at_bounds size); [unfold in_bounds in Hp; simpl in Hp; lia
                                           | assumption]).
  destruct (grid_at_in_bounds size g (py_int x, py_int z) Hsq) as [v Hv];
    [unfold in_bounds; simpl; lia|].
  pose proof (getitem2_grid_at _ _ _ Hv) as Hget. simpl in Hget. rewrite Hget.
  exists (v =? PATH). split; [reflexivity|].
  unfold is_path. rewrite Hv. destruct (Z.eqb_spec v PATH); split; congruence.
Qed.

Lemma corners_clear_spec pts :
  Forall (fun p => in_bounds size (py_int (fst p), py_int (snd p))) pts ->
  exists b, corners_clear g pts = Done b /\
            (b = true <-> Forall (fun p => is_path g (py_int (fst p), py_int (snd p))) pts).
Proof.
  pose proof (carved_square _ _ Hg) as Hsq.
  induction 1 as [|[cx cz] pts Hin _ (b & IH & Hb)]; simpl.
  - exists true. split; [reflexivity|]. split; auto.
  - destruct (grid_at_in_bounds size g _ Hsq Hin) as [v Hv].
    pose proof (getitem2_grid_at _ _ _ Hv) as Hget. simpl in Hget, Hv.
    rewrite Hget. unfold_bind.
    destruct (carved_values _ _ Hg _ _ Hv) as [-> | ->]; simpl.
    + exists b. split; [exact IH|]. rewrite Forall_cons, <- Hb. simpl.
      unfold is_path. tauto.
    + exists false. split; [reflexivity|]. split; [discriminate|].
      intros [Hp _]%Forall_cons. simpl in Hp. unfold is_path in Hp.
      rewrite Hv in Hp. discriminate Hp.
Qed.

Hypothesis Hmax : size <= 2147483648.
Variable radius : Q.
Hypothesis Hr0 : (rounding_margin < radius)%Q.
Hypothesis Hr1 : (radius < (1 # 2) - rounding_margin)%Q.

(** A coordinate whose cell is inside the outer ring. *)
Lemma inner_coordinate q :
  0 < py_int q < size - 1 ->
  py_int q = Qfloor q /\ (1 <= q)%Q /\ (q + 1 < inject_Z size)%Q /\
  (inject_Z size <= 2147483648)%Q.
Proof.
  intros Hq.
  destruct (Qlt_le_dec q 0) as [Hn | Hn]; [apply py_int_neg in Hn; exfalso; lia|].
  pose proof (py_int_nonneg q Hn) as E. rewrite E in Hq.
  destruct (Qfloor_bounds q) as [Hlo Hhi].
  assert (H1 : (inject_Z 1 <= inject_Z (Qfloor q))%Q) by (rewrite <- Zle_Qle; lia).
  assert (H2 : (inject_Z (Qfloor q) + 1 <= inject_Z (size - 1))%Q).
  { change 1%Q with (inject_Z 1).
    rewrite <- (inject_Z_plus (Qfloor q) 1). rewrite <- Zle_Qle. lia. }
  pose proof (inject_Z_pred size) as H3.
  assert (H4 : (inject_Z size <= inject_Z 2147483648)%Q) by (rewrite <- Zle_Qle; exact Hmax).
  change (inject_Z 1) with 1%Q in H1. change (inject_Z 2147483648) with 2147483648%Q in H4.
  repeat split; try assumption; qlra.
Qed.

(** Around a PATH centre the corner coordinates that the float
    additions give are within the rounding margin of the exact ones, are
    not negative, and fall in cells of the grid. *)
Lemma corner_coordinate q a :
  0 < py_int q < size - 1 -> (- radius <= a)%Q -> (a <= radius)%Q ->
  (q + a - rounding_margin <= fadd q a)%Q /\ (fadd q a <= q + a + rounding_margin)%Q /\
  py_int (fadd q a) = Qfloor (fadd q a) /\ 0 <= Qfloor (fadd q a) < size.
Proof.
  intros Hq Ha1 Ha2. destruct (inner_coordinate q Hq) as (_ & H1 & H2 & H3).
  assert (Hm : (rounding_margin == 1 # 1048576)%Q) by reflexivity.
  destruct (round64_margin (q + a)) as [E1 E2]; [qlra | qlra|].
  fold (fadd q a) in E1, E2.
  assert (H0 : (0 <= fadd q a)%Q) by qlra.
  split; [exact E1|]. split; [exact E2|]. split; [apply py_int_nonneg; exact H0|].
  split.
  - apply Qfloor_ge. change (inject_Z 0) with 0%Q. exact H0.
  - apply Qfloor_lt. qlra.
Qed.

Lemma can_move_with_spec x z :
  exists b, can_move_with radius g x z = Done b /\
            (b = true <-> Forall (is_path g) (read_cells radius x z)).
Proof.
  unfold can_move_with. rewrite read_cells_eq.
  destruct (centre_is_path_spec x z) as (bc & -> & Hbc). unfold_bind.
  destruct bc.
  - assert (Hc : is_path g (py_int x, py_int z)) by (apply Hbc; reflexivity).
    pose proof (path_is_inner _ Hc) as [Hcx Hcz]. simpl in Hcx, Hcz.
    assert (Hn : (- radius <= - radius)%Q /\ (- radius <= radius)%Q /\
                 (radius <= radius)%Q)
      by (assert (rounding_margin == 1 # 1048576)%Q by reflexivity; repeat split; qlra).
    destruct Hn as (Hn1 & Hn2 & Hn3).
    destruct (corner_coordinate x (- radius) Hcx Hn1 Hn2) as (_ & _ & _ & Bx1).
    destruct (corner_coordinate x radius Hcx Hn2 Hn3) as (_ & _ & _ & Bx2).
    destruct (corner_coordinate z (- radius) Hcz Hn1 Hn2) as (_ & _ & _ & Bz1).
    destruct (corner_coordinate z radius Hcz Hn2 Hn3) as (_ & _ & _ & Bz2).
    destruct (corner_coordinate x (- radius) Hcx Hn1 Hn2) as (_ & _ & Ex1 & _).
    destruct (corner_coordinate x radius Hcx Hn2 Hn3) as (_ & _ & Ex2 & _).
    destruct (corner_coordinate z (- radius) Hcz Hn1 Hn2) as (_ & _ & Ez1 & _).
    destruct (corner_coordinate z radius Hcz Hn2 Hn3) as (_ & _ & Ez2 & _).
    rewrite corner_points_eq.
    destruct (corners_clear_spec
                [(fadd x (- radius), fadd z (- radius)); (fadd x (- radius), fadd z radius);
                 (fadd x radius, fadd z (- radius)); (fadd x radius, fadd z radius)])
      as (b & -> & Hb).
    { repeat (apply Forall_cons; split); [..|apply Forall_nil_2];
        unfold in_bounds; simpl; rewrite ?Ex1, ?Ex2, ?Ez1, ?Ez2; lia. }
    exists b. split; [reflexivity|]. rewrite Hb, !Forall_cons. simpl.
    pose proof (Forall_nil_2 (is_path g)).
    pose proof (Forall_nil_2 (fun p : Q * Q => is_path g (py_int (fst p), py_int (snd p)))).
    tauto.
  - exists false. split; [reflexivity|]. split; [discriminate|].
    intros [Hc _]%Forall_cons. apply Hbc in Hc. discriminate Hc.
Qed.

(** Where the five cells read are PATH, the square shrunk by the
    rounding margin overlaps PATH cells only. *)
Lemma read_cells_wall_free x z :
  Forall (is_path g) (read_cells radius x z) ->
  wall_free (radius - rounding_margin) g x z.
Proof.
  rewrite read_cells_eq, !Forall_cons.
  intros (Hc & H1 & H2 & H3 & H4 & _) px pz (Hx1 & Hx2 & Hz1 & Hz2).
  pose proof (path_is_inner _ Hc) as [Hcx Hcz]. simpl in Hcx, Hcz.
  assert (Hn : (- radius <= - radius)%Q /\ (- radius <= radius)%Q /\
               (radius <= radius)%Q)
    by (assert (rounding_margin == 1 # 1048576)%Q by reflexivity; repeat split; qlra).
  destruct Hn as (Hn1 & Hn2 & Hn3).
  destruct (corner_coordinate x (- radius) Hcx Hn1 Hn2) as (Lx1 & Ux1 & Ex1 & _).
  destruct (corner_coordinate x radius Hcx Hn2 Hn3) as (Lx2 & Ux2 & Ex2 & _).
  destruct (corner_coordinate z (- radius) Hcz Hn1 Hn2) as (Lz1 & Uz1 & Ez1 & _).
  destruct (corner_coordinate z radius Hcz Hn2 Hn3) as (Lz2 & Uz2 & Ez2 & _).
  rewrite Ex1, Ex2, Ez1, Ez2 in *.
  unfold cell_of.
  destruct (Qfloor_span (fadd x (- radius)) (fadd x radius) px) as [-> | ->];
    [qlra | qlra | qlra | |];
    (destruct (Qfloor_span (fadd z (- radius)) (fadd z radius) pz) as [-> | ->];
      [qlra | qlra | qlra | assumption | assumption]).
Qed.
End DiscQuery.

(** ** Scanning for the portal *)

Lemma elem_of_range_down size a : a ∈ range_down size <-> 1 <= a <= size - 1.
Proof. unfold range_down. rewrite elem_of_reverse, elem_of_seqZ. lia. Qed.

(** [range_down] is strictly decreasing. *)
Lemma range_down_split size pre z post :
  range_down size = pre ++ z :: post ->
  (forall a, a ∈ pre -> z < a) /\ (forall a, a ∈ post -> a < z).
Proof.
  unfold range_down. intros H.
  apply (f_equal reverse) in H.
  rewrite reverse_involutive, reverse_app, reverse_cons, <- app_assoc in H.
  simpl in H.
  assert (Hz : z = 1 + Z.of_nat (length post)).
  { pose proof (list_lookup_middle (reverse post) (reverse pre) z (length post)) as Hm.
    rewrite <- H in Hm. rewrite length_reverse in Hm. specialize (Hm eq_refl).
    apply lookup_seqZ in Hm. lia. }
  split; intros a Ha; apply elem_of_reverse, list_elem_of_lookup in Ha as [i Hi].
  - assert (Hl : seqZ 1 (size - 1) !! (length post + S i)%nat = Some a).
    { rewrite H. rewrite lookup_app_r by (rewrite length_reverse; lia).
      rewrite length_reverse.
      replace (length post + S i - length post)%nat with (S i) by lia. exact Hi. }
    apply lookup_seqZ in Hl. lia.
  - assert (Hl : seqZ 1 (size - 1) !! i = Some a).
    { rewrite H. rewrite lookup_app_l; [exact Hi|].
      apply lookup_lt_Some in Hi. exact Hi. }
    pose proof (lookup_lt_Some _ _ _ Hi) as Hlt. rewrite length_reverse in Hlt.
    apply lookup_seqZ in Hl. lia.
Qed.

Section PortalScan.
Variables (size : Z) (g : grid).
Hypothesis Hsq : square_grid size g.

Lemma scan_row_spec x zs :
  0 <= x < size -> Forall (fun z => 0 <= z < size) zs ->
  exists r, scan_row g x zs = Done r /\
    match r with
    | Some c => exists pre z post, zs = pre ++ z :: post /\ c = (x, z) /\
                  is_path g (x, z) /\ forall a, a ∈ pre -> ~ is_path g (x, a)
    | None => forall a, a ∈ zs -> ~ is_path g (x, a)
    end.
Proof.
  intros Hx. induction 1 as [|z zs Hz _ (r & IH & Hr)]; simpl.
  - exists None. split; [reflexivity|]. intros a Ha. apply elem_of_nil in Ha. contradiction.
  - destruct (grid_at_in_bounds size g (x, z) Hsq) as [v Hv];
      [unfold in_bounds; simpl; lia|].
    pose proof (getitem2_grid_at _ _ _ Hv) as Hget. simpl in Hget.
    rewrite Hget. unfold_bind. destruct (Z.eqb_spec v PATH) as [-> | Hne].
    + exists (Some (x, z)). split; [reflexivity|].
      exists [], z, zs. repeat split; [exact Hv|].
      intros a Ha. apply elem_of_nil in Ha. contradiction.
    + exists r. split; [exact IH|].
      assert (Hnz : ~ is_path g (x, z)) by (unfold is_path; congruence).
      destruct r as [c|].
      * destruct Hr as (pre & z' & post & -> & -> & Hp & Hpre).
        exists (z :: pre), z', post. repeat split; [exact Hp|].
        intros a [-> | Ha]%elem_of_cons; auto.
      * intros a [-> | Ha]%elem_of_cons; auto.
Qed.

Lemma scan_rows_spec xs zs :
  Forall (fun x => 0 <= x < size) xs -> Forall (fun z => 0 <= z < size) zs ->
  exists r, scan_rows g xs zs = Done r /\
    match r with
    | Some c => exists prex x postx prez z postz,
                  xs = prex ++ x :: postx /\ zs = prez ++ z :: postz /\
                  c = (x, z) /\ is_path g (x, z) /\
                  (forall a, a ∈ prez -> ~ is_path g (x, a)) /\
                  (forall x' a, x' ∈ prex -> a ∈ zs -> ~ is_path g (x', a))
    | None => forall x' a, x' ∈ xs -> a ∈ zs -> ~ is_path g (x', a)
    end.
Proof.
  intros Hxs Hzs. induction Hxs as [|x xs Hx _ (r & IH & Hr)]; simpl.
  - exists None. split; [reflexivity|]. intros x' a Hx'. apply elem_of_nil in Hx'. contradiction.
  - destruct (scan_row_spec x zs Hx Hzs) as (r1 & -> & Hr1). unfold_bind.
    destruct r1 as [c|].
    + exists (Some c). split; [reflexivity|].
      destruct Hr1 as (prez & z & postz & Ez & -> & Hp & Hpre).
      exists [], x, xs, prez, z, postz. repeat split; auto.
      intros x' a Hx'. apply elem_of_nil in Hx'. contradiction.
    + exists r. split; [exact IH|]. destruct r as [c|].
      * destruct Hr as (prex & x0 & postx & prez & z & postz & -> & Ez & -> & Hp & Hz & Hpre).
        exists (x :: prex), x0, postx, prez, z, postz. repeat split; auto.
        intros x' a [-> | Hx']%elem_of_cons Ha; auto.
      * intros x' a [-> | Hx']%elem_of_cons Ha; auto.
Qed.

(** The scan returns the first PATH cell in its order, or nothing when
    the scanned range holds no PATH cell. *)
Lemma portal_scan_spec :
  exists r, portal_scan size g = Done r /\
    match r with
    | Some (x, z) =>
        1 <= x <= size - 1 /\ 1 <= z <= size - 1 /\ is_path g (x, z) /\
        forall x' z', 1 <= x' <= size - 1 -> 1 <= z' <= size - 1 ->
                      x < x' \/ (x' = x /\ z < z') -> ~ is_path g (x', z')
    | None =>
        forall x' z', 1 <= x' <= size - 1 -> 1 <= z' <= size - 1 -> ~ is_path g (x', z')
    end.
Proof.
  assert (Hrange : Forall (fun z => 0 <= z < size) (range_down size)).
  { apply Forall_forall. intros a Ha%elem_of_range_down. lia. }
  destruct (scan_rows_spec (range_down size) (range_down size) Hrange Hrange)
    as (r & Hscan & Hr).
  exists r. split; [exact Hscan|]. destruct r as [[x z]|].
  - destruct Hr as (prex & x0 & postx & prez & z0 & postz & Ex & Ez & [= -> ->] & Hp & Hz & Hpre).
    destruct (range_down_split _ _ _ _ Ex) as [Hx1 Hx2].
    destruct (range_down_split _ _ _ _ Ez) as [Hz1 Hz2].
    assert (Hxin : x0 ∈ range_down size)
      by (rewrite Ex; apply elem_of_app; right; apply elem_of_cons; auto).
    assert (Hzin : z0 ∈ range_down size)
      by (rewrite Ez; apply elem_of_app; right; apply elem_of_cons; auto).
    apply elem_of_range_down in Hxin, Hzin.
    repeat split; try lia; [exact Hp|].
    intros x' z' Hx' Hz' Hlt.
    assert (Hx'in : x' ∈ range_down size) by (apply elem_of_range_down; lia).
    assert (Hz'in : z' ∈ range_down size) by (apply elem_of_range_down; lia).
    destruct Hlt as [Hlt | [-> Hlt]].
    + apply Hpre; [|exact Hz'in].
      rewrite Ex in Hx'in.
      apply elem_of_app in Hx'in as [? | [-> | Hpost]%elem_of_cons]; [assumption|lia|].
      apply Hx2 in Hpost. lia.
    + apply Hz. rewrite Ez in Hz'in.
      apply elem_of_app in Hz'in as [? | [-> | Hpost]%elem_of_cons]; [assumption|lia|].
      apply Hz2 in Hpost. lia.
  - intros x' z' Hx' Hz'. apply Hr; apply elem_of_range_down; lia.
Qed.
End PortalScan.

(** * The properties *)

Lemma grid5_generated : generated 5 rand0 grid5.
Proof. exists 30%nat. reflexivity. Qed.

(** ** Termination of the carving loop *)

Lemma generate_maze_run_small size rand fuel :
  size < 2 -> exists e, generate_maze_run fuel size rand = Raised e.
Proof.
  intros Hsize. unfold generate_maze_run, np_ones.
  destruct (Z.ltb_spec size 0); [eauto|].
  assert (Hs : size = 0 \/ size = 1) by lia.
  destruct Hs as [-> | ->]; eauto.
Qed.

(** C10. For every grid size and every random stream, the carving loop
    of [generate_maze] stops: with [gen_fuel size] iterations or more the
    run never ends in [OutOfFuel]; for [size >= 2] it ends with the empty
    stack and returns the grid, for [size < 2] it raises before the loop
    is entered. *)
Theorem generate_maze_terminates size rand fuel :
  (gen_fuel size <= fuel)%nat ->
  match generate_maze_run fuel size rand with
  | Done st => 2 <= size /\ stack st = [] /\
               generate_maze fuel size rand = Done (maze st)
  | Raised _ => size < 2
  | OutOfFuel => False
  end.
Proof.
  intros Hfuel. destruct (Z.lt_ge_cases size 2) as [Hlt | Hge].
  - destruct (generate_maze_run_small size rand fuel Hlt) as [e ->]. exact Hlt.
  - destruct (generate_maze_run_ok size rand fuel Hge Hfuel) as (st & Hrun & _ & Hst).
    unfold generate_maze. rewrite Hrun. auto.
Qed.

Lemma generate_maze_terminates_witness :
  (gen_fuel 5 <= 60)%nat /\
  match generate_maze_run 60 5 rand0 with
  | Done st => 2 <= 5 /\ stack st = [] /\ generate_maze 60 5 rand0 = Done (maze st)
  | Raised _ => 5 < 2
  | OutOfFuel => False
  end.
Proof.
  split; [vm_compute; lia|].
  apply (generate_maze_terminates 5 rand0 60). vm_compute. lia.
Defined.

(** ** The maze is perfect *)

(** C2. For every odd size [N >= 5] and every random stream,
    [generate_maze] returns a grid whose PATH cells are all reachable from
    the start cell (1,1) by PATH-only steps, and in which any two PATH
    cells are joined by exactly one simple path (no cycles): the PATH
    cells form a tree under 4-adjacency. *)
Theorem generate_maze_perfect size rand fuel :
  5 <= size -> oddz size -> (gen_fuel size <= fuel)%nat ->
  exists g, generate_maze fuel size rand = Done g /\
    is_path g (1, 1) /\
    connected_from adj4 (is_path g) (1, 1) /\
    is_tree adj4 (is_path g).
Proof.
  intros Hsize _ Hfuel.
  destruct (generate_maze_run_ok size rand fuel) as (st & Hrun & Hinv & _);
    [lia | exact Hfuel |].
  exists (maze st).
  split; [unfold generate_maze; rewrite Hrun; reflexivity|].
  pose proof (carved_start _ _ (inv_carved _ _ Hinv)) as Hstart.
  pose proof (inv_tree _ _ Hinv) as HT.
  split; [exact Hstart|]. split; [|exact HT].
  apply is_tree_connected; assumption.
Qed.

Lemma generate_maze_perfect_witness :
  exists g, generate_maze 60 5 rand0 = Done g /\
    is_path g (1, 1) /\
    connected_from adj4 (is_path g) (1, 1) /\
    is_tree adj4 (is_path g).
Proof.
  apply (generate_maze_perfect 5 rand0 60).
  - lia.
  - reflexivity.
  - vm_compute. lia.
Defined.

(** The same holds for every grid that a run returns, whatever the size
    and the fuel of the run. *)
Lemma generated_perfect size rand g :
  generated size rand g ->
  is_path g (1, 1) /\ connected_from adj4 (is_path g) (1, 1) /\ is_tree adj4 (is_path g).
Proof.
  intros (_ & st & Hinv & _ & <- & _)%generated_inv.
  pose proof (carved_start _ _ (inv_carved _ _ Hinv)) as Hstart.
  pose proof (inv_tree _ _ Hinv) as HT.
  split; [exact Hstart|]. split; [|exact HT].
  apply is_tree_connected; assumption.
Qed.

(** ** Counting the wall removals *)

Lemma generate_maze_run_inv fuel size rand st :
  generate_maze_run fuel size rand = Done st ->
  2 <= size /\ gen_inv size st /\ stack st = [].
Proof.
  intros Hrun. destruct (Z.lt_ge_cases size 2) as [Hlt | Hge].
  { destruct (generate_maze_run_small size rand fuel Hlt) as [e He]. congruence. }
  destruct (generate_maze_run_ok size rand (gen_fuel size) Hge) as (st' & Hrun' & Hinv & Hst);
    [lia|].
  rewrite (generate_maze_run_agree _ _ _ _ _ _ Hrun Hrun'). auto.
Qed.

(** C7, as stated, fails: for size 5 the carve steps clear 3 mid-points
    while the finished grid has 7 PATH cells, and 3 is not 7 - 1. *)
Lemma wall_removals_not_paths_minus_one :
  exists st, generate_maze_run 30 5 rand0 = Done st /\
             length (cleared st) = 3%nat /\ count_path (maze st) = 7%nat /\
             length (cleared st) <> (count_path (maze st) - 1)%nat.
Proof.
  eexists. split; [reflexivity|]. split; [reflexivity|]. split; [reflexivity|].
  vm_compute. discriminate.
Qed.

(** C7, amended. Every carve step clears one mid-point and opens one
    room, so the finished grid has twice as many PATH cells as there were
    wall removals, plus the start cell: the number of wall removals is
    (number of PATH cells - 1) / 2. *)
Theorem wall_removals_count fuel size rand :
  2 <= size -> (gen_fuel size <= fuel)%nat ->
  exists st, generate_maze_run fuel size rand = Done st /\
             count_path (maze st) = (2 * length (cleared st) + 1)%nat /\
             length (cleared st) = draws st.
Proof.
  intros Hsize Hfuel.
  destruct (generate_maze_run_ok size rand fuel Hsize Hfuel) as (st & Hrun & Hinv & _).
  exists st. split; [exact Hrun|].
  split; [apply Hinv | symmetry; apply Hinv].
Qed.

Lemma wall_removals_count_witness :
  exists st, generate_maze_run 400 MAZE_SIZE rand1 = Done st /\
             count_path (maze st) = (2 * length (cleared st) + 1)%nat /\
             length (cleared st) = draws st.
Proof.
  apply (wall_removals_count 400 MAZE_SIZE rand1).
  - vm_compute. discriminate.
  - vm_compute. lia.
Defined.

Example wall_removals_14 :
  exists st, generate_maze_run 400 MAZE_SIZE rand1 = Done st /\
             length (cleared st) = 35%nat /\ count_path (maze st) = 71%nat.
Proof. eexists. split; [vm_compute; reflexivity|]. split; reflexivity. Qed.

(** ** The goal cell *)

Lemma portal_position_first_path_aux size rand g :
  generated size rand g ->
  exists x z, find_valid_portal_position size g = Done (x, z) /\ is_path g (x, z).
Proof.
  intros (Hsize & st & Hinv & _ & <- & _)%generated_inv.
  pose proof (inv_carved _ _ Hinv) as Hg.
  destruct (portal_scan_spec size (maze st) (carved_square _ _ Hg)) as (r & Hscan & Hr).
  unfold find_valid_portal_position. rewrite Hscan. destruct r as [[x z]|].
  - exists x, z. split; [reflexivity | apply Hr].
  - exfalso. apply (Hr 1 1); [lia | lia | apply Hg].
Qed.

(** C8. On every generated grid the scan of [find_valid_portal_position]
    (rows from [N-1] down to 1, in each row columns from [N-1] down to 1)
    finds a PATH cell, and the function returns the first one in that
    order: an in-bounds PATH cell with no PATH cell before it in the scan.
    The final [return (1, 1)] is never reached. *)
Theorem portal_position_first_path size rand g :
  generated size rand g ->
  exists x z,
    portal_scan size g = Done (Some (x, z)) /\
    find_valid_portal_position size g = Done (x, z) /\
    in_bounds size (x, z) /\ 1 <= x /\ 1 <= z /\ is_path g (x, z) /\
    forall x' z', 1 <= x' <= size - 1 -> 1 <= z' <= size - 1 ->
                  x < x' \/ (x' = x /\ z < z') -> ~ is_path g (x', z').
Proof.
  intros (Hsize & st & Hinv & _ & <- & _)%generated_inv.
  pose proof (inv_carved _ _ Hinv) as Hg.
  destruct (portal_scan_spec size (maze st) (carved_square _ _ Hg)) as (r & Hscan & Hr).
  destruct r as [[x z]|].
  - destruct Hr as (Hx & Hz & Hp & Hfirst).
    exists x, z. split; [exact Hscan|].
    split; [unfold find_valid_portal_position; rewrite Hscan; reflexivity|].
    split; [unfold in_bounds; simpl; lia|].
    split; [lia|]. split; [lia|]. split; [exact Hp | exact Hfirst].
  - exfalso. apply (Hr 1 1); [lia | lia | apply Hg].
Qed.

Lemma portal_position_first_path_witness :
  exists x z,
    portal_scan 5 grid5 = Done (Some (x, z)) /\
    find_valid_portal_position 5 grid5 = Done (x, z) /\
    in_bounds 5 (x, z) /\ 1 <= x /\ 1 <= z /\ is_path grid5 (x, z) /\
    forall x' z', 1 <= x' <= 5 - 1 -> 1 <= z' <= 5 - 1 ->
                  x < x' \/ (x' = x /\ z < z') -> ~ is_path grid5 (x', z').
Proof.
  apply (portal_position_first_path 5 rand0 grid5).
  exists 30%nat. reflexivity.
Defined.

Example portal_position_grid5 : find_valid_portal_position 5 grid5 = Done (3, 3).
Proof. reflexivity. Qed.

(** ** Construction and its errors *)

(** C3, as stated, fails: the program's own size, [MAZE_SIZE = 14], is
    even and the construction succeeds; so does the construction for the
    size 3, which is below 5. *)
Lemma Maze_init_even_size_no_error :
  evenz MAZE_SIZE /\
  (exists m, Maze_init (gen_fuel MAZE_SIZE) MAZE_SIZE rand0 = Done m) /\
  ~ (exists e, Maze_init (gen_fuel MAZE_SIZE) MAZE_SIZE rand0 = Raised e) /\
  (exists m, Maze_init (gen_fuel 3) 3 rand0 = Done m).
Proof.
  split; [reflexivity|]. split; [eexists; vm_compute; reflexivity|].
  split; [|eexists; vm_compute; reflexivity].
  intros [e He]. vm_compute in He. discriminate He.
Qed.

(** C3, amended. [Maze(size)] checks nothing about the size and has no
    configuration error.  It succeeds for every [size >= 2], odd or even;
    it fails exactly for [size < 2], with the array library's own error:
    IndexError for sizes 0 and 1 (cell (1,1) does not exist), ValueError
    for a negative size. *)
Theorem Maze_init_outcome size rand fuel :
  (gen_fuel size <= fuel)%nat ->
  match Maze_init fuel size rand with
  | Done m => 2 <= size /\ maze_size m = size /\ generated size rand (maze_grid m) /\
              is_path (maze_grid m) (portal_pos m)
  | Raised e => size < 2 /\ e = (if size <? 0 then ValueError else IndexError)
  | OutOfFuel => False
  end.
Proof.
  intros Hfuel. unfold Maze_init.
  destruct (Z.lt_ge_cases size 2) as [Hlt | Hge].
  - rewrite (generate_maze_small size rand fuel Hlt). unfold_bind.
    split; [exact Hlt | reflexivity].
  - destruct (generate_maze_run_ok size rand fuel Hge Hfuel) as (st & Hrun & _ & _).
    assert (Hgen : generate_maze fuel size rand = Done (maze st))
      by (unfold generate_maze; rewrite Hrun; reflexivity).
    assert (Hgd : generated size rand (maze st)) by (exists fuel; exact Hgen).
    rewrite Hgen. unfold_bind.
    destruct (portal_position_first_path_aux size rand (maze st) Hgd)
      as (x & z & -> & Hp).
    simpl. auto.
Qed.

Lemma Maze_init_outcome_witness :
  exists m, Maze_init (gen_fuel MAZE_SIZE) MAZE_SIZE rand1 = Done m /\
            maze_size m = MAZE_SIZE /\ is_path (maze_grid m) (portal_pos m).
Proof.
  pose proof (Maze_init_outcome MAZE_SIZE rand1 (gen_fuel MAZE_SIZE) (le_n _)) as H.
  destruct (Maze_init (gen_fuel MAZE_SIZE) MAZE_SIZE rand1) as [m| |].
  - exists m. split; [reflexivity|]. destruct H as (_ & H1 & _ & H2). auto.
  - exfalso. destruct H as [H _]. vm_compute in H. discriminate H.
  - contradiction.
Defined.

(** ** The disc query fails closed *)

Lemma centre_is_path_at n g x z v :
  square_grid n g -> grid_at g (py_int x, py_int z) = Some v ->
  centre_is_path g x z = Done (v =? PATH).
Proof.
  intros Hsq Hv. pose proof (grid_at_bounds _ _ _ _ Hsq Hv) as [Hx Hz].
  simpl in Hx, Hz. pose proof Hsq as [Hlen _].
  unfold centre_is_path. rewrite Hlen.
  destruct (Z.leb_spec 0 (py_int x)); [|lia].
  destruct (Z.ltb_spec (py_int x) n); [|lia]. simpl.
  destruct (grid_at_in_bounds n g (0, 0) Hsq) as [v0 Hv0];
    [unfold in_bounds; simpl; lia|].
  apply grid_at_Some in Hv0 as (_ & _ & row0 & Hrow0 & _). simpl in Hrow0.
  rewrite (getitem_lookup g 0 row0) by (assumption || lia). unfold_bind.
  rewrite (square_grid_row _ _ _ _ Hsq Hrow0).
  destruct (Z.leb_spec 0 (py_int z)); [|lia].
  destruct (Z.ltb_spec (py_int z) n); [|lia]. simpl.
  pose proof (getitem2_grid_at _ _ _ Hv) as Hget. simpl in Hget. rewrite Hget.
  reflexivity.
Qed.

Lemma corners_clear_wall g pre p post :
  Forall (fun q => is_path g (py_int (fst q), py_int (snd q))) pre ->
  is_wall g (py_int (fst p), py_int (snd p)) ->
  corners_clear g (pre ++ p :: post) = Done false.
Proof.
  intros Hpre Hp. induction Hpre as [|[cx cz] pre Hq _ IH]; simpl.
  - destruct p as [cx cz].
    pose proof (getitem2_grid_at _ _ _ Hp) as Hget. simpl in Hget. rewrite Hget.
    reflexivity.
  - pose proof (getitem2_grid_at _ _ _ Hq) as Hget. simpl in Hget. rewrite Hget.
    unfold_bind. simpl. exact IH.
Qed.

Lemma corners_clear_path g pts :
  Forall (fun q => is_path g (py_int (fst q), py_int (snd q))) pts ->
  corners_clear g pts = Done true.
Proof.
  induction 1 as [|[cx cz] pts Hq _ IH]; simpl; [reflexivity|].
  pose proof (getitem2_grid_at _ _ _ Hq) as Hget. simpl in Hget. rewrite Hget.
  unfold_bind. simpl. exact IH.
Qed.

(** The query answers [True] where the centre cell and the cells read
    for the corners are PATH. *)
Lemma can_move_with_read n g radius x z :
  square_grid n g ->
  Forall (is_path g) (read_cells radius x z) ->
  can_move_with radius g x z = Done true.
Proof.
  intros Hsq. unfold read_cells. rewrite Forall_cons, Forall_fmap.
  intros [Hc Hpts]. unfold can_move_with.
  rewrite (centre_is_path_at n g x z PATH Hsq Hc). unfold_bind. simpl Z.eqb.
  apply corners_clear_path. exact Hpts.
Qed.

(** C4, as stated, fails: [can_move] looks at the cells of the corner
    coordinates as the float additions give them, and these need not be
    the cells that contain the corners.  At x = 1.2 (the double below
    12/10) the sum [x + -0.2] is rounded to 1.0: the query reads cell
    (1,1) and answers [True], while the corner [x - 0.2] lies below 1, in
    the WALL cell (0,1). *)
Lemma can_move_true_beside_wall :
  generate_maze 30 5 rand0 = Done grid5 /\
  can_move grid5 (round64 (12 # 10)) (15 # 10) = Done true /\
  is_wall grid5 (cell_of (round64 (12 # 10) - PLAYER_RADIUS) ((15 # 10) - PLAYER_RADIUS)) /\
  ~ Forall (fun c => in_bounds 5 c /\ is_path grid5 c)
           (probe_cells PLAYER_RADIUS (round64 (12 # 10)) (15 # 10)).
Proof.
  split; [reflexivity|]. split; [vm_compute; reflexivity|].
  split; [vm_compute; reflexivity|].
  intros HF. apply Forall_cons in HF as [_ HF]. apply Forall_cons in HF as [[_ H] _].
  vm_compute in H. discriminate H.
Qed.

(** C4, amended.  On every generated grid of side from 3 to 2^31 and for
    every query position, [can_move] returns without raising.  It
    returns [True] exactly if the cell of the centre and the cells of the
    four corner coordinates, as the float additions [x + -R], [x + R],
    [z + -R], [z + R] give them, are in-bounds PATH cells; the square of
    half-width [R - 2^-20] around the position then overlaps PATH cells
    only.  It returns [False] whenever one of the five cells read lies
    outside the grid. *)
Theorem can_move_fail_closed size rand g x z :
  3 <= size -> size <= 2147483648 -> generated size rand g ->
  exists b, can_move g x z = Done b /\
    (b = true <->
     Forall (fun c => in_bounds size c /\ is_path g c) (read_cells PLAYER_RADIUS x z)) /\
    (Exists (fun c => ~ in_bounds size c) (read_cells PLAYER_RADIUS x z) -> b = false) /\
    (b = true -> wall_free (PLAYER_RADIUS - rounding_margin) g x z).
Proof.
  intros Hsize Hmax (_ & st & Hinv & _ & <- & _)%generated_inv.
  pose proof (inv_carved _ _ Hinv) as Hg.
  destruct PLAYER_RADIUS_range as [Hr0 Hr1].
  destruct (can_move_with_spec size (maze st) Hg Hsize Hmax PLAYER_RADIUS Hr0 Hr1 x z)
    as (b & Hb & Hiff).
  assert (Hiff' : b = true <->
            Forall (fun c => in_bounds size c /\ is_path (maze st) c)
                   (read_cells PLAYER_RADIUS x z)).
  { rewrite Hiff. split; intros HF; (eapply Forall_impl; [exact HF|]); [|simpl; tauto].
    intros c Hc. split; [|exact Hc].
    eapply grid_at_bounds; [apply Hg | exact Hc]. }
  exists b. split; [exact Hb|]. split; [exact Hiff'|]. split.
  - intros Hex. destruct b; [|reflexivity].
    exfalso. assert (Hall := proj1 Hiff' eq_refl).
    rewrite Forall_forall in Hall. apply Exists_exists in Hex as (c & Hc & Hout).
    apply Hout, (Hall c Hc).
  - intros Ht.
    apply (read_cells_wall_free size (maze st) Hg Hsize Hmax PLAYER_RADIUS Hr0 Hr1).
    apply Hiff, Ht.
Qed.

Lemma can_move_fail_closed_witness :
  exists b, can_move grid5 (9 # 2) (3 # 2) = Done b /\
    (b = true <->
     Forall (fun c => in_bounds 5 c /\ is_path grid5 c)
            (read_cells PLAYER_RADIUS (9 # 2) (3 # 2))) /\
    (Exists (fun c => ~ in_bounds 5 c) (read_cells PLAYER_RADIUS (9 # 2) (3 # 2)) ->
     b = false) /\
    (b = true -> wall_free (PLAYER_RADIUS - rounding_margin) grid5 (9 # 2) (3 # 2)).
Proof.
  apply (can_move_fail_closed 5 rand0 grid5).
  - lia.
  - lia.
  - exists 30%nat. reflexivity.
Defined.

Example can_move_outside : can_move grid5 (9 # 2) (3 # 2) = Done false.
Proof. vm_compute. reflexivity. Qed.

Example can_move_start : can_move grid5 (3 # 2) (3 # 2) = Done true.
Proof. vm_compute. reflexivity. Qed.

(** The bound on the size is needed: in the grid of side 2 the start cell
    (1,1) lies on the outer ring, and a corner of the square can leave
    the array, where the read raises. *)
Example can_move_size_2 :
  generate_maze 10 2 rand0 = Done [[1; 1]; [1; 0]] /\
  can_move [[1; 1]; [1; 0]] (15 # 8) (3 # 2) = Raised IndexError.
Proof. split; vm_compute; reflexivity. Qed.

(** ** Collision containment *)

Section Containment.
Variables (size : Z) (g : grid) (radius : Q).
Hypothesis Hg : carved size g.
Hypothesis Hsize : 3 <= size.
Hypothesis Hmax : size <= 2147483648.
Hypothesis Hr0 : (rounding_margin < radius)%Q.
Hypothesis Hr1 : (radius < (1 # 2) - rounding_margin)%Q.

Lemma can_move_with_wall_free x z :
  exists b, can_move_with radius g x z = Done b /\
            (b = true -> wall_free (radius - rounding_margin) g x z).
Proof.
  destruct (can_move_with_spec size g Hg Hsize Hmax radius Hr0 Hr1 x z) as (b & Hb & Hiff).
  exists b. split; [exact Hb|]. intros Ht.
  apply (read_cells_wall_free size g Hg Hsize Hmax radius Hr0 Hr1). apply Hiff, Ht.
Qed.

Lemma move_with_contained c0 c dx dz :
  wall_free (radius - rounding_margin) g (cam_x c) (cam_z c) ->
  kept_or_tested radius g c0 c ->
  exists c', move_with radius g c dx dz = Done c' /\
             wall_free (radius - rounding_margin) g (cam_x c') (cam_z c') /\
             kept_or_tested radius g c0 c'.
Proof.
  intros Hc Hk. unfold move_with.
  destruct (can_move_with_wall_free (fadd (cam_x c) dx) (cam_z c)) as (b1 & E1 & H1).
  rewrite E1. unfold_bind.
  set (c1 := if b1 then set_x c (fadd (cam_x c) dx) else c).
  assert (Hc1 : wall_free (radius - rounding_margin) g (cam_x c1) (cam_z c1) /\
                kept_or_tested radius g c0 c1).
  { unfold c1. destruct b1; [|split; assumption].
    split; [apply H1; reflexivity|]. right. exact E1. }
  destruct Hc1 as [Hc1 Hk1].
  destruct (can_move_with_wall_free (cam_x c1) (fadd (cam_z c) dz)) as (b2 & E2 & H2).
  rewrite E2. eexists. split; [reflexivity|].
  destruct b2; [|split; assumption].
  split; [apply H2; reflexivity|]. right. exact E2.
Qed.

Lemma moves_with_contained c0 l : forall c,
  wall_free (radius - rounding_margin) g (cam_x c) (cam_z c) ->
  kept_or_tested radius g c0 c ->
  exists c', moves_with radius g c l = Done c' /\
             wall_free (radius - rounding_margin) g (cam_x c') (cam_z c') /\
             kept_or_tested radius g c0 c'.
Proof.
  induction l as [|[dx dz] l IH]; intros c Hc Hk; simpl.
  - eauto.
  - destruct (move_with_contained c0 c dx dz Hc Hk) as (c1 & -> & Hc1 & Hk1). unfold_bind.
    apply IH; assumption.
Qed.
End Containment.

Lemma wall_free_no_overlap radius g x z :
  wall_free radius g x z -> ~ overlaps_wall radius g x z.
Proof.
  intros Hw (px & pz & Hin & Hwall).
  exact (is_wall_not_path _ _ Hwall (Hw px pz Hin)).
Qed.

Lemma rounding_margin_pos : (0 < rounding_margin)%Q.
Proof. reflexivity. Qed.

Lemma Camera_init_wall_free : wall_free PLAYER_RADIUS grid5 (cam_x Camera_init) (cam_z Camera_init).
Proof.
  apply probe_wall_free; [apply Qlt_trans with ((1 # 2) - rounding_margin)%Q;
                          [apply PLAYER_RADIUS_range | reflexivity]|].
  repeat (apply Forall_cons; split); [..|apply Forall_nil_2]; vm_compute; reflexivity.
Qed.

(** C1, as stated, fails: a move is committed when the cells of the
    rounded corner coordinates are PATH, and the square itself can then
    reach into a WALL cell.  From the start (1.5, 1.5) the call
    [move(-0.3, 0)] is committed, since at the new x = 1.2 the sum
    [x + -0.2] is rounded to 1.0; the edge [x - 0.2] of the square is
    below 1, inside the WALL cell (0,1). *)
Lemma move_reaches_wall_by_rounding :
  generate_maze 30 5 rand0 = Done grid5 /\
  wall_free PLAYER_RADIUS grid5 (cam_x Camera_init) (cam_z Camera_init) /\
  exists c', moves_with PLAYER_RADIUS grid5 Camera_init [(round64 (-3 # 10), 0%Q)] = Done c' /\
             cam_x c' = round64 (12 # 10) /\
             overlaps_wall PLAYER_RADIUS grid5 (cam_x c') (cam_z c').
Proof.
  split; [reflexivity|]. split; [exact Camera_init_wall_free|].
  eexists. split; [vm_compute; reflexivity|]. split; [vm_compute; reflexivity|].
  exists (round64 (12 # 10) - PLAYER_RADIUS)%Q, (3 # 2)%Q. split.
  - unfold in_square. cbn [cam_x cam_z]. rewrite PLAYER_RADIUS_value.
    repeat split; vm_compute; discriminate.
  - vm_compute. reflexivity.
Qed.

(** C1, amended.  On every generated grid of side from 3 to 2^31, for
    every collision radius [2^-20 < R < 1/2 - 2^-20] and every start whose
    collision square overlaps only in-bounds PATH cells, every finite
    sequence of [move] calls runs without raising and ends either at the
    start or at a position where [can_move] answers [True]; the square
    of half-width [R - 2^-20] around the final position overlaps only
    in-bounds PATH cells, hence no WALL cell. *)
Theorem move_collision_containment size rand g radius c l :
  3 <= size -> size <= 2147483648 -> generated size rand g ->
  (rounding_margin < radius)%Q -> (radius < (1 # 2) - rounding_margin)%Q ->
  wall_free radius g (cam_x c) (cam_z c) ->
  exists c', moves_with radius g c l = Done c' /\
             kept_or_tested radius g c c' /\
             wall_free (radius - rounding_margin) g (cam_x c') (cam_z c') /\
             ~ overlaps_wall (radius - rounding_margin) g (cam_x c') (cam_z c').
Proof.
  intros Hsize Hmax (_ & st & Hinv & _ & <- & _)%generated_inv Hr0 Hr1 Hc.
  pose proof (inv_carved _ _ Hinv) as Hg.
  pose proof rounding_margin_pos as Hm.
  destruct (moves_with_contained size (maze st) radius Hg Hsize Hmax Hr0 Hr1 c l c)
    as (c' & Hrun & Hc' & Hk).
  { apply (wall_free_shrink _ radius); [qlra | exact Hc]. }
  { left. split; reflexivity. }
  exists c'. split; [exact Hrun|]. split; [exact Hk|]. split; [exact Hc'|].
  apply wall_free_no_overlap, Hc'.
Qed.

Lemma move_collision_containment_witness :
  exists c', moves_with PLAYER_RADIUS grid5 Camera_init
               [((1 # 8)%Q, (1 # 8)%Q); ((0 # 1)%Q, (1 # 1)%Q); ((-3 # 1)%Q, (0 # 1)%Q)] = Done c' /\
             kept_or_tested PLAYER_RADIUS grid5 Camera_init c' /\
             wall_free (PLAYER_RADIUS - rounding_margin) grid5 (cam_x c') (cam_z c') /\
             ~ overlaps_wall (PLAYER_RADIUS - rounding_margin) grid5 (cam_x c') (cam_z c').
Proof.
  apply (move_collision_containment 5 rand0 grid5).
  - lia.
  - lia.
  - exists 30%nat. reflexivity.
  - apply PLAYER_RADIUS_range.
  - apply PLAYER_RADIUS_range.
  - exact Camera_init_wall_free.
Defined.

(** ** The wall-sliding scenario *)

(** C5, as stated, fails: with the program's radius 0.2 the far edge of
    the square after the z-move is at 2.9, still inside cell (2,2), so the
    z-move is committed as well and z does not stay near 2.4. *)
Lemma wall_slide_z_not_blocked :
  is_path slide_grid (2, 2) /\ is_wall slide_grid (2, 3) /\ is_path slide_grid (3, 2) /\
  exists c', move slide_grid (camera_at (round64 (24 # 10)) (round64 (24 # 10)))
                  (round64 (3 # 10)) (round64 (3 # 10)) = Done c' /\
             approx (cam_z c') (27 # 10) /\ ~ approx (cam_z c') (24 # 10).
Proof.
  split; [reflexivity|]. split; [reflexivity|]. split; [reflexivity|].
  eexists. split; [vm_compute; reflexivity|]. split.
  - split; vm_compute; discriminate.
  - intros [_ H]. vm_compute in H. apply H. reflexivity.
Qed.

Lemma slide_read_cells :
  read_cells PLAYER_RADIUS (fadd (round64 (24 # 10)) (round64 (3 # 10))) (round64 (24 # 10))
    = [(2, 2); (2, 2); (2, 2); (2, 2); (2, 2)] /\
  read_cells PLAYER_RADIUS (fadd (round64 (24 # 10)) (round64 (3 # 10)))
                           (fadd (round64 (24 # 10)) (round64 (3 # 10)))
    = [(2, 2); (2, 2); (2, 2); (2, 2); (2, 2)].
Proof. split; vm_compute; reflexivity. Qed.

(** C5, amended.  On a grid where cell (2,2) is PATH, cell (2,3) is WALL
    and cell (3,2) is PATH, a player at (2.4, 2.4) who calls
    [move(+0.3, +0.3)] ends with x and z both at the double
    [2.4 + 0.3], within 2^-50 of 2.7: both axis moves are committed. *)
Theorem wall_slide_scenario n g :
  square_grid n g ->
  is_path g (2, 2) -> is_wall g (2, 3) -> is_path g (3, 2) ->
  exists c', move g (camera_at (round64 (24 # 10)) (round64 (24 # 10)))
                  (round64 (3 # 10)) (round64 (3 # 10)) = Done c' /\
             cam_x c' = fadd (round64 (24 # 10)) (round64 (3 # 10)) /\
             cam_z c' = fadd (round64 (24 # 10)) (round64 (3 # 10)) /\
             approx (cam_x c') (27 # 10) /\ approx (cam_z c') (27 # 10).
Proof.
  intros Hsq H22 _ _. destruct slide_read_cells as [E1 E2].
  set (x0 := round64 (24 # 10)) in *. set (d := round64 (3 # 10)) in *.
  assert (Hall : Forall (is_path g) [(2, 2); (2, 2); (2, 2); (2, 2); (2, 2)])
    by (repeat (apply Forall_cons; split); [..|apply Forall_nil_2]; exact H22).
  assert (Hx : can_move g (fadd x0 d) x0 = Done true).
  { apply (can_move_with_read n); [exact Hsq|]. rewrite E1. exact Hall. }
  assert (Hz : can_move g (fadd x0 d) (fadd x0 d) = Done true).
  { apply (can_move_with_read n); [exact Hsq|]. rewrite E2. exact Hall. }
  exists (camera_at (fadd x0 d) (fadd x0 d)).
  split; [|split; [reflexivity|split; [reflexivity|]]].
  - unfold move, move_with. cbn [cam_x cam_z camera_at].
    unfold can_move in Hx, Hz. rewrite Hx. unfold_bind.
    cbn [cam_x cam_z set_x]. rewrite Hz. reflexivity.
  - cbn [cam_x cam_z camera_at]. split; split; vm_compute; discriminate.
Qed.

Lemma wall_slide_scenario_witness :
  exists c', move slide_grid (camera_at (round64 (24 # 10)) (round64 (24 # 10)))
                  (round64 (3 # 10)) (round64 (3 # 10)) = Done c' /\
             cam_x c' = fadd (round64 (24 # 10)) (round64 (3 # 10)) /\
             cam_z c' = fadd (round64 (24 # 10)) (round64 (3 # 10)) /\
             approx (cam_x c') (27 # 10) /\ approx (cam_z c') (27 # 10).
Proof.
  apply (wall_slide_scenario 5 slide_grid).
  - split; [reflexivity|]. repeat (apply Forall_cons; split); [..|apply Forall_nil_2]; reflexivity.
  - reflexivity.
  - reflexivity.
  - reflexivity.
Defined.

(** With [move(+0.3, +0.4)] the z-move is blocked: the sum [2.8 + 0.2]
    is rounded to 3.0, in the WALL cell (2,3). *)
Example wall_slide_blocked :
  exists c', move slide_grid (camera_at (round64 (24 # 10)) (round64 (24 # 10)))
                  (round64 (3 # 10)) (round64 (4 # 10)) = Done c' /\
             cam_z c' = round64 (24 # 10).
Proof. eexists. split; vm_compute; reflexivity. Qed.

(** ** The portal threshold *)

Lemma Qsquare_lt_quarter (d : Q) :
  (d * d < 1 # 4)%Q -> (- (1 # 2) < d)%Q /\ (d < 1 # 2)%Q.
Proof. intros H. split; Lqa.nra. Qed.

Lemma Qsquare_ge_quarter (d : Q) :
  (1 # 2 <= d)%Q \/ (d <= - (1 # 2))%Q -> (1 # 4 <= d * d)%Q.
Proof. intros [H | H]; Lqa.nra. Qed.

Lemma Qsquare_nonneg (d : Q) : (0 <= d * d)%Q.
Proof. Lqa.nra. Qed.

Lemma Qsquare_close (a b e : Q) :
  (b - e <= a)%Q -> (a <= b + e)%Q ->
  (-1 <= a)%Q -> (a <= 1)%Q -> (-1 <= b)%Q -> (b <= 1)%Q ->
  (b * b - 2 * e <= a * a)%Q /\ (a * a <= b * b + 2 * e)%Q.
Proof. intros. split; Lqa.nra. Qed.

Lemma Qlt_bool_iff a b : Qlt_bool a b = true <-> (a < b)%Q.
Proof.
  unfold Qlt_bool. destruct (Qle_bool b a) eqn:E; simpl.
  - apply Qle_bool_iff in E. split; [discriminate | intros H; exfalso; qlra].
  - split; [|reflexivity]. intros _. apply Qnot_le_lt. intros H.
    apply Qle_bool_iff in H. congruence.
Qed.

(** The square root does not change the outcome of the comparison: the
    test is on the rounded sum of the rounded squares. *)
Lemma check_portal_collision_sum c p :
  check_portal_collision c p = true <-> (portal_sum c p < 1 # 4)%Q.
Proof.
  unfold check_portal_collision. cbv zeta. rewrite Qlt_bool_iff. split.
  - intros H. apply Qnot_le_lt. intros Hge.
    pose proof (fsqrt_ge_half _ Hge). qlra.
  - intros H. apply fsqrt_lt_half. unfold portal_sum in *. cbv zeta in *.
    apply round64_below_quarter. exact H.
Qed.

(** A difference of a half or more on one axis: the test is false. *)
Lemma portal_sum_axis a b :
  (1 # 2 <= a)%Q \/ (a <= - (1 # 2))%Q ->
  (1 # 4 <= fadd (fmul (round64 a) (round64 a)) (fmul (round64 b) (round64 b)))%Q /\
  (1 # 4 <= fadd (fmul (round64 b) (round64 b)) (fmul (round64 a) (round64 a)))%Q.
Proof.
  intros Ha.
  assert (Hfa : (1 # 2 <= round64 a)%Q \/ (round64 a <= - (1 # 2))%Q).
  { destruct Ha as [H | H]; [left | right].
    - apply (round64_ge_pow2 a (-1)); [lia | exact H].
    - apply (round64_le_neg_pow2 a (-1)); [lia | exact H]. }
  assert (Hsa : (1 # 4 <= fmul (round64 a) (round64 a))%Q).
  { apply (round64_ge_pow2 _ (-2)); [lia|]. apply Qsquare_ge_quarter, Hfa. }
  assert (Hsb : (0 <= fmul (round64 b) (round64 b))%Q)
    by (apply round64_nonneg, Qsquare_nonneg).
  split; apply (round64_ge_pow2 _ (-2)); try lia;
    change (pow2 (-2)) with (1 # 4)%Q; qlra.
Qed.

Lemma check_portal_collision_axis c p :
  (1 # 2 <= cam_x c - inject_Z (fst p))%Q \/ (cam_x c - inject_Z (fst p) <= - (1 # 2))%Q \/
  (1 # 2 <= cam_z c - inject_Z (snd p))%Q \/ (cam_z c - inject_Z (snd p) <= - (1 # 2))%Q ->
  check_portal_collision c p = false.
Proof.
  intros H. apply not_true_is_false. rewrite check_portal_collision_sum.
  unfold portal_sum, fsub. cbv zeta.
  assert (H' : ((1 # 2 <= cam_x c - inject_Z (fst p))%Q \/
                (cam_x c - inject_Z (fst p) <= - (1 # 2))%Q) \/
               ((1 # 2 <= cam_z c - inject_Z (snd p))%Q \/
                (cam_z c - inject_Z (snd p) <= - (1 # 2))%Q)) by tauto.
  destruct H' as [Hx | Hz].
  - destruct (portal_sum_axis _ (cam_z c - inject_Z (snd p)) Hx) as [E _]. qlra.
  - destruct (portal_sum_axis _ (cam_x c - inject_Z (fst p)) Hz) as [_ E]. qlra.
Qed.

(** The rounded square of a rounded difference of at most a half is
    within 2^-51 of the exact square. *)
Lemma fmul_square_close d :
  (- (1 # 2) <= d)%Q -> (d <= 1 # 2)%Q ->
  (d * d - (1 # 2251799813685248) <= fmul (round64 d) (round64 d))%Q /\
  (fmul (round64 d) (round64 d) <= d * d + (1 # 2251799813685248))%Q.
Proof.
  intros H1 H2.
  destruct (round64_error d (1 # 2)) as [E1 E2]; [qlra | qlra|].
  destruct (Qsquare_close (round64 d) d (1 # 9007199254740992)) as [S1 S2];
    try qlra.
  set (f := round64 d) in *.
  assert (Hff : (0 <= f * f)%Q /\ (f * f <= 1)%Q) by (split; Lqa.nra).
  destruct (round64_error (f * f) 1) as [F1 F2]; [qlra | qlra|].
  fold (fmul f f) in F1, F2. split; qlra.
Qed.

Lemma check_portal_collision_near c p :
  (portal_distance2 c p <= (1 # 4) - (1 # 281474976710656))%Q ->
  check_portal_collision c p = true.
Proof.
  intros H. rewrite check_portal_collision_sum.
  unfold portal_distance2 in H. unfold portal_sum, fsub. cbv zeta.
  set (dx := (cam_x c - inject_Z (fst p))%Q) in *.
  set (dz := (cam_z c - inject_Z (snd p))%Q) in *.
  pose proof (Qsquare_nonneg dx). pose proof (Qsquare_nonneg dz).
  destruct (Qsquare_lt_quarter dx) as [Hx1 Hx2]; [qlra|].
  destruct (Qsquare_lt_quarter dz) as [Hz1 Hz2]; [qlra|].
  destruct (fmul_square_close dx) as [A1 A2]; [qlra | qlra|].
  destruct (fmul_square_close dz) as [B1 B2]; [qlra | qlra|].
  set (a := fmul (round64 dx) (round64 dx)) in *.
  set (b := fmul (round64 dz) (round64 dz)) in *.
  destruct (round64_error (a + b) 1) as [_ F]; [qlra | qlra|].
  fold (fadd a b) in F. qlra.
Qed.




(** ** The draws that matter *)

Lemma wall_count_room n g c :
  square_grid n g -> is_wall g c -> (count_path g < Z.to_nat (n * n))%nat.
Proof.
  intros Hsq Hc.
  pose proof (count_path_le n _ (square_grid_update n g c PATH Hsq)) as Hle.
  rewrite (count_path_update g c Hc) in Hle. lia.
Qed.

Section Determinism.
Variables (size : Z) (rand rand' : nat -> nat).
Hypothesis Hrand : forall k, (k < Z.to_nat (size * size))%nat -> rand k = rand' k.

(** A carve step happens only while a wall is left, and then fewer than
    [size * size] draws have been made. *)
Lemma gen_step_agree st top rest :
  gen_inv size st ->
  gen_step size rand st top rest = gen_step size rand' st top rest.
Proof.
  intros Hinv. pose proof (carved_square _ _ (inv_carved _ _ Hinv)) as Hsq.
  destruct top as [x y]. unfold gen_step.
  destruct (filter_walls_spec size (maze st) (candidates x y) Hsq) as (nbs & -> & Hnbs).
  unfold_bind. destruct nbs as [|c0 l]; [reflexivity|].
  assert (Hc0 : is_wall (maze st) c0).
  { apply (Hnbs c0). apply elem_of_cons. left. reflexivity. }
  pose proof (wall_count_room size _ c0 Hsq Hc0) as Hlt.
  rewrite (inv_count _ _ Hinv), <- (inv_draws _ _ Hinv) in Hlt.
  unfold choice. rewrite Hrand by lia. reflexivity.
Qed.

Lemma gen_loop_agree fuel st :
  gen_inv size st ->
  gen_loop fuel size rand st = gen_loop fuel size rand' st.
Proof.
  revert st. induction fuel as [|fuel IH]; intros st Hinv; simpl; [reflexivity|].
  destruct (stack st) as [|top rest] eqn:Hst; [reflexivity|].
  rewrite <- (gen_step_agree st top rest Hinv).
  destruct (gen_step_inv size rand st top rest Hinv Hst) as (st1 & -> & Hinv1 & _).
  unfold_bind. apply IH, Hinv1.
Qed.

(** The maze depends on the first [size * size] draws at most. *)
Lemma generate_maze_agree fuel :
  generate_maze fuel size rand = generate_maze fuel size rand'.
Proof.
  destruct (Z.lt_ge_cases size 2) as [Hlt | Hge].
  - rewrite !generate_maze_small by assumption. reflexivity.
  - unfold generate_maze, generate_maze_run.
    destruct (gen_inv_init size Hge) as (m0 & E0 & E1 & Hinv).
    rewrite E0. unfold_bind. rewrite E1.
    rewrite (gen_loop_agree fuel _ Hinv). reflexivity.
Qed.
End Determinism.

(** Different draws do give different mazes. *)
Example generate_maze_depends_on_draws :
  generate_maze 60 5 rand0 <> generate_maze 60 5 rand1.
Proof. vm_compute. discriminate. Qed.

(** * Further properties *)

(** ** The walls that are never carved *)

Lemma carved_wall size g c :
  carved size g -> in_bounds size c -> ~ is_path g c -> is_wall g c.
Proof.
  intros Hg Hin Hnp.
  destruct (grid_at_in_bounds size g c (carved_square _ _ Hg) Hin) as [v Hv].
  destruct (carved_values _ _ Hg _ _ Hv) as [-> | ->]; [contradiction | exact Hv].
Qed.

(** X1. In every generated grid of side at least 3 the outer ring is
    WALL, and so is every cell whose two indices are even: the maze is
    closed and its pillars stand. *)
Theorem generated_ring_and_pillars size rand g c :
  generated size rand g -> 3 <= size -> in_bounds size c ->
  ~ inner size c \/ (evenz (fst c) /\ evenz (snd c)) ->
  is_wall g c.
Proof.
  intros (_ & st & Hinv & _ & <- & _)%generated_inv Hsize Hin Hc.
  pose proof (inv_carved _ _ Hinv) as Hg.
  apply (carved_wall size); [exact Hg | exact Hin |].
  intros Hp. destruct Hc as [Hni | [He1 He2]].
  - apply Hni. apply (path_is_inner size _ Hg Hsize). exact Hp.
  - destruct (carved_parity _ _ Hg _ Hp) as [Ho | Ho];
      unfold oddz, evenz in *; dlia.
Qed.

Lemma generated_ring_and_pillars_witness :
  is_wall grid5 (4, 2) /\ is_wall grid5 (2, 2).
Proof.
  split.
  - apply (generated_ring_and_pillars 5 rand0 grid5 (4, 2)).
    + exists 30%nat. reflexivity.
    + lia.
    + unfold in_bounds. simpl. lia.
    + left. unfold inner. simpl. lia.
  - apply (generated_ring_and_pillars 5 rand0 grid5 (2, 2)).
    + exists 30%nat. reflexivity.
    + lia.
    + unfold in_bounds. simpl. lia.
    + right. split; reflexivity.
Defined.

(** ** Every room is carved *)

Lemma gen_step_pop_candidates size rand st top rest st' :
  square_grid size (maze st) ->
  gen_step size rand st top rest = Done st' -> stack st' = rest ->
  forall c, c ∈ candidates (fst top) (snd top) -> inner size c ->
            ~ is_wall (maze st) c.
Proof.
  intros Hsq Hstep Hstack c Hc Hin Hw. destruct top as [x y].
  unfold gen_step in Hstep.
  destruct (filter_walls_spec size (maze st) (candidates x y) Hsq) as (nbs & E & Hnbs).
  rewrite E in Hstep. unfold_bind. destruct nbs as [|c0 l].
  - assert (Hin' : c ∈ @nil cell) by (apply Hnbs; auto).
    apply elem_of_nil in Hin'. exact Hin'.
  - destruct (choice rand (draws st) c0 l) as [nx ny].
    destruct (setitem2 (maze st) _ _ PATH) as [m1| |]; try discriminate Hstep.
    destruct (setitem2 m1 nx ny PATH) as [m2| |]; try discriminate Hstep.
    injection Hstep as <-. simpl in Hstack.
    apply (f_equal length) in Hstack. simpl in Hstack. lia.
Qed.

Lemma grid_at_carve_any size g top nb c :
  square_grid size g -> in_bounds size nb ->
  in_bounds size ((fst top + fst nb) / 2, (snd top + snd nb) / 2) ->
  grid_at (carve g top nb) c =
  if decide (c = nb) then Some PATH
  else if decide (c = ((fst top + fst nb) / 2, (snd top + snd nb) / 2)) then Some PATH
       else grid_at g c.
Proof.
  intros Hsq Hnb Hmid. unfold carve.
  rewrite (grid_at_update size) by (first [apply square_grid_update, Hsq | exact Hnb]).
  case_decide; [reflexivity|].
  apply (grid_at_update size); assumption.
Qed.

Lemma path_is_inner_or_start size g c :
  carved size g -> is_path g c -> 1 <= fst c /\ 1 <= snd c.
Proof.
  intros Hg Hc. destruct (carved_inner _ _ Hg c Hc) as [-> | H].
  - simpl. lia.
  - unfold inner in H. lia.
Qed.

Lemma gen_step_closed size rand st top rest st' :
  gen_inv size st -> rooms_closed size st -> stack st = top :: rest ->
  gen_step size rand st top rest = Done st' ->
  rooms_closed size st'.
Proof.
  intros Hinv Hcl Hst Hstep.
  pose proof (inv_carved _ _ Hinv) as Hg.
  pose proof (carved_square _ _ Hg) as Hsq.
  pose proof (inv_stack _ _ Hinv) as Hstack. rewrite Hst in Hstack.
  apply Forall_cons in Hstack as [(Htop & Hox & Hoy) _].
  destruct (gen_step_spec size rand st top rest Hsq) as (st1 & Hstep1 & Heff).
  rewrite Hstep in Hstep1. injection Hstep1 as <-.
  destruct Heff as [(Hm & Hs & _ & _) | (d & nb & Hd & Hnb & Hin & Hwall & Hm & Hs & _ & _)].
  - pose proof (gen_step_pop_candidates _ _ _ _ _ _ Hsq Hstep Hs) as Hpop.
    intros c Hc Ho1 Ho2. rewrite Hm in Hc. rewrite Hm, Hs.
    destruct (Hcl c Hc Ho1 Ho2) as [Hin | Hclosed]; [|right; exact Hclosed].
    rewrite Hst in Hin. apply elem_of_cons in Hin as [-> | Hin]; [|left; exact Hin].
    right. intros d Hd Hinner.
    destruct (decide (grid_at (maze st) (fst top + fst d, snd top + snd d) = Some PATH))
      as [Hp | Hnp]; [exact Hp|].
    exfalso. apply (Hpop (fst top + fst d, snd top + snd d)).
    + apply elem_of_candidates. eauto.
    + exact Hinner.
    + apply (carved_wall size); [exact Hg | apply inner_in_bounds, Hinner | exact Hnp].
  - assert (Hmid : in_bounds size ((fst top + fst nb) / 2, (snd top + snd nb) / 2)).
    { pose proof (path_is_inner_or_start size _ top Hg Htop) as Ht.
      unfold inner, in_bounds in *. rewrite Hnb in *. simpl in *.
      unfold directions in Hd.
      repeat (apply elem_of_cons in Hd as [-> | Hd]); simpl in *;
        [dlia .. | apply elem_of_nil in Hd; contradiction]. }
    assert (Hat := fun c => grid_at_carve_any size (maze st) top nb c Hsq
                              (inner_in_bounds _ _ Hin) Hmid).
    rewrite <- Hm in Hat.
    assert (Hmono : forall c, is_path (maze st) c -> is_path (maze st') c).
    { intros c Hc. unfold is_path. rewrite Hat. repeat case_decide; auto. }
    intros c Hc Ho1 Ho2. rewrite Hs.
    unfold is_path in Hc. rewrite Hat in Hc.
    destruct (decide (c = nb)) as [-> | Hne]; [left; apply elem_of_cons; auto|].
    destruct (decide (c = ((fst top + fst nb) / 2, (snd top + snd nb) / 2)))
      as [-> | Hne2].
    + exfalso. unfold oddz in *. rewrite Hnb in *. simpl in *.
      unfold directions in Hd.
      repeat (apply elem_of_cons in Hd as [-> | Hd]); simpl in *;
        [dlia .. | apply elem_of_nil in Hd; contradiction].
    + destruct (Hcl c Hc Ho1 Ho2) as [Hcin | Hclosed].
      * left. rewrite Hst in Hcin. apply elem_of_cons. right. exact Hcin.
      * right. intros d' Hd' Hinner. apply Hmono, Hclosed; assumption.
Qed.

Lemma gen_loop_closed size rand fuel : forall st st',
  gen_inv size st -> rooms_closed size st ->
  gen_loop fuel size rand st = Done st' ->
  rooms_closed size st' /\ stack st' = [].
Proof.
  induction fuel as [|fuel IH]; intros st st' Hinv Hcl Hrun; simpl in Hrun.
  - destruct (stack st) eqn:Hst; [|discriminate Hrun].
    injection Hrun as <-. auto.
  - destruct (stack st) as [|top rest] eqn:Hst.
    + injection Hrun as <-. auto.
    + destruct (gen_step_inv size rand st top rest Hinv Hst) as (st1 & Hstep & Hinv1 & _).
      rewrite Hstep in Hrun. unfold_bind.
      apply (IH st1 st' Hinv1); [|exact Hrun].
      exact (gen_step_closed size rand st top rest st1 Hinv Hcl Hst Hstep).
Qed.

Lemma generated_rooms_closed size rand g :
  generated size rand g ->
  carved size g /\
  forall c, is_path g c -> oddz (fst c) -> oddz (snd c) ->
    forall d, d ∈ directions -> inner size (fst c + fst d, snd c + snd d) ->
              is_path g (fst c + fst d, snd c + snd d).
Proof.
  intros Hgen. destruct (generated_inv _ _ _ Hgen) as (Hsize & st & Hinv & Hst & <- & Hrun).
  split; [apply Hinv|].
  specialize (Hrun (gen_fuel size) (le_n _)). unfold generate_maze_run in Hrun.
  destruct (gen_inv_init size Hsize) as (m0 & E0 & E1 & Hinv0).
  rewrite E0 in Hrun. unfold_bind. rewrite E1 in Hrun.
  assert (Hcl0 : rooms_closed size
                   {| maze := update m0 (1, 1) PATH; stack := [(1, 1)];
                      draws := 0; cleared := [] |}).
  { intros c Hc _ _. left. simpl. apply elem_of_cons. left.
    simpl in Hc. unfold is_path in Hc.
    unfold np_ones in E0. destruct (size <? 0); [discriminate E0|].
    injection E0 as <-.
    rewrite (grid_at_update size) in Hc;
      [| apply square_grid_ones; lia | unfold in_bounds; simpl; lia].
    case_decide; [assumption|]. apply grid_at_ones in Hc. discriminate Hc. }
  destruct (gen_loop_closed _ _ _ _ _ Hinv0 Hcl0 Hrun) as [Hcl _].
  intros c Hc Ho1 Ho2. destruct (Hcl c Hc Ho1 Ho2) as [Hin | Hclosed]; [|exact Hclosed].
  rewrite Hst in Hin. apply elem_of_nil in Hin. contradiction.
Qed.

Lemma closed_rooms_all size g :
  carved size g ->
  (forall c, is_path g c -> oddz (fst c) -> oddz (snd c) ->
     forall d, d ∈ directions -> inner size (fst c + fst d, snd c + snd d) ->
               is_path g (fst c + fst d, snd c + snd d)) ->
  forall (k : nat) x y, x + y <= Z.of_nat k ->
    inner size (x, y) -> oddz x -> oddz y -> is_path g (x, y).
Proof.
  intros Hg Hcl. induction k as [|k IH]; intros x y Hk [Hx Hy] Ho1 Ho2;
    simpl in Hx, Hy; [lia|].
  destruct (decide (x = 1 /\ y = 1)) as [[-> ->] | Hne]; [apply Hg|].
  assert (Hcase : 3 <= x \/ (x = 1 /\ 3 <= y))
    by (unfold oddz in *; dlia).
  destruct Hcase as [Hx3 | [-> Hy3]].
  - assert (Hp : is_path g (x - 2, y)).
    { apply IH; [lia | unfold inner; simpl; lia | unfold oddz in *; dlia | exact Ho2]. }
    specialize (Hcl (x - 2, y) Hp). simpl in Hcl.
    assert (Hox : oddz (x - 2)) by (unfold oddz in *; dlia).
    specialize (Hcl Hox Ho2 (2, 0)). simpl in Hcl.
    replace (x - 2 + 2) with x in Hcl by lia. replace (y + 0) with y in Hcl by lia.
    apply Hcl; [unfold directions; repeat constructor | unfold inner; simpl; lia].
  - assert (Hp : is_path g (1, y - 2)).
    { apply IH; [lia | unfold inner; simpl; lia | exact Ho1 | unfold oddz in *; dlia]. }
    specialize (Hcl (1, y - 2) Hp). simpl in Hcl.
    assert (Hoy : oddz (y - 2)) by (unfold oddz in *; dlia).
    specialize (Hcl Ho1 Hoy (0, 2)). simpl in Hcl.
    replace (y - 2 + 2) with y in Hcl by lia.
    apply Hcl; [unfold directions; repeat constructor | unfold inner; simpl; lia].
Qed.

(** X2. The carving reaches every room: in every generated grid each
    inner cell whose two indices are odd is PATH. *)
Theorem generated_rooms_carved size rand g c :
  generated size rand g ->
  inner size c -> oddz (fst c) -> oddz (snd c) -> is_path g c.
Proof.
  intros Hgen Hin Ho1 Ho2. destruct (generated_rooms_closed _ _ _ Hgen) as [Hg Hcl].
  destruct c as [x y].
  apply (closed_rooms_all size g Hg Hcl (Z.to_nat (x + y))); auto.
  unfold inner in Hin. simpl in Hin. lia.
Qed.

Lemma generated_rooms_carved_witness : is_path grid5 (3, 1).
Proof.
  apply (generated_rooms_carved 5 rand0 grid5 (3, 1)).
  - exists 30%nat. reflexivity.
  - unfold inner. simpl. lia.
  - reflexivity.
  - reflexivity.
Defined.

(** ** Where the portal is *)

Lemma far_room_spec size :
  3 <= size ->
  exists r, far_room size = (r, r) /\ oddz r /\ 1 <= r <= size - 2 /\ size - 3 <= r.
Proof.
  intros Hsize. unfold far_room, oddz. pose proof (Zmod_odd size) as Hm.
  destruct (Z.odd size); eexists; (split; [reflexivity|]); dlia.
Qed.

(** X3. On every generated grid of side at least 3 the portal is put in
    the far corner room, whatever the random draws: at [(N-2, N-2)] for an
    odd side and at [(N-3, N-3)] for an even one. *)
Theorem portal_is_far_room size rand g :
  generated size rand g -> 3 <= size ->
  find_valid_portal_position size g = Done (far_room size).
Proof.
  intros Hgen Hsize.
  destruct (generated_rooms_closed _ _ _ Hgen) as [Hg Hcl].
  destruct (far_room_spec size Hsize) as (r & -> & Hodd & Hr & Hr3).
  assert (Hroom : is_path g (r, r)).
  { apply (closed_rooms_all size g Hg Hcl (Z.to_nat (r + r))); auto; [lia|].
    unfold inner. simpl. lia. }
  destruct (portal_scan_spec size g (carved_square _ _ Hg)) as (res & Hscan & Hres).
  unfold find_valid_portal_position. rewrite Hscan. unfold_bind.
  destruct res as [[x z]|]; [|exfalso; apply (Hres r r); [lia | lia | exact Hroom]].
  destruct Hres as (Hx & Hz & Hp & Hfirst). simpl. do 2 f_equal.
  - (* the row *)
    destruct (Z.lt_trichotomy x r) as [Hlt | [-> | Hgt]]; [|reflexivity|].
    + exfalso. apply (Hfirst r r); [lia | lia | left; exact Hlt | exact Hroom].
    + exfalso. pose proof (path_is_inner size g Hg Hsize _ Hp) as [Hix _].
      simpl in Hix.
      destruct (carved_mid_x _ _ Hg x z Hp) as [_ Hnext];
        [unfold evenz, oddz in *; dlia|].
      apply (path_is_inner size g Hg Hsize) in Hnext as [Hn _]. simpl in Hn. lia.
  - (* the column *)
    destruct (Z.lt_trichotomy x r) as [Hlt | [-> | Hgt]].
    + exfalso. apply (Hfirst r r); [lia | lia | left; exact Hlt | exact Hroom].
    + destruct (Z.lt_trichotomy z r) as [Hlt | [-> | Hgt]]; [|reflexivity|].
      * exfalso. apply (Hfirst r r); [lia | lia | right; split; [reflexivity | exact Hlt]
                                     | exact Hroom].
      * exfalso. pose proof (path_is_inner size g Hg Hsize _ Hp) as [_ Hiz].
        simpl in Hiz.
        destruct (carved_mid_y _ _ Hg r z Hp) as [_ Hnext];
          [unfold evenz, oddz in *; dlia|].
        apply (path_is_inner size g Hg Hsize) in Hnext as [_ Hn]. simpl in Hn. lia.
    + exfalso. pose proof (path_is_inner size g Hg Hsize _ Hp) as [Hix _].
      simpl in Hix.
      destruct (carved_mid_x _ _ Hg x z Hp) as [_ Hnext];
        [unfold evenz, oddz in *; dlia|].
      apply (path_is_inner size g Hg Hsize) in Hnext as [Hn _]. simpl in Hn. lia.
Qed.

Lemma portal_is_far_room_witness :
  find_valid_portal_position 5 grid5 = Done (far_room 5).
Proof.
  apply (portal_is_far_room 5 rand0 grid5).
  - exists 30%nat. reflexivity.
  - lia.
Defined.

Example far_room_14 : far_room MAZE_SIZE = (11, 11).
Proof. reflexivity. Qed.

(** X4. A constructed maze can be won: its portal cell is joined to the
    cell (1,1), in which the camera starts, by a simple path of PATH
    cells. *)
Theorem portal_reachable fuel size rand :
  2 <= size -> (gen_fuel size <= fuel)%nat ->
  exists m l,
    Maze_init fuel size rand = Done m /\
    cell_of (cam_x Camera_init) (cam_z Camera_init) = (1, 1) /\
    simple_path adj4 (is_path (maze_grid m)) (1, 1) (portal_pos m) l.
Proof.
  intros Hsize Hfuel. unfold Maze_init.
  destruct (generate_maze_run_ok size rand fuel Hsize Hfuel) as (st & Hrun & _ & _).
  assert (Hgen : generate_maze fuel size rand = Done (maze st))
    by (unfold generate_maze; rewrite Hrun; reflexivity).
  assert (Hgd : generated size rand (maze st)) by (exists fuel; exact Hgen).
  rewrite Hgen. unfold_bind.
  destruct (portal_position_first_path_aux size rand (maze st) Hgd) as (x & z & -> & Hp).
  destruct (generated_perfect size rand (maze st) Hgd) as (Hstart & _ & HT).
  destruct (HT (1, 1) (x, z) Hstart Hp) as (l & Hl & _).
  eexists. exists l. split; [reflexivity|]. split; [reflexivity | exact Hl].
Qed.

Lemma portal_reachable_witness :
  exists m l,
    Maze_init 400 MAZE_SIZE rand1 = Done m /\
    cell_of (cam_x Camera_init) (cam_z Camera_init) = (1, 1) /\
    simple_path adj4 (is_path (maze_grid m)) (1, 1) (portal_pos m) l.
Proof.
  apply (portal_reachable 400 MAZE_SIZE rand1).
  - vm_compute. discriminate.
  - vm_compute. lia.
Defined.

(** X5. On any square grid [find_valid_portal_position] returns without
    raising.  It never looks at row 0 or column 0; when the rest of the
    grid has a PATH cell it returns the first one of its scan, and when
    it has none it returns (1,1), PATH or not. *)
Theorem find_valid_portal_position_any size g :
  square_grid size g ->
  exists c, find_valid_portal_position size g = Done c /\
    ((1 <= fst c <= size - 1 /\ 1 <= snd c <= size - 1 /\ is_path g c /\
      forall x' z', 1 <= x' <= size - 1 -> 1 <= z' <= size - 1 ->
                    fst c < x' \/ (x' = fst c /\ snd c < z') -> ~ is_path g (x', z')) \/
     (c = (1, 1) /\
      forall x' z', 1 <= x' <= size - 1 -> 1 <= z' <= size - 1 -> ~ is_path g (x', z'))).
Proof.
  intros Hsq. destruct (portal_scan_spec size g Hsq) as (res & Hscan & Hres).
  unfold find_valid_portal_position. rewrite Hscan. unfold_bind.
  destruct res as [[x z]|]; simpl; eexists; (split; [reflexivity|]).
  - left. exact Hres.
  - right. split; [reflexivity | exact Hres].
Qed.

Lemma find_valid_portal_position_any_witness :
  exists c, find_valid_portal_position 3 [[0; 0; 0]; [0; 1; 1]; [0; 1; 1]] = Done c /\
    ((1 <= fst c <= 3 - 1 /\ 1 <= snd c <= 3 - 1 /\
      is_path [[0; 0; 0]; [0; 1; 1]; [0; 1; 1]] c /\
      forall x' z', 1 <= x' <= 3 - 1 -> 1 <= z' <= 3 - 1 ->
                    fst c < x' \/ (x' = fst c /\ snd c < z') ->
                    ~ is_path [[0; 0; 0]; [0; 1; 1]; [0; 1; 1]] (x', z')) \/
     (c = (1, 1) /\
      forall x' z', 1 <= x' <= 3 - 1 -> 1 <= z' <= 3 - 1 ->
                    ~ is_path [[0; 0; 0]; [0; 1; 1]; [0; 1; 1]] (x', z'))).
Proof.
  apply (find_valid_portal_position_any 3 [[0; 0; 0]; [0; 1; 1]; [0; 1; 1]]).
  split; [reflexivity|].
  repeat (apply Forall_cons; split); [..|apply Forall_nil_2]; reflexivity.
Defined.

Example portal_fallback_is_wall :
  find_valid_portal_position 3 [[0; 0; 0]; [0; 1; 1]; [0; 1; 1]] = Done (1, 1) /\
  is_wall [[0; 0; 0]; [0; 1; 1]; [0; 1; 1]] (1, 1).
Proof. split; reflexivity. Qed.

(** ** Where the player can be *)

Lemma wall_free_bounds size g radius x z :
  carved size g -> 3 <= size -> (0 <= radius)%Q ->
  wall_free radius g x z ->
  (inject_Z 1 + radius <= x)%Q /\ (x + radius < inject_Z (size - 1))%Q /\
  (inject_Z 1 + radius <= z)%Q /\ (z + radius < inject_Z (size - 1))%Q.
Proof.
  intros Hg Hsize Hr Hw.
  assert (Hlo : forall px pz, in_square radius x z px pz ->
                  (inject_Z 1 <= px)%Q /\ (px < inject_Z (size - 1))%Q /\
                  (inject_Z 1 <= pz)%Q /\ (pz < inject_Z (size - 1))%Q).
  { intros px pz Hin. specialize (Hw px pz Hin).
    apply (path_is_inner size g Hg Hsize) in Hw as [Hx Hz]. simpl in Hx, Hz.
    destruct (Qfloor_bounds px) as [Hx1 Hx2]. destruct (Qfloor_bounds pz) as [Hz1 Hz2].
    assert (inject_Z 1 <= inject_Z (Qfloor px))%Q by (rewrite <- Zle_Qle; lia).
    assert (inject_Z 1 <= inject_Z (Qfloor pz))%Q by (rewrite <- Zle_Qle; lia).
    assert (inject_Z (Qfloor px) + 1 <= inject_Z (size - 1))%Q.
    { change 1%Q with (inject_Z 1). rewrite <- inject_Z_plus, <- Zle_Qle. lia. }
    assert (inject_Z (Qfloor pz) + 1 <= inject_Z (size - 1))%Q.
    { change 1%Q with (inject_Z 1). rewrite <- inject_Z_plus, <- Zle_Qle. lia. }
    repeat split; qlra. }
  destruct (Hlo (x - radius)%Q (z - radius)%Q) as (H1 & _ & H3 & _);
    [unfold in_square; repeat split; qlra|].
  destruct (Hlo (x + radius)%Q (z + radius)%Q) as (_ & H2 & _ & H4);
    [unfold in_square; repeat split; qlra|].
  repeat split; qlra.
Qed.

(** X6. The player stays inside the maze: on a generated grid of side
    from 3 to 2^31, after any sequence of moves from a valid start both
    coordinates lie between [1 + (R - 2^-20)] and [N - 1 - (R - 2^-20)]. *)
Theorem moves_stay_inside size rand g radius c l :
  3 <= size -> size <= 2147483648 -> generated size rand g ->
  (rounding_margin < radius)%Q -> (radius < (1 # 2) - rounding_margin)%Q ->
  wall_free radius g (cam_x c) (cam_z c) ->
  exists c', moves_with radius g c l = Done c' /\
    (inject_Z 1 + (radius - rounding_margin) <= cam_x c')%Q /\
    (cam_x c' + (radius - rounding_margin) < inject_Z (size - 1))%Q /\
    (inject_Z 1 + (radius - rounding_margin) <= cam_z c')%Q /\
    (cam_z c' + (radius - rounding_margin) < inject_Z (size - 1))%Q.
Proof.
  intros Hsize Hmax (_ & st & Hinv & _ & <- & _)%generated_inv Hr0 Hr1 Hc.
  pose proof (inv_carved _ _ Hinv) as Hg.
  pose proof rounding_margin_pos as Hm.
  destruct (moves_with_contained size (maze st) radius Hg Hsize Hmax Hr0 Hr1 c l c)
    as (c' & Hrun & Hc' & _).
  { apply (wall_free_shrink _ radius); [qlra | exact Hc]. }
  { left. split; reflexivity. }
  exists c'. split; [exact Hrun|].
  apply (wall_free_bounds size (maze st)); auto. qlra.
Qed.

Lemma moves_stay_inside_witness :
  exists c', moves_with PLAYER_RADIUS grid5 Camera_init
               [((-1 # 1)%Q, (0 # 1)%Q); ((0 # 1)%Q, (3 # 1)%Q)] = Done c' /\
    (inject_Z 1 + (PLAYER_RADIUS - rounding_margin) <= cam_x c')%Q /\
    (cam_x c' + (PLAYER_RADIUS - rounding_margin) < inject_Z (5 - 1))%Q /\
    (inject_Z 1 + (PLAYER_RADIUS - rounding_margin) <= cam_z c')%Q /\
    (cam_z c' + (PLAYER_RADIUS - rounding_margin) < inject_Z (5 - 1))%Q.
Proof.
  apply (moves_stay_inside 5 rand0 grid5).
  - lia.
  - lia.
  - exists 30%nat. reflexivity.
  - apply PLAYER_RADIUS_range.
  - apply PLAYER_RADIUS_range.
  - exact Camera_init_wall_free.
Defined.

(** ** Steps that cannot jump a wall *)

Lemma wall_free_segment_x radius g lo hi x z :
  (0 <= radius)%Q -> (hi - lo < 1 + 2 * radius)%Q ->
  (lo <= x)%Q -> (x <= hi)%Q ->
  wall_free radius g lo z -> wall_free radius g hi z -> wall_free radius g x z.
Proof.
  intros Hr Hd Hlo Hhi Hwlo Hwhi px pz (Hx1 & Hx2 & Hz1 & Hz2).
  destruct (Qlt_le_dec (lo + radius) px) as [Ha | Ha];
    [|apply Hwlo; unfold in_square; repeat split; qlra].
  destruct (Qlt_le_dec px (hi - radius)) as [Hb | Hb];
    [|apply Hwhi; unfold in_square; repeat split; qlra].
  unfold cell_of.
  destruct (Qfloor_span (lo + radius) (hi - radius) px) as [-> | ->]; try qlra.
  - apply (Hwlo (lo + radius)%Q pz). unfold in_square. repeat split; qlra.
  - apply (Hwhi (hi - radius)%Q pz). unfold in_square. repeat split; qlra.
Qed.

Lemma wall_free_segment_z radius g lo hi x z :
  (0 <= radius)%Q -> (hi - lo < 1 + 2 * radius)%Q ->
  (lo <= z)%Q -> (z <= hi)%Q ->
  wall_free radius g x lo -> wall_free radius g x hi -> wall_free radius g x z.
Proof.
  intros Hr Hd Hlo Hhi Hwlo Hwhi px pz (Hx1 & Hx2 & Hz1 & Hz2).
  destruct (Qlt_le_dec (lo + radius) pz) as [Ha | Ha];
    [|apply Hwlo; unfold in_square; repeat split; qlra].
  destruct (Qlt_le_dec pz (hi - radius)) as [Hb | Hb];
    [|apply Hwhi; unfold in_square; repeat split; qlra].
  unfold cell_of.
  destruct (Qfloor_span (lo + radius) (hi - radius) pz) as [-> | ->]; try qlra.
  - apply (Hwlo px (lo + radius)%Q). unfold in_square. repeat split; qlra.
  - apply (Hwhi px (hi - radius)%Q). unfold in_square. repeat split; qlra.
Qed.

Lemma wall_free_between_x radius g a b x z :
  (0 <= radius)%Q -> (- (1 + 2 * radius) < b - a)%Q -> (b - a < 1 + 2 * radius)%Q ->
  between a b x ->
  wall_free radius g a z -> wall_free radius g b z -> wall_free radius g x z.
Proof.
  intros Hr Hd1 Hd2 [[H1 H2] | [H1 H2]] Ha Hb.
  - apply (wall_free_segment_x radius g a b); auto.
  - apply (wall_free_segment_x radius g b a); auto. qlra.
Qed.

Lemma wall_free_between_z radius g a b x z :
  (0 <= radius)%Q -> (- (1 + 2 * radius) < b - a)%Q -> (b - a < 1 + 2 * radius)%Q ->
  between a b z ->
  wall_free radius g x a -> wall_free radius g x b -> wall_free radius g x z.
Proof.
  intros Hr Hd1 Hd2 [[H1 H2] | [H1 H2]] Ha Hb.
  - apply (wall_free_segment_z radius g a b); auto.
  - apply (wall_free_segment_z radius g b a); auto. qlra.
Qed.

(** The float sum of a coordinate inside the grid and a step of
    magnitude at most 2 is within the rounding margin of the exact sum. *)
Lemma fadd_step size q d :
  size <= 2147483648 ->
  (inject_Z 1 <= q)%Q -> (q < inject_Z (size - 1))%Q -> (-2 <= d)%Q -> (d <= 2)%Q ->
  (q + d - rounding_margin <= fadd q d)%Q /\ (fadd q d <= q + d + rounding_margin)%Q.
Proof.
  intros Hmax H1 H2 H3 H4.
  assert (H5 : (inject_Z (size - 1) <= inject_Z 2147483648)%Q) by (rewrite <- Zle_Qle; lia).
  change (inject_Z 1) with 1%Q in H1. change (inject_Z 2147483648) with 2147483648%Q in H5.
  apply round64_margin; qlra.
Qed.

Lemma move_with_legs size g radius c dx dz :
  carved size g -> 3 <= size -> size <= 2147483648 ->
  (rounding_margin < radius)%Q -> (radius < (1 # 2) - rounding_margin)%Q ->
  wall_free (radius - rounding_margin) g (cam_x c) (cam_z c) ->
  (- (1 + 2 * radius - 3 * rounding_margin) < dx)%Q ->
  (dx < 1 + 2 * radius - 3 * rounding_margin)%Q ->
  (- (1 + 2 * radius - 3 * rounding_margin) < dz)%Q ->
  (dz < 1 + 2 * radius - 3 * rounding_margin)%Q ->
  exists c', move_with radius g c dx dz = Done c' /\
    (forall x, between (cam_x c) (cam_x c') x ->
               wall_free (radius - rounding_margin) g x (cam_z c)) /\
    (forall z, between (cam_z c) (cam_z c') z ->
               wall_free (radius - rounding_margin) g (cam_x c') z) /\
    wall_free (radius - rounding_margin) g (cam_x c') (cam_z c').
Proof.
  intros Hg Hsize Hmax Hr0 Hr1 Hc Hx1 Hx2 Hz1 Hz2.
  pose proof rounding_margin_pos as Hm.
  assert (Hr : (0 <= radius - rounding_margin)%Q) by qlra.
  destruct (wall_free_bounds size g _ _ _ Hg Hsize Hr Hc) as (Bx1 & Bx2 & Bz1 & Bz2).
  destruct (fadd_step size (cam_x c) dx Hmax) as [Fx1 Fx2]; try qlra.
  destruct (fadd_step size (cam_z c) dz Hmax) as [Fz1 Fz2]; try qlra.
  unfold move_with.
  destruct (can_move_with_wall_free size g radius Hg Hsize Hmax Hr0 Hr1
              (fadd (cam_x c) dx) (cam_z c)) as (b1 & -> & H1).
  unfold_bind.
  set (c1 := if b1 then set_x c (fadd (cam_x c) dx) else c).
  assert (Hc1 : wall_free (radius - rounding_margin) g (cam_x c1) (cam_z c)).
  { unfold c1. destruct b1; [apply H1; reflexivity | exact Hc]. }
  assert (Hcz : cam_z c1 = cam_z c) by (unfold c1; destruct b1; reflexivity).
  assert (Hdx : (- (1 + 2 * (radius - rounding_margin)) < cam_x c1 - cam_x c)%Q /\
                (cam_x c1 - cam_x c < 1 + 2 * (radius - rounding_margin))%Q).
  { unfold c1. destruct b1; cbn [cam_x set_x]; split; qlra. }
  destruct (can_move_with_wall_free size g radius Hg Hsize Hmax Hr0 Hr1
              (cam_x c1) (fadd (cam_z c) dz)) as (b2 & -> & H2).
  eexists. split; [reflexivity|].
  assert (Hx' : cam_x (if b2 then set_z c1 (fadd (cam_z c) dz) else c1) = cam_x c1)
    by (destruct b2; reflexivity).
  rewrite Hx'. split; [|split].
  - intros x Hb.
    apply (wall_free_between_x (radius - rounding_margin) g (cam_x c) (cam_x c1)); tauto.
  - intros z Hb. destruct b2; cbn [cam_z set_z] in Hb.
    + apply (wall_free_between_z (radius - rounding_margin) g (cam_z c) (fadd (cam_z c) dz));
        auto; try qlra; try (apply H2; reflexivity).
    + rewrite Hcz in Hb.
      apply (wall_free_between_z (radius - rounding_margin) g (cam_z c) (cam_z c));
        auto; qlra.
  - destruct b2; cbn [cam_z set_z]; [apply H2; reflexivity | rewrite Hcz; exact Hc1].
Qed.

(** X7. A move whose two components are smaller than
    [1 + 2 R - 3 * 2^-20] in magnitude cannot pass through a wall: on a
    generated grid of side from 3 to 2^31 and from a position where the
    square of half-width [R - 2^-20] is on PATH cells, that square stays
    on PATH cells all along the x-leg (from the old x to the new x at the
    old z) and all along the z-leg (from the old z to the new z at the
    new x). *)
Theorem move_no_tunnelling size rand g radius c dx dz :
  3 <= size -> size <= 2147483648 -> generated size rand g ->
  (rounding_margin < radius)%Q -> (radius < (1 # 2) - rounding_margin)%Q ->
  wall_free (radius - rounding_margin) g (cam_x c) (cam_z c) ->
  (- (1 + 2 * radius - 3 * rounding_margin) < dx)%Q ->
  (dx < 1 + 2 * radius - 3 * rounding_margin)%Q ->
  (- (1 + 2 * radius - 3 * rounding_margin) < dz)%Q ->
  (dz < 1 + 2 * radius - 3 * rounding_margin)%Q ->
  exists c', move_with radius g c dx dz = Done c' /\
    (forall x, between (cam_x c) (cam_x c') x ->
               wall_free (radius - rounding_margin) g x (cam_z c)) /\
    (forall z, between (cam_z c) (cam_z c') z ->
               wall_free (radius - rounding_margin) g (cam_x c') z).
Proof.
  intros Hsize Hmax (_ & st & Hinv & _ & <- & _)%generated_inv Hr0 Hr1 Hc Hx1 Hx2 Hz1 Hz2.
  destruct (move_with_legs size (maze st) radius c dx dz (inv_carved _ _ Hinv))
    as (c' & Hm & Hx & Hz & _); auto.
  eauto.
Qed.

Lemma Camera_init_safe :
  wall_free (PLAYER_RADIUS - rounding_margin) grid5 (cam_x Camera_init) (cam_z Camera_init).
Proof.
  apply (wall_free_shrink _ PLAYER_RADIUS); [|exact Camera_init_wall_free].
  pose proof rounding_margin_pos. qlra.
Qed.

Lemma move_no_tunnelling_witness :
  exists c', move_with PLAYER_RADIUS grid5 Camera_init (5 # 4) (1 # 1) = Done c' /\
    (forall x, between (cam_x Camera_init) (cam_x c') x ->
               wall_free (PLAYER_RADIUS - rounding_margin) grid5 x (cam_z Camera_init)) /\
    (forall z, between (cam_z Camera_init) (cam_z c') z ->
               wall_free (PLAYER_RADIUS - rounding_margin) grid5 (cam_x c') z).
Proof.
  apply (move_no_tunnelling 5 rand0 grid5).
  - lia.
  - lia.
  - exists 30%nat. reflexivity.
  - apply PLAYER_RADIUS_range.
  - apply PLAYER_RADIUS_range.
  - exact Camera_init_safe.
  - vm_compute. reflexivity.
  - vm_compute. reflexivity.
  - vm_compute. reflexivity.
  - vm_compute. reflexivity.
Defined.

(** A step that ends on the rounding edge: from (1.25, 1.5), facing along
    -x with cosine -1/2, the key W moves by [0.1 * -0.5] and the move is
    committed at x = 1.2, where the corner sum [1.2 + -0.2] is 1.0. *)
Example key_move_to_the_edge :
  exists c', moves_with PLAYER_RADIUS grid5 (camera_at (5 # 4) (3 # 2))
               (key_moves {| K_w := true; K_s := false; K_a := false; K_d := false |}
                          (-1 # 2) 0) = Done c' /\
             cam_x c' = round64 (12 # 10) /\ cam_z c' = (3 # 2)%Q /\
             fadd (cam_x c') (- PLAYER_RADIUS) = 1%Q.
Proof.
  eexists. split; [vm_compute; reflexivity|].
  split; [vm_compute; reflexivity|]. split; vm_compute; reflexivity.
Qed.

(** A longer step does jump: from (1.5, 1.5) the move (+2, 0) lands in
    cell (3,1) across the WALL cell (2,1). *)
Example move_jumps_a_wall :
  is_wall grid5 (2, 1) /\
  exists c', move grid5 Camera_init (2 # 1) (0 # 1) = Done c' /\
             (cam_x c' == 35 # 10)%Q /\ (cam_z c' == 15 # 10)%Q.
Proof.
  split; [reflexivity|]. eexists. split; [vm_compute; reflexivity|].
  split; reflexivity.
Qed.

(** ** The corner reads are not guarded *)

Lemma getitem_beyond {A} (l : list A) i :
  Z.of_nat (length l) <= i -> getitem l i = Raised IndexError.
Proof.
  intros Hi. unfold getitem, py_index.
  destruct (Z.leb_spec 0 i); [|lia].
  destruct (Z.ltb_spec i (Z.of_nat (length l))); [lia|]. simpl.
  destruct (Z.leb_spec (- Z.of_nat (length l)) i); simpl;
    [destruct (Z.ltb_spec i 0); [lia | reflexivity] | reflexivity].
Qed.

(** X8. Only the centre is tested against the bounds of the array.  On
    a square grid whose last row holds a PATH cell, a query whose centre
    and two low corners fall on PATH cells while the high corners fall
    beyond the last row raises IndexError instead of returning False. *)
Theorem can_move_corner_raises n g radius x z :
  square_grid n g ->
  is_path g (py_int x, py_int z) ->
  is_path g (py_int (fadd x (- radius)), py_int (fadd z (- radius))) ->
  is_path g (py_int (fadd x (- radius)), py_int (fadd z radius)) ->
  n <= py_int (fadd x radius) ->
  can_move_with radius g x z = Raised IndexError.
Proof.
  intros Hsq Hc H1 H2 Hout. unfold can_move_with.
  rewrite (centre_is_path_at n g x z PATH Hsq Hc). unfold_bind. simpl Z.eqb.
  rewrite corner_points_eq. simpl corners_clear.
  pose proof (getitem2_grid_at _ _ _ H1) as E1. simpl in E1. rewrite E1.
  pose proof (getitem2_grid_at _ _ _ H2) as E2. simpl in E2. rewrite E2.
  unfold_bind. simpl Z.eqb. cbv iota.
  unfold getitem2. rewrite getitem_beyond by (destruct Hsq; lia). reflexivity.
Qed.

Lemma can_move_corner_raises_witness :
  can_move_with PLAYER_RADIUS [[1; 1]; [1; 0]] (15 # 8) (3 # 2) = Raised IndexError.
Proof.
  apply (can_move_corner_raises 2 [[1; 1]; [1; 0]]).
  - split; [reflexivity|].
    repeat (apply Forall_cons; split); [..|apply Forall_nil_2]; reflexivity.
  - vm_compute. reflexivity.
  - vm_compute. reflexivity.
  - vm_compute. reflexivity.
  - vm_compute. discriminate.
Defined.

(** ** Where the portal fires *)

Lemma portal_distance2_offsets (px pz : Z) (d e : Q) :
  (portal_distance2 (camera_at (inject_Z px + d) (inject_Z pz + e)) (px, pz)
   == d * d + e * e)%Q.
Proof. unfold portal_distance2, camera_at. simpl. ring. Qed.

Lemma half_integer_far (k : Z) :
  (1 # 2 <= inject_Z k + (1 # 2))%Q \/ (inject_Z k + (1 # 2) <= - (1 # 2))%Q.
Proof.
  destruct (Z.le_gt_cases 0 k) as [Hk | Hk].
  - left. assert (inject_Z 0 <= inject_Z k)%Q by (rewrite <- Zle_Qle; exact Hk).
    change (inject_Z 0) with 0%Q in *. qlra.
  - right. assert (inject_Z k <= inject_Z (-1))%Q by (rewrite <- Zle_Qle; lia).
    change (inject_Z (-1)) with (-1)%Q in *. qlra.
Qed.

(** X9. The portal test is measured from the corner [(portal_x,
    portal_z)] of the portal cell, not from its centre: whenever it
    fires, the camera is less than 0.5 away from that corner on both
    axes; and a camera standing at the centre of a cell, that of the
    portal or any other, never fires it.  The start position
    (1.5, 1.5) is such a centre. *)
Theorem portal_fires_near_corner :
  (forall c p, check_portal_collision c p = true ->
     (inject_Z (fst p) - (1 # 2) < cam_x c)%Q /\ (cam_x c < inject_Z (fst p) + (1 # 2))%Q /\
     (inject_Z (snd p) - (1 # 2) < cam_z c)%Q /\ (cam_z c < inject_Z (snd p) + (1 # 2))%Q) /\
  (forall c (cx cz : Z) p,
     (cam_x c == inject_Z cx + (1 # 2))%Q -> (cam_z c == inject_Z cz + (1 # 2))%Q ->
     check_portal_collision c p = false) /\
  (forall p, check_portal_collision Camera_init p = false).
Proof.
  assert (Hcentre : forall c (cx cz : Z) p,
            (cam_x c == inject_Z cx + (1 # 2))%Q -> (cam_z c == inject_Z cz + (1 # 2))%Q ->
            check_portal_collision c p = false).
  { intros c cx cz [px pz] Ex Ez. apply check_portal_collision_axis. cbn [fst snd].
    assert (E1 : (cam_x c - inject_Z px == inject_Z (cx - px) + (1 # 2))%Q).
    { rewrite Ex. unfold Z.sub. rewrite inject_Z_plus, inject_Z_opp. ring. }
    rewrite E1. destruct (half_integer_far (cx - px)); tauto. }
  split; [|split; [exact Hcentre|]].
  - intros c p Hfire.
    destruct (Qlt_le_dec (inject_Z (fst p) - (1 # 2)) (cam_x c)) as [H1 | H1];
      [|rewrite check_portal_collision_axis in Hfire; [discriminate | right; left; qlra]].
    destruct (Qlt_le_dec (cam_x c) (inject_Z (fst p) + (1 # 2))) as [H2 | H2];
      [|rewrite check_portal_collision_axis in Hfire; [discriminate | left; qlra]].
    destruct (Qlt_le_dec (inject_Z (snd p) - (1 # 2)) (cam_z c)) as [H3 | H3];
      [|rewrite check_portal_collision_axis in Hfire;
        [discriminate | right; right; right; qlra]].
    destruct (Qlt_le_dec (cam_z c) (inject_Z (snd p) + (1 # 2))) as [H4 | H4];
      [|rewrite check_portal_collision_axis in Hfire;
        [discriminate | right; right; left; qlra]].
    repeat split; assumption.
  - intros p. apply (Hcentre Camera_init 1 1 p); reflexivity.
Qed.

Lemma portal_fires_near_corner_witness :
  check_portal_collision (camera_at (inject_Z 3 + (1 # 2)) (inject_Z 3 + (1 # 2))) (3, 3)
  = false.
Proof.
  destruct portal_fires_near_corner as (_ & H & _).
  apply (H _ 3 3 (3, 3)); reflexivity.
Defined.

(** X10. The portal of a generated maze can be fired from a position
    the player may hold: at 0.3 beyond the corner of the portal cell on
    both axes the collision square lies inside the portal cell, on PATH,
    and the portal test is true. *)
Theorem portal_can_fire size rand g :
  generated size rand g ->
  exists p, find_valid_portal_position size g = Done p /\
    wall_free PLAYER_RADIUS g (inject_Z (fst p) + (3 # 10)) (inject_Z (snd p) + (3 # 10)) /\
    check_portal_collision
      (camera_at (inject_Z (fst p) + (3 # 10)) (inject_Z (snd p) + (3 # 10))) p = true.
Proof.
  intros Hgen.
  destruct (portal_position_first_path_aux size rand g Hgen) as (x & z & Hfind & Hp).
  exists (x, z). split; [exact Hfind|]. simpl. split.
  - apply probe_wall_free; [rewrite PLAYER_RADIUS_value; reflexivity|].
    assert (Hfl : forall (k : Z) (q r : Q), (q == inject_Z k + r)%Q ->
                    (0 <= r)%Q -> (r < 1)%Q -> Qfloor q = k).
    { intros k q r Eq Hq0 Hq1. apply Z.le_antisymm.
      - apply Z.lt_succ_r. apply Qfloor_lt. unfold Z.succ.
        rewrite inject_Z_plus. change (inject_Z 1) with 1%Q. qlra.
      - apply Qfloor_ge. qlra. }
    assert (Hc : forall q1 q2 r1 r2,
                   (q1 == inject_Z x + r1)%Q -> (0 <= r1)%Q -> (r1 < 1)%Q ->
                   (q2 == inject_Z z + r2)%Q -> (0 <= r2)%Q -> (r2 < 1)%Q ->
                   is_path g (cell_of q1 q2)).
    { intros q1 q2 r1 r2 E1 ? ? E2 ? ?. unfold cell_of.
      rewrite (Hfl x q1 r1), (Hfl z q2 r2) by assumption. exact Hp. }
    unfold probe_cells. rewrite PLAYER_RADIUS_value.
    set (R := (3602879701896397 # 18014398509481984)%Q).
    repeat (apply Forall_cons; split); [..|apply Forall_nil_2].
    + apply (Hc _ _ (3 # 10)%Q (3 # 10)%Q); reflexivity || discriminate.
    + apply (Hc _ _ ((3 # 10) - R)%Q ((3 # 10) - R)%Q);
        (unfold R; ring) || reflexivity || discriminate.
    + apply (Hc _ _ ((3 # 10) - R)%Q ((3 # 10) + R)%Q);
        (unfold R; ring) || reflexivity || discriminate.
    + apply (Hc _ _ ((3 # 10) + R)%Q ((3 # 10) - R)%Q);
        (unfold R; ring) || reflexivity || discriminate.
    + apply (Hc _ _ ((3 # 10) + R)%Q ((3 # 10) + R)%Q);
        (unfold R; ring) || reflexivity || discriminate.
  - apply check_portal_collision_near.
    rewrite (portal_distance2_offsets x z). vm_compute. discriminate.
Qed.

Lemma portal_can_fire_witness :
  exists p, find_valid_portal_position 5 grid5 = Done p /\
    wall_free PLAYER_RADIUS grid5 (inject_Z (fst p) + (3 # 10)) (inject_Z (snd p) + (3 # 10)) /\
    check_portal_collision
      (camera_at (inject_Z (fst p) + (3 # 10)) (inject_Z (snd p) + (3 # 10))) p = true.
Proof.
  apply (portal_can_fire 5 rand0 grid5).
  exists 30%nat. reflexivity.
Defined.

(** ** Moves and rotations do not interfere *)

Lemma move_with_set_yaw radius g c a dx dz :
  move_with radius g (set_yaw c a) dx dz =
  (c' ← move_with radius g c dx dz; Done (set_yaw c' a)).
Proof.
  unfold move_with. simpl.
  destruct (can_move_with radius g (fadd (cam_x c) dx) (cam_z c)) as [b1| |];
    unfold_bind; try reflexivity.
  destruct b1; simpl;
    (match goal with
     | |- context [can_move_with ?r ?gr ?a1 ?a2] =>
         destruct (can_move_with r gr a1 a2) as [b2| |]
     end; try reflexivity; destruct b2; reflexivity).
Qed.

Lemma moves_with_set_yaw radius g l : forall c a,
  moves_with radius g (set_yaw c a) l =
  (c' ← moves_with radius g c l; Done (set_yaw c' a)).
Proof.
  induction l as [|[dx dz] l IH]; intros c a; simpl; [reflexivity|].
  rewrite move_with_set_yaw.
  destruct (move_with radius g c dx dz) as [c1| |]; unfold_bind; try reflexivity.
  apply IH.
Qed.

Lemma move_with_yaw radius g c dx dz c' :
  move_with radius g c dx dz = Done c' ->
  angle_yaw c' = angle_yaw c /\ cam_y c' = cam_y c.
Proof.
  unfold move_with.
  destruct (can_move_with radius g (fadd (cam_x c) dx) (cam_z c)) as [b1| |];
    unfold_bind; try discriminate.
  match goal with
  | |- context [can_move_with ?r ?gr ?a1 ?a2] =>
      destruct (can_move_with r gr a1 a2) as [b2| |]
  end; try discriminate.
  intros [= <-]. destruct b1, b2; simpl; auto.
Qed.

(** X11. Moves and rotations do not interfere.  A run of move and
    rotate calls ends where its moves alone would end (same position,
    same error if a move raises), with the height unchanged; its yaw is
    the starting yaw plus the rotation angles, added in order by float
    additions and never wrapped. *)
Theorem run_calls_split g c calls :
  run_calls g c calls =
  (c' ← moves_with PLAYER_RADIUS g c (moves_of calls);
   Done (set_yaw c' (fold_left fadd (angles_of calls) (angle_yaw c)))) /\
  (forall c', run_calls g c calls = Done c' -> cam_y c' = cam_y c).
Proof.
  split.
  - revert c. induction calls as [|[dx dz | a] calls IH]; intros c.
    + destruct c; reflexivity.
    + simpl run_calls. unfold moves_of, angles_of. rewrite !bind_cons.
      fold (moves_of calls). fold (angles_of calls). simpl.
      unfold move.
      destruct (move_with PLAYER_RADIUS g c dx dz) as [c1| |] eqn:Hm;
        unfold_bind; try reflexivity.
      rewrite IH. destruct (move_with_yaw _ _ _ _ _ _ Hm) as [-> _]. reflexivity.
    + simpl run_calls. unfold moves_of, angles_of. rewrite !bind_cons.
      fold (moves_of calls). fold (angles_of calls). simpl.
      rewrite IH.
      change (rotate c a) with (set_yaw c (fadd (angle_yaw c) a)).
      rewrite moves_with_set_yaw.
      destruct (moves_with PLAYER_RADIUS g c (moves_of calls)) as [c1| |];
        unfold_bind; reflexivity.
  - revert c. induction calls as [|[dx dz | a] calls IH]; intros c c'; simpl.
    + intros [= <-]. reflexivity.
    + unfold move.
      destruct (move_with PLAYER_RADIUS g c dx dz) as [c1| |] eqn:Hm;
        unfold_bind; try discriminate.
      intros Hrun. rewrite (IH c1 c' Hrun). apply (move_with_yaw _ _ _ _ _ _ Hm).
    + intros Hrun. rewrite (IH _ c' Hrun). reflexivity.
Qed.

Lemma run_calls_split_witness :
  exists c', run_calls grid5 Camera_init
               [CallRotate (90 # 1); CallMove 0 (1 # 1); CallRotate (-30 # 1)] = Done c' /\
             cam_y c' = cam_y Camera_init.
Proof.
  eexists. split; [vm_compute; reflexivity|].
  apply (proj2 (run_calls_split grid5 Camera_init
                  [CallRotate (90 # 1); CallMove 0 (1 # 1); CallRotate (-30 # 1)])).
  vm_compute. reflexivity.
Defined.

(** ** handle_events *)

Lemma handle_events_escape c events :
  handle_events true c events = (match events with [] => true | _ => false end, c).
Proof.
  destruct events as [|ev events]; simpl; [reflexivity|].
  destruct ev; reflexivity.
Qed.

(** X12. [handle_events] asks to go on exactly when the queue is empty,
    or ESC is up and the queue holds no QUIT.  ESC is looked at only when
    an event arrives: with an empty queue a pressed ESC is not seen.  The
    call never moves the camera; when it asks to go on, the yaw has grown
    by [MOUSE_SENSITIVITY] times each horizontal mouse motion, each
    product and each sum a float operation, and when ESC is down no
    motion is applied at all. *)
Theorem handle_events_spec escape c events :
  (fst (handle_events escape c events) = true <->
   events = [] \/ (escape = false /\ EvQuit ∉ events)) /\
  (cam_x (snd (handle_events escape c events)) = cam_x c /\
   cam_y (snd (handle_events escape c events)) = cam_y c /\
   cam_z (snd (handle_events escape c events)) = cam_z c) /\
  (fst (handle_events escape c events) = true ->
   angle_yaw (snd (handle_events escape c events)) =
   fold_left (fun a x => fadd a (fmul (inject_Z x) MOUSE_SENSITIVITY))
             (motions_of events) (angle_yaw c)) /\
  (escape = true -> snd (handle_events escape c events) = c).
Proof.
  destruct escape.
  - rewrite handle_events_escape. simpl. repeat split; auto.
    + destruct events; [auto | discriminate].
    + intros [-> | [? _]]; [reflexivity | discriminate].
    + destruct events; [reflexivity | discriminate].
  - revert c. induction events as [|ev events IH]; intros c.
    + simpl. repeat split; auto; discriminate.
    + destruct ev as [|x y|]; simpl.
      * repeat split; auto; try discriminate.
        intros [? | [_ Hq]]; [discriminate|].
        exfalso. apply Hq. apply elem_of_cons. auto.
      * destruct (IH (rotate c (fmul (inject_Z x) MOUSE_SENSITIVITY)))
          as (H1 & H2 & H3 & H4).
        split; [|split; [exact H2 | split; [exact H3 | discriminate]]].
        rewrite H1. split.
        -- intros [-> | [_ Hq]]; right; (split; [reflexivity|]).
           ++ intros [? | H]%elem_of_cons; [discriminate | apply elem_of_nil in H; auto].
           ++ intros [? | H]%elem_of_cons; [discriminate | auto].
        -- intros [? | [_ Hq]]; [discriminate|]. right. split; [reflexivity|].
           intros H. apply Hq. apply elem_of_cons. auto.
      * destruct (IH c) as (H1 & H2 & H3 & H4).
        split; [|split; [exact H2 | split; [exact H3 | discriminate]]].
        rewrite H1. split.
        -- intros [-> | [_ Hq]]; right; (split; [reflexivity|]).
           ++ intros [? | H]%elem_of_cons; [discriminate | apply elem_of_nil in H; auto].
           ++ intros [? | H]%elem_of_cons; [discriminate | auto].
        -- intros [? | [_ Hq]]; [discriminate|]. right. split; [reflexivity|].
           intros H. apply Hq. apply elem_of_cons. auto.
Qed.

Lemma handle_events_spec_witness :
  snd (handle_events true Camera_init [EvMouseMotion 5 0; EvOther]) = Camera_init.
Proof.
  apply (proj2 (proj2 (proj2
           (handle_events_spec true Camera_init [EvMouseMotion 5 0; EvOther])))).
  reflexivity.
Defined.

Example handle_events_escape_unseen :
  handle_events true Camera_init [] = (true, Camera_init) /\
  handle_events true Camera_init [EvMouseMotion 5 0] = (false, Camera_init) /\
  handle_events false Camera_init [EvMouseMotion 5 0; EvQuit; EvMouseMotion 7 0] =
    (false, rotate Camera_init (fmul (inject_Z 5) MOUSE_SENSITIVITY)).
Proof. repeat split. Qed.

(** ** One pass of the key handling *)

Lemma moves_legs_safe size g radius l :
  carved size g -> 3 <= size -> size <= 2147483648 ->
  (rounding_margin < radius)%Q -> (radius < (1 # 2) - rounding_margin)%Q ->
  Forall (fun d => (- (1 + 2 * radius - 3 * rounding_margin) < fst d)%Q /\
                   (fst d < 1 + 2 * radius - 3 * rounding_margin)%Q /\
                   (- (1 + 2 * radius - 3 * rounding_margin) < snd d)%Q /\
                   (snd d < 1 + 2 * radius - 3 * rounding_margin)%Q) l ->
  forall c, wall_free (radius - rounding_margin) g (cam_x c) (cam_z c) ->
            legs_safe radius (radius - rounding_margin) g c l.
Proof.
  intros Hg Hsize Hmax Hr0 Hr1. induction 1 as [|[dx dz] l (H1 & H2 & H3 & H4) _ IH];
    intros c Hc; simpl; [exact I|].
  simpl in H1, H2, H3, H4.
  destruct (move_with_legs size g radius c dx dz Hg Hsize Hmax Hr0 Hr1 Hc H1 H2 H3 H4)
    as (c' & Hm & Hx & Hz & Hc').
  exists c'. split; [exact Hm|]. split; [exact Hx|]. split; [exact Hz|].
  apply IH, Hc'.
Qed.

(** A step of one key: the speed times a cosine or sine, rounded, is
    at most 1/8 in magnitude. *)
Lemma key_step_small t :
  (-1 <= t)%Q -> (t <= 1)%Q ->
  ((- (1 # 8) <= fmul PLAYER_SPEED t)%Q /\ (fmul PLAYER_SPEED t <= 1 # 8)%Q) /\
  ((- (1 # 8) <= fmul (- PLAYER_SPEED) t)%Q /\ (fmul (- PLAYER_SPEED) t <= 1 # 8)%Q).
Proof.
  intros H1 H2. unfold fmul. rewrite PLAYER_SPEED_value.
  set (s := (3602879701896397 # 36028797018963968)%Q).
  assert (Hs : (s == 3602879701896397 # 36028797018963968)%Q) by reflexivity.
  assert (Hp : (- s <= s * t)%Q /\ (s * t <= s)%Q) by (split; Lqa.nra).
  assert (Hn : (- s <= - s * t)%Q /\ (- s * t <= s)%Q) by (split; Lqa.nra).
  destruct (round64_error (s * t) 1) as [E1 E2]; [qlra | qlra|].
  destruct (round64_error (- s * t) 1) as [F1 F2]; [qlra | qlra|].
  repeat split; qlra.
Qed.

(** X13. At the speed of the game the player cannot cross a wall.  For
    every combination of the keys W, S, A and D and every view direction
    (cosine and sine between -1 and 1), the moves of one pass through the
    loop of [main], made on a generated grid of side from 3 to 2^31 from
    a position where the square of half-width [0.2 - 2^-20] is on PATH
    cells, all run without raising and keep that square on PATH cells
    along every leg travelled. *)
Theorem key_moves_safe size rand g c k cos_yaw sin_yaw :
  3 <= size -> size <= 2147483648 -> generated size rand g ->
  wall_free (PLAYER_RADIUS - rounding_margin) g (cam_x c) (cam_z c) ->
  (-1 <= cos_yaw)%Q -> (cos_yaw <= 1)%Q -> (-1 <= sin_yaw)%Q -> (sin_yaw <= 1)%Q ->
  legs_safe PLAYER_RADIUS (PLAYER_RADIUS - rounding_margin) g c
            (key_moves k cos_yaw sin_yaw).
Proof.
  intros Hsize Hmax (_ & st & Hinv & _ & <- & _)%generated_inv Hc Hc1 Hc2 Hs1 Hs2.
  destruct PLAYER_RADIUS_range as [Hr0 Hr1].
  apply (moves_legs_safe size (maze st) PLAYER_RADIUS _ (inv_carved _ _ Hinv)
           Hsize Hmax Hr0 Hr1); [|exact Hc].
  destruct (key_step_small cos_yaw Hc1 Hc2) as [[C1 C2] [C3 C4]].
  destruct (key_step_small sin_yaw Hs1 Hs2) as [[S1 S2] [S3 S4]].
  assert (Hm : (rounding_margin == 1 # 1048576)%Q) by reflexivity.
  unfold key_moves.
  destruct k as [[] [] [] []]; simpl;
    repeat (apply Forall_cons; split); try apply Forall_nil_2;
    simpl; repeat split; qlra.
Qed.

Lemma key_moves_safe_witness :
  legs_safe PLAYER_RADIUS (PLAYER_RADIUS - rounding_margin) grid5 Camera_init
    (key_moves {| K_w := true; K_s := false; K_a := true; K_d := false |} (3 # 5) (4 # 5)).
Proof.
  apply (key_moves_safe 5 rand0 grid5).
  - lia.
  - lia.
  - exists 30%nat. reflexivity.
  - exact Camera_init_safe.
  - discriminate.
  - discriminate.
  - discriminate.
  - discriminate.
Defined.

(** ** The cube of a wall cell *)

Lemma faces_calls_cube (v0 v1 v2 v3 v4 v5 v6 v7 : Z * Z * Z) :
  exists calls,
    faces_calls [v0; v1; v2; v3; v4; v5; v6; v7] cube_faces = Done calls /\
    call_vertices calls =
      [v0; v1; v2; v3; v4; v5; v6; v7; v0; v1; v5; v4;
       v2; v3; v7; v6; v0; v3; v7; v4; v1; v2; v6; v5] /\
    length calls = 48%nat.
Proof. eexists. split; [vm_compute; reflexivity|]. split; reflexivity. Qed.

Lemma draw_textured_cube_done x y z :
  draw_textured_cube x y z = Done (cube_calls x y z) /\
  length (cube_calls x y z) = 50%nat /\
  quads (call_vertices (cube_calls x y z)) =
    [[(x, y, z); (x + 1, y, z); (x + 1, y, z + 1); (x, y, z + 1)];
     [(x, y + 1, z); (x + 1, y + 1, z); (x + 1, y + 1, z + 1); (x, y + 1, z + 1)];
     [(x, y, z); (x + 1, y, z); (x + 1, y + 1, z); (x, y + 1, z)];
     [(x + 1, y, z + 1); (x, y, z + 1); (x, y + 1, z + 1); (x + 1, y + 1, z + 1)];
     [(x, y, z); (x, y, z + 1); (x, y + 1, z + 1); (x, y + 1, z)];
     [(x + 1, y, z); (x + 1, y, z + 1); (x + 1, y + 1, z + 1); (x + 1, y + 1, z)]].
Proof.
  unfold cube_calls, draw_textured_cube, cube_vertices. cbv zeta.
  destruct (faces_calls_cube (x, y, z) (x + 1, y, z) (x + 1, y, z + 1) (x, y, z + 1)
              (x, y + 1, z) (x + 1, y + 1, z) (x + 1, y + 1, z + 1) (x, y + 1, z + 1))
    as (calls & -> & Hv & Hlen).
  unfold_bind. split; [reflexivity|]. split.
  - simpl. rewrite length_app, Hlen. reflexivity.
  - unfold call_vertices in *. rewrite bind_cons, bind_app, Hv. reflexivity.
Qed.

(** X15. [draw_textured_cube(x, y, z)] never raises and draws the unit
    cube with corner [(x, y, z)]: six quads, each going round a square of
    unit edges, with all vertices inside the cube, and one quad in each
    of the six planes that bound the cube. *)
Theorem draw_textured_cube_faces x y z :
  draw_textured_cube x y z = Done (cube_calls x y z) /\
  length (quads (call_vertices (cube_calls x y z))) = 6%nat /\
  Forall quad_loop (quads (call_vertices (cube_calls x y z))) /\
  Forall (Forall (fun v => x <= coordinate 0 v <= x + 1 /\
                           y <= coordinate 1 v <= y + 1 /\
                           z <= coordinate 2 v <= z + 1))
         (quads (call_vertices (cube_calls x y z))) /\
  (forall axis side,
     (axis < 3)%nat -> side = 0 \/ side = 1 ->
     exists q, q ∈ quads (call_vertices (cube_calls x y z)) /\
               quad_in_plane axis (coordinate axis (x, y, z) + side) q).
Proof.
  destruct (draw_textured_cube_done x y z) as (Hdone & _ & ->).
  split; [exact Hdone|]. split; [reflexivity|]. split; [|split].
  - repeat (apply Forall_cons; split); try apply Forall_nil_2;
      unfold quad_loop, cube_edge; simpl; lia.
  - repeat (apply Forall_cons; split); try apply Forall_nil_2; simpl; lia.
  - intros axis side Haxis Hside.
    destruct axis as [|[|[|axis]]]; [| | |lia]; destruct Hside as [-> | ->]; simpl.
    + (* x = x *) eexists. split; [do 4 apply list_elem_of_further; apply list_elem_of_here|].
      unfold quad_in_plane. repeat (apply Forall_cons; split); try apply Forall_nil_2; simpl; lia.
    + eexists. split; [do 5 apply list_elem_of_further; apply list_elem_of_here|].
      unfold quad_in_plane. repeat (apply Forall_cons; split); try apply Forall_nil_2; simpl; lia.
    + eexists. split; [apply list_elem_of_here|].
      unfold quad_in_plane. repeat (apply Forall_cons; split); try apply Forall_nil_2; simpl; lia.
    + eexists. split; [do 1 apply list_elem_of_further; apply list_elem_of_here|].
      unfold quad_in_plane. repeat (apply Forall_cons; split); try apply Forall_nil_2; simpl; lia.
    + eexists. split; [do 2 apply list_elem_of_further; apply list_elem_of_here|].
      unfold quad_in_plane. repeat (apply Forall_cons; split); try apply Forall_nil_2; simpl; lia.
    + eexists. split; [do 3 apply list_elem_of_further; apply list_elem_of_here|].
      unfold quad_in_plane. repeat (apply Forall_cons; split); try apply Forall_nil_2; simpl; lia.
Qed.

Lemma draw_textured_cube_faces_witness :
  exists q, q ∈ quads (call_vertices (cube_calls 2 0 3)) /\
            quad_in_plane 0 (coordinate 0 (2, 0, 3) + 1) q.
Proof.
  apply (proj2 (proj2 (proj2 (proj2 (draw_textured_cube_faces 2 0 3)))) 0%nat 1).
  - lia.
  - right. reflexivity.
Defined.

(** ** Maze.draw *)

Lemma list_bind_bind {A B C} (f : A -> list B) (h : B -> list C) (l : list A) :
  (l ≫= f) ≫= h = l ≫= (fun a => f a ≫= h).
Proof.
  induction l as [|a l IH]; [reflexivity|].
  rewrite !bind_cons, bind_app, IH. reflexivity.
Qed.

Lemma draw_row_spec size g x ys :
  square_grid size g -> 0 <= x < size -> Forall (fun y => 0 <= y < size) ys ->
  draw_row g x ys =
  Done (filter (fun y => grid_at g (x, y) = Some WALL) ys ≫= fun y => cube_calls x 0 y).
Proof.
  intros Hsq Hx. induction 1 as [|y ys Hy _ IH]; [reflexivity|]. simpl.
  destruct (grid_at_in_bounds size g (x, y) Hsq) as [v Hv];
    [unfold in_bounds; simpl; lia|].
  pose proof (getitem2_grid_at _ _ _ Hv) as Hget. simpl in Hget.
  rewrite Hget, IH. unfold_bind.
  destruct (Z.eqb_spec v WALL) as [-> | Hne].
  - destruct (draw_textured_cube_done x 0 y) as [-> _].
    rewrite filter_cons_True by exact Hv. rewrite bind_cons. reflexivity.
  - rewrite filter_cons_False by (rewrite Hv; congruence). reflexivity.
Qed.

Lemma draw_rows_spec size g xs ys :
  square_grid size g ->
  Forall (fun x => 0 <= x < size) xs -> Forall (fun y => 0 <= y < size) ys ->
  draw_rows g xs ys =
  Done (xs ≫= fun x =>
          filter (fun y => grid_at g (x, y) = Some WALL) ys ≫= fun y => cube_calls x 0 y).
Proof.
  intros Hsq Hxs Hys. induction Hxs as [|x xs Hx _ IH]; [reflexivity|]. simpl.
  rewrite (draw_row_spec size g x ys Hsq Hx Hys), IH. unfold_bind.
  reflexivity.
Qed.

Lemma elem_of_wall_cells size g c :
  square_grid size g -> (c ∈ wall_cells size g <-> is_wall g c).
Proof.
  intros Hsq. unfold wall_cells. rewrite list_elem_of_bind. split.
  - intros (x & Hc & Hx). apply list_elem_of_bind in Hc as (y & Hc & Hy).
    apply list_elem_of_filter in Hy as [Hw _].
    apply list_elem_of_singleton in Hc as ->. exact Hw.
  - intros Hw. pose proof (grid_at_bounds size g c WALL Hsq Hw) as [Hx Hy].
    destruct c as [x y]. simpl in Hx, Hy.
    exists x. split; [|apply elem_of_seqZ; lia].
    apply list_elem_of_bind. exists y. split; [apply list_elem_of_singleton; reflexivity|].
    apply list_elem_of_filter. split; [exact Hw | apply elem_of_seqZ; lia].
Qed.

Lemma NoDup_wall_cells size g : NoDup (wall_cells size g).
Proof.
  unfold wall_cells. apply NoDup_bind; [| |apply NoDup_seqZ].
  - intros x1 x2 c _ _ H1 H2.
    apply list_elem_of_bind in H1 as (y1 & H1 & _).
    apply list_elem_of_bind in H2 as (y2 & H2 & _).
    apply list_elem_of_singleton in H1, H2. congruence.
  - intros x _. apply NoDup_bind.
    + intros y1 y2 c _ _ H1 H2. apply list_elem_of_singleton in H1, H2. congruence.
    + intros y _. apply NoDup_singleton.
    + apply NoDup_filter, NoDup_seqZ.
Qed.

(** X14. On any square grid [draw] never raises; after binding the
    wall texture it draws one cube, [draw_textured_cube(x, 0, y)], for
    every WALL cell [(x, y)], each cell once, row by row, and nothing for
    the other cells. *)
Theorem draw_walls size g wall_texture :
  square_grid size g ->
  draw size g wall_texture =
    Done (glBindTexture wall_texture ::
          (wall_cells size g ≫= fun c => cube_calls (fst c) 0 (snd c))) /\
  NoDup (wall_cells size g) /\
  (forall c, c ∈ wall_cells size g <-> is_wall g c).
Proof.
  intros Hsq. split; [|split; [apply NoDup_wall_cells | intros c; apply elem_of_wall_cells, Hsq]].
  assert (Hrange : Forall (fun x => 0 <= x < size) (seqZ 0 size)).
  { apply Forall_forall. intros a Ha%elem_of_seqZ. lia. }
  unfold draw. rewrite (draw_rows_spec size g _ _ Hsq Hrange Hrange). unfold_bind.
  do 2 f_equal. unfold wall_cells. rewrite list_bind_bind.
  apply list_bind_ext; [|reflexivity]. intros x.
  rewrite list_bind_bind. apply list_bind_ext; [|reflexivity]. intros y.
  rewrite bind_singleton. reflexivity.
Qed.

Lemma draw_walls_witness :
  draw 2 [[1; 1]; [1; 0]] 7 =
    Done (glBindTexture 7 ::
          (wall_cells 2 [[1; 1]; [1; 0]] ≫= fun c => cube_calls (fst c) 0 (snd c))) /\
  NoDup (wall_cells 2 [[1; 1]; [1; 0]]) /\
  (forall c, c ∈ wall_cells 2 [[1; 1]; [1; 0]] <-> is_wall [[1; 1]; [1; 0]] c).
Proof.
  apply (draw_walls 2 [[1; 1]; [1; 0]] 7).
  split; [reflexivity|].
  repeat (apply Forall_cons; split); [..|apply Forall_nil_2]; reflexivity.
Defined.

Example wall_cells_2 : wall_cells 2 [[1; 1]; [1; 0]] = [(0, 0); (0, 1); (1, 0)].
Proof. reflexivity. Qed.

(** ** The game as it is played *)

Lemma Camera_init_tested size g :
  carved size g -> can_move g (cam_x Camera_init) (cam_z Camera_init) = Done true.
Proof.
  intros Hg. apply (can_move_with_read size); [apply Hg|].
  assert (E : read_cells PLAYER_RADIUS (cam_x Camera_init) (cam_z Camera_init) =
              [(1, 1); (1, 1); (1, 1); (1, 1); (1, 1)]) by (vm_compute; reflexivity).
  rewrite E.
  repeat (apply Forall_cons; split); [..|apply Forall_nil_2]; exact (carved_start _ _ Hg).
Qed.

Lemma run_calls_tested size g calls :
  carved size g -> 3 <= size -> size <= 2147483648 ->
  forall c, can_move g (cam_x c) (cam_z c) = Done true ->
  exists c', run_calls g c calls = Done c' /\
             can_move g (cam_x c') (cam_z c') = Done true.
Proof.
  intros Hg Hsize Hmax. destruct PLAYER_RADIUS_range as [Hr0 Hr1].
  induction calls as [|[dx dz | a] calls IH]; intros c Hc; simpl.
  - eauto.
  - unfold move.
    destruct (move_with_contained size g PLAYER_RADIUS Hg Hsize Hmax Hr0 Hr1 c c dx dz)
      as (c1 & -> & _ & Hk).
    { destruct (can_move_with_wall_free size g PLAYER_RADIUS Hg Hsize Hmax Hr0 Hr1
                  (cam_x c) (cam_z c)) as (b & Hb & Hw).
      apply Hw. unfold can_move in Hc. congruence. }
    { left. split; reflexivity. }
    unfold_bind. apply IH.
    destruct Hk as [[-> ->] | Hk]; [exact Hc | exact Hk].
  - apply IH. exact Hc.
Qed.

(** X16. Played from the start the game never crashes in its core and
    never lets the player into a wall: for every side from 3 to 2^31,
    random stream and sequence of move and rotate calls, building the
    maze, placing the camera at its start (1.5, 1.5) and running the
    calls returns a maze and a pose at which [can_move] answers [True],
    and the square of half-width [0.2 - 2^-20] around it overlaps only
    in-bounds PATH cells. *)
Theorem simulate_safe fuel size rand calls :
  3 <= size -> size <= 2147483648 -> (gen_fuel size <= fuel)%nat ->
  exists m c,
    simulate fuel size rand calls = Done (m, c) /\
    can_move (maze_grid m) (cam_x c) (cam_z c) = Done true /\
    wall_free (PLAYER_RADIUS - rounding_margin) (maze_grid m) (cam_x c) (cam_z c) /\
    ~ overlaps_wall (PLAYER_RADIUS - rounding_margin) (maze_grid m) (cam_x c) (cam_z c).
Proof.
  intros Hsize Hmax Hfuel. unfold simulate, Maze_init.
  destruct (generate_maze_run_ok size rand fuel) as (st & Hrun & Hinv & _);
    [lia | exact Hfuel |].
  assert (Hgen : generate_maze fuel size rand = Done (maze st))
    by (unfold generate_maze; rewrite Hrun; reflexivity).
  assert (Hgd : generated size rand (maze st)) by (exists fuel; exact Hgen).
  rewrite Hgen. unfold_bind.
  destruct (portal_position_first_path_aux size rand (maze st) Hgd) as (x & z & -> & _).
  simpl. pose proof (inv_carved _ _ Hinv) as Hg.
  destruct (run_calls_tested size (maze st) calls Hg Hsize Hmax Camera_init
              (Camera_init_tested size _ Hg)) as (c' & -> & Hc').
  destruct PLAYER_RADIUS_range as [Hr0 Hr1].
  assert (Hw : wall_free (PLAYER_RADIUS - rounding_margin) (maze st) (cam_x c') (cam_z c')).
  { destruct (can_move_with_wall_free size (maze st) PLAYER_RADIUS Hg Hsize Hmax Hr0 Hr1
                (cam_x c') (cam_z c')) as (b & Hb & Hw).
    apply Hw. unfold can_move in Hc'. congruence. }
  eexists. exists c'. split; [reflexivity|]. simpl.
  split; [exact Hc'|]. split; [exact Hw | apply wall_free_no_overlap, Hw].
Qed.

Lemma simulate_safe_witness :
  exists m c,
    simulate 400 MAZE_SIZE rand1
      [CallMove (1 # 8) 0; CallRotate (90 # 1); CallMove 0 (1 # 8)] = Done (m, c) /\
    can_move (maze_grid m) (cam_x c) (cam_z c) = Done true /\
    wall_free (PLAYER_RADIUS - rounding_margin) (maze_grid m) (cam_x c) (cam_z c) /\
    ~ overlaps_wall (PLAYER_RADIUS - rounding_margin) (maze_grid m) (cam_x c) (cam_z c).
Proof.
  apply (simulate_safe 400 MAZE_SIZE rand1).
  - vm_compute. discriminate.
  - vm_compute. discriminate.
  - vm_compute. lia.
Defined.
